(** * dynamo-repository: key derivation, paginated reader, read cache and
      unit-of-work tracker

    A shallow embedding of [get-entity-key.ts], [repository.class.ts],
    [repository.cached.class.ts] and [repository.managed.class.ts].

    - JavaScript values are the inductive [jsval]; an object carries the
      address that [===] and [Map] compare, next to its properties.
    - The cache ([Map<any, Map<any, Promise<Entity>>>]) is a [gmap] of
      [gmap]s from [SameValueZero] tokens to promise references.
    - The tracked table ([Map<any, {action, initialStatus, entity}>]) is an
      insertion-ordered association list: [flush] iterates it in order.
    - Promises are references into a table of promise states; the store
      answers through explicit settle / reply steps, so that what happens
      between the dispatch of a call and its answer can be stated. *)

From Stdlib Require Import ZArith String List Bool Lia.
From stdpp Require Import base option list strings pretty gmap.
Import ListNotations.

Local Open Scope string_scope.
Local Open Scope list_scope.
Set Warnings "-register-all".

(** ** JavaScript values *)

Inductive jsval : Type :=
| VUndef
| VStr (s : string)
| VNum (n : Z)
| VBool (b : bool)
| VObj (addr : nat) (props : list (string * jsval)).

(** An object literal, an item or a [DocumentClient.Key]: its properties in
    insertion order. *)
Definition obj : Type := list (string * jsval).

(** [o[k]]: the value of the property, [undefined] when there is none. *)
Fixpoint prop (o : obj) (k : string) : jsval :=
  match o with
  | [] => VUndef
  | (k', v) :: o' => if String.eqb k' k then v else prop o' k
  end.

(** [o[k] = v]: overwrite in place, or append a new property. *)
Fixpoint obj_set (o : obj) (k : string) (v : jsval) : obj :=
  match o with
  | [] => [(k, v)]
  | (k', v') :: o' =>
      if String.eqb k' k then (k', v) :: o' else (k', v') :: obj_set o' k v
  end.

(** [Object.keys(o)] *)
Definition obj_keys (o : obj) : list string := map fst o.

(** [a === b]: primitives by value, objects by address. *)
Definition strict_eq (a b : jsval) : bool :=
  match a, b with
  | VUndef, VUndef => true
  | VStr s, VStr t => String.eqb s t
  | VNum n, VNum m => Z.eqb n m
  | VBool x, VBool y => Bool.eqb x y
  | VObj i _, VObj j _ => Nat.eqb i j
  | _, _ => false
  end.

(** Deep value equality: objects by their properties, whatever their
    address. *)
Fixpoint deep_eq (a b : jsval) : bool :=
  match a, b with
  | VUndef, VUndef => true
  | VStr s, VStr t => String.eqb s t
  | VNum n, VNum m => Z.eqb n m
  | VBool x, VBool y => Bool.eqb x y
  | VObj _ ps, VObj _ qs =>
      (fix props_eq (ps qs : list (string * jsval)) : bool :=
         match ps, qs with
         | [], [] => true
         | (k, v) :: ps', (k', v') :: qs' =>
             String.eqb k k' && deep_eq v v' && props_eq ps' qs'
         | _, _ => false
         end) ps qs
  | _, _ => false
  end.

(** A value that is not an object (a DynamoDB S, N or BOOL attribute). *)
Definition scalar (v : jsval) : bool :=
  match v with VObj _ _ => false | _ => true end.

(** What a [Map] compares its keys by ([SameValueZero]). *)
Inductive token : Type :=
| TUndef
| TStr (s : string)
| TNum (n : Z)
| TBool (b : bool)
| TRef (addr : nat).

Definition token_of (v : jsval) : token :=
  match v with
  | VUndef => TUndef
  | VStr s => TStr s
  | VNum n => TNum n
  | VBool b => TBool b
  | VObj a _ => TRef a
  end.

#[global] Instance token_eq_dec : EqDecision token.
Proof. solve_decision. Defined.

Definition token_enc (t : token) : unit + string + Z + bool + nat :=
  match t with
  | TUndef => inl (inl (inl (inl tt)))
  | TStr s => inl (inl (inl (inr s)))
  | TNum n => inl (inl (inr n))
  | TBool b => inl (inr b)
  | TRef a => inr a
  end.

Definition token_dec (x : unit + string + Z + bool + nat) : token :=
  match x with
  | inl (inl (inl (inl _))) => TUndef
  | inl (inl (inl (inr s))) => TStr s
  | inl (inl (inr n)) => TNum n
  | inl (inr b) => TBool b
  | inr a => TRef a
  end.

#[global] Instance token_countable : Countable token.
Proof.
  refine (inj_countable' token_enc token_dec _).
  intros []; reflexivity.
Defined.

(** ** Key schema and key derivation ([get-entity-key.ts]) *)

Record KeySchemaElement : Type := {
  AttributeName : string;
  KeyType : string;
}.

Definition KeySchema : Type := list KeySchemaElement.

Definition hash : string := "HASH".
Definition range : string := "RANGE".

Definition is_type (ty : string) (k : KeySchemaElement) : bool :=
  String.eqb (KeyType k) ty.

(** A string in a condition: the empty string is falsy. *)
Definition truthy_string (s : string) : bool := negb (String.eqb s EmptyString).

(** [getEntityKey(keySchema, entity)]; [None] is the [TypeError] of reading
    [.AttributeName] off [undefined] when the schema has no HASH element. *)
Definition getEntityKey (keySchema : KeySchema) (entity : obj) : option obj :=
  match List.find (is_type hash) keySchema with
  | None => None
  | Some hs =>
      let hashKey := AttributeName hs in
      let rangeKey := AttributeName <$> List.find (is_type range) keySchema in
      let key := obj_set [] hashKey (prop entity hashKey) in
      Some (match rangeKey with
            | Some rk =>
                if truthy_string rk then obj_set key rk (prop entity rk)
                else key
            | None => key
            end)
  end.

(** ** Key comparison ([repository.class.ts], [sameKey] and [uniqueKeys]) *)

Definition sameKey (key1 key2 : obj) : bool :=
  forallb (fun k => strict_eq (prop key2 k) (prop key1 k)) (obj_keys key1).

Definition uniqueKeys (arrArg : list obj) : list obj :=
  fold_left
    (fun output key =>
       if existsb (fun k2 => sameKey key k2) output
       then output else output ++ [key])
    arrArg [].

(** The comparison as the specification words it: every attribute present
    in either key compares equal by deep value. *)
Definition spec_keyEqual (key1 key2 : obj) : bool :=
  forallb (fun k => deep_eq (prop key1 k) (prop key2 k))
          (obj_keys key1 ++ obj_keys key2).

(** ** Table configuration ([table-config.interface.ts]) *)

(** [JSON.stringify] on the in-memory state of an entity. *)
Class Serializable (Content : Type) : Type :=
  JSON_stringify : Content -> string.

(** [ITableConfig<Entity>] once the constructor has merged the default
    [marshal] and [unMarshal] into it. [Content] is the state of an
    [Entity] object; [secondaryIndexes] maps an index name to its
    [ProjectionType]. *)
Record ITableConfig (Content : Type) : Type := {
  tableName : string;
  keySchema : KeySchema;
  secondaryIndexes : option (list (string * string));
  marshal : Content -> obj;
  unMarshal : obj -> Content;
}.
Arguments tableName {Content} _.
Arguments keySchema {Content} _.
Arguments secondaryIndexes {Content} _.
Arguments marshal {Content} _ _.
Arguments unMarshal {Content} _ _.

(** The immutable fields of a repository object. *)
Record Repository (Content : Type) : Type := {
  config : ITableConfig Content;
  hashKey : string;
  rangeKey : option string;
}.
Arguments config {Content} _.
Arguments hashKey {Content} _.
Arguments rangeKey {Content} _.

(** The constructors: [None] is the [TypeError] raised when the key schema
    has no HASH element. *)
Definition new_Repository {Content : Type} (cfg : ITableConfig Content)
  : option (Repository Content) :=
  match List.find (is_type hash) (keySchema cfg) with
  | None => None
  | Some hs =>
      Some {| config := cfg;
              hashKey := AttributeName hs;
              rangeKey := AttributeName <$> List.find (is_type range) (keySchema cfg) |}
  end.

(** [key[this.rangeKey]]: an undefined attribute name reads the property
    called "undefined". *)
Definition key_at (key : obj) (attr : option string) : jsval :=
  prop key (default "undefined" attr).

(** ** Errors, store calls, notifications, promises *)

Inductive error : Type :=
| StoreError (msg : string)
| TypeError.

(** Identity of an entity object and of a promise object. *)
Definition eref : Type := nat.
Definition pref : Type := nat.

(** [Entity | undefined] *)
Definition opt_entity : Type := option eref.

Inductive pstate : Type :=
| Pending
| Fulfilled (v : opt_entity)
| Rejected (err : error).

(** The requests handed to the document client. *)
Inductive call : Type :=
| dc_get (TableName : string) (Key : obj)
| dc_batchGet (TableName : string) (Keys : list obj)
| dc_put (TableName : string) (Item : obj)
| dc_delete (TableName : string) (Key : obj).

(** What [eventEmitter.emit] is called with. *)
Inductive event : Type :=
| cacheKeyInUse (cachedItem : option pref) (newItem : opt_entity)
| flushed
| errorCreating (err : error) (e : eref)
| errorUpdating (err : error) (e : eref)
| errorDeleting (err : error) (e : eref)
| errorFlushing.

Inductive Action : Type := CREATE | UPDATE | DELETE.

Record TrackedEntry : Type := {
  action : Action;
  initialStatus : option string;
  tentity : eref;
}.

#[global] Instance error_eq_dec : EqDecision error.
Proof. solve_decision. Defined.
#[global] Instance Action_eq_dec : EqDecision Action.
Proof. solve_decision. Defined.

(** ** A JavaScript [Map]: insertion-ordered, one entry per key *)

Section JsMap.
Context {K V : Type} `{EqDecision K}.

Fixpoint jm_get (k : K) (m : list (K * V)) : option V :=
  match m with
  | [] => None
  | (k', v) :: m' => if decide (k' = k) then Some v else jm_get k m'
  end.

Definition jm_has (k : K) (m : list (K * V)) : bool :=
  match jm_get k m with Some _ => true | None => false end.

(** [set] keeps the position of a key that is already there. *)
Fixpoint jm_set (k : K) (v : V) (m : list (K * V)) : list (K * V) :=
  match m with
  | [] => [(k, v)]
  | (k', v') :: m' =>
      if decide (k' = k) then (k', v) :: m' else (k', v') :: jm_set k v m'
  end.

Fixpoint jm_delete (k : K) (m : list (K * V)) : list (K * V) :=
  match m with
  | [] => []
  | (k', v') :: m' =>
      if decide (k' = k) then m' else (k', v') :: jm_delete k m'
  end.

Definition jm_values (m : list (K * V)) : list V := map snd m.
End JsMap.

(** ** The mutable state of one repository and of the objects around it *)

Record World (Content : Type) : Type := {
  cache : gmap token (gmap token pref);
  promises : list pstate;
  heap : eref -> Content;
  next_entity : eref;
  calls : list call;
  events : list event;
  tracked : list (eref * TrackedEntry);
}.
Arguments cache {Content} _.
Arguments promises {Content} _.
Arguments heap {Content} _.
Arguments next_entity {Content} _.
Arguments calls {Content} _.
Arguments events {Content} _.
Arguments tracked {Content} _.

Section WorldOps.
Context {Content : Type}.
Implicit Types w : World Content.

Definition set_cache (c : gmap token (gmap token pref)) w : World Content :=
  {| cache := c; promises := promises w; heap := heap w;
     next_entity := next_entity w; calls := calls w; events := events w;
     tracked := tracked w |}.

Definition set_promises (ps : list pstate) w : World Content :=
  {| cache := cache w; promises := ps; heap := heap w;
     next_entity := next_entity w; calls := calls w; events := events w;
     tracked := tracked w |}.

Definition set_tracked (t : list (eref * TrackedEntry)) w : World Content :=
  {| cache := cache w; promises := promises w; heap := heap w;
     next_entity := next_entity w; calls := calls w; events := events w;
     tracked := t |}.

(** The application mutates entity [e] in place. *)
Definition mutate (e : eref) (c : Content) w : World Content :=
  {| cache := cache w; promises := promises w;
     heap := fun x => if decide (x = e) then c else heap w x;
     next_entity := next_entity w; calls := calls w; events := events w;
     tracked := tracked w |}.

(** A new entity object. *)
Definition alloc (c : Content) w : eref * World Content :=
  (next_entity w,
   {| cache := cache w; promises := promises w;
      heap := fun x => if decide (x = next_entity w) then c else heap w x;
      next_entity := S (next_entity w); calls := calls w;
      events := events w; tracked := tracked w |}).

(** The document client is called. *)
Definition request (c : call) w : World Content :=
  {| cache := cache w; promises := promises w; heap := heap w;
     next_entity := next_entity w; calls := calls w ++ [c];
     events := events w; tracked := tracked w |}.

(** [this.eventEmitter.emit(...)] *)
Definition emit (ev : event) w : World Content :=
  {| cache := cache w; promises := promises w; heap := heap w;
     next_entity := next_entity w; calls := calls w;
     events := events w ++ [ev]; tracked := tracked w |}.

(** A new promise object in state [s]. *)
Definition new_promise (s : pstate) w : pref * World Content :=
  (length (promises w), set_promises (promises w ++ [s]) w).

(** A pending promise settles; a settled one never changes. *)
Definition settle (p : pref) (s : pstate) w : World Content :=
  match promises w !! p with
  | Some Pending => set_promises (<[p := s]> (promises w)) w
  | _ => w
  end.

(** [await p]: [None] while [p] is pending; awaiting [undefined] (no
    promise) gives [undefined] at once. *)
Definition await (p : option pref) w : option (error + opt_entity) :=
  match p with
  | None => Some (inr None)
  | Some p =>
      match promises w !! p with
      | Some (Fulfilled v) => Some (inr v)
      | Some (Rejected err) => Some (inl err)
      | _ => None
      end
  end.

Definition initial_world (h : eref -> Content) (n : eref) : World Content :=
  {| cache := ∅; promises := []; heap := h; next_entity := n;
     calls := []; events := []; tracked := [] |}.
End WorldOps.

(** ** [DynamoRepository] ([repository.class.ts]) *)

(** [ISearchInput]; the fields the repository only hands on to the store
    ([Limit], [FilterExpression], ...) are part of what [query] and [scan]
    below answer to. *)
Record ISearchInput : Type := {
  IndexName : option string;
  ExclusiveStartKey : option obj;
  KeyConditionExpression : option string;
}.

(** A page answered by [query] or [scan]. *)
Record DynamoResponse : Type := {
  Items : list obj;
  LastEvaluatedKey : option obj;
}.

(** The document client as a paginated search sees it: the answer to
    [query] and [scan] for an input at a start key, and the answer to a
    point read ([Item] or [undefined]). *)
Record DocumentClient : Type := {
  query : ISearchInput -> option obj -> error + DynamoResponse;
  scan : ISearchInput -> option obj -> error + DynamoResponse;
  getItem : obj -> error + option obj;
}.

(** The variables captured by the closure of [buildScanBlockGenerator]. *)
Record BlockGenerator : Type := {
  lastEvaluatedKey : option obj;
  blockSourceIsEmpty : bool;
}.

(** The variables captured by the closure of [search]. *)
Record Generator : Type := {
  getNextBlock_state : BlockGenerator;
  batch : list obj;
  sourceIsEmpty : bool;
}.

(** A key object handed to [getList]: its address and its properties. *)
Definition keyobj : Type := nat * obj.

Module DynamoRepository.
Section Methods.
Context {Content : Type}.
Variable this : Repository Content.

Definition isQueryInput (input : ISearchInput) : bool :=
  match KeyConditionExpression input with Some _ => true | None => false end.

(** [get(Key)] up to its [await]: the request is handed to the client and
    the caller holds a pending promise. *)
Definition get (Key : obj) (w : World Content) : pref * World Content :=
  new_promise Pending (request (dc_get (tableName (config this)) Key) w).

(** [get(Key)] from its [await] on: the client answers the request
    behind promise [p] with an error or with [{Item}]. *)
Definition get_settled (p : pref) (res : error + option obj)
    (w : World Content) : World Content :=
  match promises w !! p with
  | Some Pending =>
      match res with
      | inl err => settle p (Rejected err) w
      | inr None => settle p (Fulfilled None) w
      | inr (Some item) =>
          let '(e, w1) := alloc (unMarshal (config this) item) w in
          settle p (Fulfilled (Some e)) w1
      end
  | _ => w
  end.

(** [get(Key)] against a client whose answer is known, as [search] uses
    it for a partially projected index. *)
Definition get_now (dc : DocumentClient) (Key : obj)
  : error + option Content :=
  match getItem dc Key with
  | inl err => inl err
  | inr None => inr None
  | inr (Some item) => inr (Some (unMarshal (config this) item))
  end.

(** [getList(keys)] up to its [await]. *)
Definition getList_request (keys : list keyobj) : call :=
  dc_batchGet (tableName (config this)) (uniqueKeys (map snd keys)).

(** [getList(keys)] from its [await] on: the loop over the items of the
    response. The result [Map] is keyed by the requested key object,
    named by its address ([None] when [find] finds none). *)
Fixpoint getList_collect (keys : list keyobj) (items : list obj)
    (result : list (option nat * eref)) (w : World Content)
  : (error + list (option nat * eref)) * World Content :=
  match items with
  | [] => (inr result, w)
  | item :: items' =>
      let '(e, w1) := alloc (unMarshal (config this) item) w in
      match getEntityKey (keySchema (config this))
              (marshal (config this) (heap w1 e)) with
      | None => (inl TypeError, w1)
      | Some ek =>
          getList_collect keys items'
            (jm_set (fst <$> List.find (fun k => sameKey (snd k) ek) keys)
                    e result) w1
      end
  end.

(** [buildScanBlockGenerator(input)] *)
Definition buildScanBlockGenerator (input : ISearchInput) : BlockGenerator :=
  {| lastEvaluatedKey := ExclusiveStartKey input;
     blockSourceIsEmpty := false |}.

(** The function [buildScanBlockGenerator] returns; [inr None] is its
    [return;] once the source is empty. *)
Definition getNextBlock (dc : DocumentClient) (input : ISearchInput)
    (g : BlockGenerator)
  : error + (option DynamoResponse * BlockGenerator) :=
  if blockSourceIsEmpty g then inr (None, g)
  else
    match (if isQueryInput input then query dc else scan dc)
            input (lastEvaluatedKey g) with
    | inl err => inl err
    | inr response =>
        inr (Some response,
             {| lastEvaluatedKey := LastEvaluatedKey response;
                blockSourceIsEmpty :=
                  match LastEvaluatedKey response with
                  | None => true
                  | Some _ => blockSourceIsEmpty g
                  end |})
    end.

(** [search(input)]: the generator before its first call. *)
Definition search (input : ISearchInput) : Generator :=
  {| getNextBlock_state := buildScanBlockGenerator input;
     batch := [];
     sourceIsEmpty := false |}.

(** The [while] loop of the generator. [None]: the fuel ran out before
    the loop ended. *)
Fixpoint fetch_loop (fuel : nat) (dc : DocumentClient)
    (input : ISearchInput) (g : Generator)
  : option (option error * Generator) :=
  if (Nat.eqb (length (batch g)) 0 && negb (sourceIsEmpty g))%bool then
    match fuel with
    | O => None
    | S fuel' =>
        match getNextBlock dc input (getNextBlock_state g) with
        | inl err => Some (Some err, g)
        | inr (None, b) =>
            (* [dynamoResponse.Items] on [undefined] *)
            Some (Some TypeError,
                  {| getNextBlock_state := b; batch := batch g;
                     sourceIsEmpty := sourceIsEmpty g |})
        | inr (Some dynamoResponse, b) =>
            fetch_loop fuel' dc input
              {| getNextBlock_state := b;
                 batch := Items dynamoResponse;
                 sourceIsEmpty :=
                   match LastEvaluatedKey dynamoResponse with
                   | None => true
                   | Some _ => false
                   end |}
        end
    end
  else Some (None, g).

(** The condition that sends a popped item through a point read; the
    error is the [TypeError] of an index name the configuration does not
    know. *)
Definition needs_refetch (input : ISearchInput) : error + bool :=
  match secondaryIndexes (config this) with
  | None => inr false
  | Some indexes =>
      match IndexName input with
      | None => inr false
      | Some name =>
          if truthy_string name then
            match jm_get name indexes with
            | None => inl TypeError
            | Some ProjectionType => inr (negb (String.eqb ProjectionType "ALL"))
            end
          else inr false
      end
  end.

(** The key of the point read for a popped index projection:
    [{[this._hashKey]: indexed[this._hashKey],
      [this._rangeKey]: indexed[this._rangeKey]}]. *)
Definition index_key (indexed : obj) : obj :=
  obj_set (obj_set [] (hashKey this) (prop indexed (hashKey this)))
          (default "undefined" (rangeKey this))
          (key_at indexed (rangeKey this)).

(** One call of the generator. The result is an error, an entity, or
    [undefined] ([inr None]). *)
Definition next (fuel : nat) (dc : DocumentClient) (input : ISearchInput)
    (g : Generator)
  : option ((error + option Content) * Generator) :=
  match fetch_loop fuel dc input g with
  | None => None
  | Some (Some err, g1) => Some (inl err, g1)
  | Some (None, g1) =>
      match batch g1 with
      | [] => Some (inr None, g1)
      | indexed :: rest =>
          match needs_refetch input with
          | inl err => Some (inl err, g1)
          | inr true =>
              Some (get_now dc (index_key indexed),
                    {| getNextBlock_state := getNextBlock_state g1;
                       batch := rest;
                       sourceIsEmpty := sourceIsEmpty g1 |})
          | inr false =>
              Some (inr (Some (unMarshal (config this) indexed)),
                    {| getNextBlock_state := getNextBlock_state g1;
                       batch := rest;
                       sourceIsEmpty := sourceIsEmpty g1 |})
          end
      end
  end.

(** [n] successive calls of the generator, each awaited before the
    next: the results, and the generator after them. *)
Fixpoint pulls (n fuel : nat) (dc : DocumentClient) (input : ISearchInput)
    (g : Generator)
  : option (list (error + option Content) * Generator) :=
  match n with
  | O => Some ([], g)
  | S n' =>
      match next fuel dc input g with
      | None => None
      | Some (r, g1) =>
          match pulls n' fuel dc input g1 with
          | None => None
          | Some (rs, g2) => Some (r :: rs, g2)
          end
      end
  end.
End Methods.
End DynamoRepository.

(** ** [CachedDynamoRepository] ([repository.cached.class.ts]) *)

Module CachedDynamoRepository.
Section Methods.
Context {Content : Type}.
Variable this : Repository Content.

(** [key[this.hashKey]] and [key[this.rangeKey]] as the [Map]s see them. *)
Definition hash_of (key : obj) : token := token_of (prop key (hashKey this)).
Definition range_of (key : obj) : token := token_of (key_at key (rangeKey this)).

(** [this.cache.has(h)] *)
Definition cache_has (h : token) (w : World Content) : bool :=
  match cache w !! h with Some _ => true | None => false end.

(** [this.cache.get(h).has(r)] *)
Definition bucket_has (h r : token) (w : World Content) : bool :=
  match cache w !! h with
  | Some bucket => match bucket !! r with Some _ => true | None => false end
  | None => false
  end.

(** [this.cache.get(h).set(r, p)] *)
Definition bucket_set (h r : token) (p : pref) (w : World Content)
  : World Content :=
  set_cache (alter (fun bucket => <[r := p]> bucket) h (cache w)) w.

Definition keyIsCached (key : obj) (w : World Content) : bool :=
  cache_has (hash_of key) w && bucket_has (hash_of key) (range_of key) w.

Definition getFromCache (key : obj) (w : World Content) : option pref :=
  if negb (cache_has (hash_of key) w) then None
  else cache w !! hash_of key ≫= fun bucket => bucket !! range_of key.

(** [get(key)]: not an [async] function; it returns the promise held by
    the cache. *)
Definition get (key : obj) (w : World Content) : option pref * World Content :=
  let w1 :=
    if negb (cache_has (hash_of key) w)
    then set_cache (<[hash_of key := ∅]> (cache w)) w else w in
  let w2 :=
    if negb (bucket_has (hash_of key) (range_of key) w1)
    then let '(p, w') := DynamoRepository.get this key w1 in
         bucket_set (hash_of key) (range_of key) p w'
    else w1 in
  (cache w2 !! hash_of key ≫= fun bucket => bucket !! range_of key, w2).

(** [addToCacheByKey(key, entity)], run in one piece once the awaited
    promise has settled. Outer [None]: the promise is still pending;
    [Some err]: the function throws. *)
Definition addToCacheByKey (key : obj) (entity : opt_entity) (w : World Content)
  : option (option error * World Content) :=
  match await (getFromCache key w) w with
  | None => None
  | Some (inl err) => Some (Some err, w)
  | Some (inr currentCached) =>
      match currentCached with
      | Some _ =>
          Some (None,
                if negb (bool_decide (currentCached = entity))
                then emit (cacheKeyInUse (getFromCache key w) entity) w
                else w)
      | None =>
          let w1 :=
            if negb (cache_has (hash_of key) w)
            then set_cache (<[hash_of key := ∅]> (cache w)) w else w in
          let '(p, w2) := new_promise (Fulfilled entity) w1 in
          Some (None, bucket_set (hash_of key) (range_of key) p w2)
      end
  end.

(** [getEntityKey(e)] *)
Definition getEntityKey (e : eref) (w : World Content) : option obj :=
  getEntityKey (keySchema (config this)) (marshal (config this) (heap w e)).

(** [addToCache(e)] for an entity object [e]. *)
Definition addToCache (e : eref) (w : World Content)
  : option (option error * World Content) :=
  match getEntityKey e w with
  | None => Some (Some TypeError, w)
  | Some key => addToCacheByKey key (Some e) w
  end.

Definition clear (w : World Content) : World Content := set_cache ∅ w.

(** The generator of [search(input)] from [await getNextEntity()] on;
    [pulled] is what the generator of the parent class resolved to. *)
Definition search_next (pulled : opt_entity) (w : World Content)
  : option ((error + opt_entity) * World Content) :=
  match pulled with
  | None => Some (inr None, w)
  | Some e =>
      match getEntityKey e w with
      | None => Some (inl TypeError, w)
      | Some key =>
          match addToCacheByKey key (Some e) w with
          | None => None
          | Some (Some err, w1) => Some (inl err, w1)
          | Some (None, w1) =>
              match await (getFromCache key w1) w1 with
              | None => None
              | Some r => Some (r, w1)
              end
          end
      end
  end.

(** [getList(keys)]: the keys that go to the store. *)
Definition getList_notCached (keys : list keyobj) (w : World Content)
  : list keyobj :=
  filter (fun key => keyIsCached (snd key) w = false) keys.

(** [getList(keys)]: the loop that installs the response of the parent
    class; [result] is the [Map] under construction, keyed by the address
    of the key object. *)
Fixpoint getList_install (notCachedKeys : list keyobj)
    (response : list (option nat * eref)) (result : list (nat * opt_entity))
    (w : World Content)
  : option ((error + list (nat * opt_entity)) * World Content) :=
  match notCachedKeys with
  | [] => Some (inr result, w)
  | key :: rest =>
      let entity := jm_get (Some (fst key)) response in
      match addToCacheByKey (snd key) entity w with
      | None => None
      | Some (Some err, w1) => Some (inl err, w1)
      | Some (None, w1) =>
          match await (getFromCache (snd key) w1) w1 with
          | None => None
          | Some (inl err) => Some (inl err, w1)
          | Some (inr v) =>
              getList_install rest response (jm_set (fst key) v result) w1
          end
      end
  end.

(** [getList(keys)]: the final loop that reads every key back. *)
Fixpoint getList_read (keys : list keyobj) (result : list (nat * opt_entity))
    (w : World Content) : option (error + list (nat * opt_entity)) :=
  match keys with
  | [] => Some (inr result)
  | key :: rest =>
      match await (getFromCache (snd key) w) w with
      | None => None
      | Some (inl err) => Some (inl err)
      | Some (inr v) => getList_read rest (jm_set (fst key) v result) w
      end
  end.

(** [getList(keys)] from its [await] on, with the response of the parent
    class for the keys that were not cached. *)
Definition getList_resumed (keys notCachedKeys : list keyobj)
    (response : list (option nat * eref)) (w : World Content)
  : option ((error + list (nat * opt_entity)) * World Content) :=
  match getList_install notCachedKeys response [] w with
  | None => None
  | Some (inl err, w1) => Some (inl err, w1)
  | Some (inr result, w1) =>
      match getList_read keys result w1 with
      | None => None
      | Some r => Some (r, w1)
      end
  end.
End Methods.
End CachedDynamoRepository.

(** ** [ManagedDynamoRepository] ([repository.managed.class.ts]) *)

(** The promise an operation of [flush] returned, as far as [flush] can
    tell its state. *)
Inductive OpStatus : Type :=
| OpPending
| OpFulfilled
| OpRejected (err : error).

(** One element of [processed]: the operation dispatched for a tracked
    entity, and the request it handed to the document client, if any. *)
Record FlushOp : Type := {
  op_action : Action;
  op_entity : eref;
  op_request : option call;
  op_status : OpStatus;
}.

Inductive FlushOutcome : Type :=
| FlushReturned
| FlushThrew (err : error).

(** A call of [flush] in progress; [outcome] is [None] while it awaits
    [Promise.all(processed)]. *)
Record Flush : Type := {
  processed : list FlushOp;
  outcome : option FlushOutcome;
}.

Definition with_status (op : FlushOp) (s : OpStatus) : FlushOp :=
  {| op_action := op_action op; op_entity := op_entity op;
     op_request := op_request op; op_status := s |}.

(** The first rejected promise of the list, all of them fulfilled. *)
Definition first_rejected (ops : list FlushOp) : option error :=
  List.find (fun op => match op_status op with OpRejected _ => true | _ => false end) ops
    ≫= fun op => match op_status op with OpRejected err => Some err | _ => None end.

Definition all_fulfilled (ops : list FlushOp) : bool :=
  forallb (fun op => match op_status op with OpFulfilled => true | _ => false end) ops.

Definition is_pending (op : FlushOp) : bool :=
  match op_status op with OpPending => true | _ => false end.

Module ManagedDynamoRepository.
Section Methods.
Context {Content : Type} `{Serializable Content}.
Variable this : Repository Content.

Definition track (entity : opt_entity) (w : World Content) : World Content :=
  match entity with
  | None => w
  | Some e =>
      if jm_has e (tracked w) then w
      else set_tracked
             (jm_set e {| action := UPDATE;
                          initialStatus := Some (JSON_stringify (heap w e));
                          tentity := e |} (tracked w)) w
  end.

(** [trackNew(entity)] for an entity object, run in one piece (see
    [addToCacheByKey]). *)
Definition trackNew (e : eref) (w : World Content)
  : option (option error * World Content) :=
  match CachedDynamoRepository.addToCache this e w with
  | None => None
  | Some (Some err, w1) => Some (Some err, w1)
  | Some (None, w1) =>
      Some (None,
            if jm_has e (tracked w1) then w1
            else set_tracked
                   (jm_set e {| action := CREATE; initialStatus := None;
                                tentity := e |} (tracked w1)) w1)
  end.

Definition delete (entity : opt_entity) (w : World Content) : World Content :=
  match entity with
  | None => w
  | Some e =>
      if jm_has e (tracked w)
         && match action <$> jm_get e (tracked w) with
            | Some CREATE => true
            | _ => false
            end
      then set_tracked (jm_delete e (tracked w)) w
      else set_tracked
             (jm_set e {| action := DELETE; initialStatus := None;
                          tentity := e |} (tracked w)) w
  end.

Definition clearTrackedEntities (w : World Content) : World Content :=
  set_tracked [] w.

(** [get(key)] up to its [await]: the promise of the cache it waits
    for. *)
Definition get (key : obj) (w : World Content) : option pref * World Content :=
  CachedDynamoRepository.get this key w.

(** [get(key)] from its [await] on. *)
Definition get_resumed (p : option pref) (w : World Content)
  : option ((error + opt_entity) * World Content) :=
  match await p w with
  | None => None
  | Some (inl err) => Some (inl err, w)
  | Some (inr entity) => Some (inr entity, track entity w)
  end.

(** [getList(keys)] from its [await] on: the loop over [list.values()]. *)
Definition getList_resumed (list : list (nat * opt_entity)) (w : World Content)
  : World Content :=
  fold_left (fun w entity => track entity w) (jm_values list) w.

(** The generator of [search(input)] from [await generator()] on. *)
Definition search_next (entity : opt_entity) (w : World Content)
  : opt_entity * World Content :=
  (entity, track entity w).

(** [entityHasChanged(entity)]; [None] is the [TypeError] of reading
    [.initialStatus] off [undefined]. A missing [initialStatus] differs
    from every string. *)
Definition entityHasChanged (e : eref) (w : World Content) : option bool :=
  match jm_get e (tracked w) with
  | None => None
  | Some t =>
      Some (negb (bool_decide (Some (JSON_stringify (heap w e)) = initialStatus t)))
  end.

(** [createItem(entity)] up to its [await]. *)
Definition createItem (e : eref) (w : World Content) : FlushOp * World Content :=
  let request_ := dc_put (tableName (config this)) (marshal (config this) (heap w e)) in
  ({| op_action := CREATE; op_entity := e; op_request := Some request_;
      op_status := OpPending |},
   request request_ w).

(** [createItem(entity)] once [asyncPut] has settled: [Some err] runs the
    [catch]. *)
Definition createItem_settled (res : option error) (op : FlushOp)
    (w : World Content) : FlushOp * World Content :=
  match res with
  | Some err =>
      (with_status op (OpRejected err), emit (errorCreating err (op_entity op)) w)
  | None => (with_status op OpFulfilled, w)
  end.

(** [updateItem(entity)] up to its [await], or to its end when the
    entity has not changed. *)
Definition updateItem (e : eref) (w : World Content) : FlushOp * World Content :=
  match entityHasChanged e w with
  | None =>
      ({| op_action := UPDATE; op_entity := e; op_request := None;
          op_status := OpRejected TypeError |}, w)
  | Some false =>
      ({| op_action := UPDATE; op_entity := e; op_request := None;
          op_status := OpFulfilled |}, w)
  | Some true =>
      let request_ := dc_put (tableName (config this)) (marshal (config this) (heap w e)) in
      ({| op_action := UPDATE; op_entity := e; op_request := Some request_;
          op_status := OpPending |},
       request request_ w)
  end.

Definition updateItem_settled (res : option error) (op : FlushOp)
    (w : World Content) : FlushOp * World Content :=
  match res with
  | Some err =>
      (with_status op (OpRejected err), emit (errorUpdating err (op_entity op)) w)
  | None => (with_status op OpFulfilled, w)
  end.

(** [deleteItem(item)]: the [try] block returns the promise of
    [asyncDelete] without awaiting it, so the [catch] only sees what is
    thrown while the request is built. *)
Definition deleteItem (e : eref) (w : World Content) : FlushOp * World Content :=
  match getEntityKey (keySchema (config this)) (marshal (config this) (heap w e)) with
  | None =>
      ({| op_action := DELETE; op_entity := e; op_request := None;
          op_status := OpRejected TypeError |},
       emit (errorDeleting TypeError e) w)
  | Some Key =>
      let request_ := dc_delete (tableName (config this)) Key in
      ({| op_action := DELETE; op_entity := e; op_request := Some request_;
          op_status := OpPending |},
       request request_ w)
  end.

(** The promise [deleteItem] returned follows the promise of
    [asyncDelete]; no code of [deleteItem] runs when it settles. *)
Definition deleteItem_settled (res : option error) (op : FlushOp)
    (w : World Content) : FlushOp * World Content :=
  match res with
  | Some err => (with_status op (OpRejected err), w)
  | None => (with_status op OpFulfilled, w)
  end.

(** The [switch] of [flush]. *)
Definition dispatch_one (entityConfig : TrackedEntry) (w : World Content)
  : FlushOp * World Content :=
  match action entityConfig with
  | UPDATE => updateItem (tentity entityConfig) w
  | DELETE => deleteItem (tentity entityConfig) w
  | CREATE => createItem (tentity entityConfig) w
  end.

(** The [for] loop of [flush] over [this.tracked.values()]. *)
Fixpoint dispatch (entries : list TrackedEntry) (processed : list FlushOp)
    (w : World Content) : list FlushOp * World Content :=
  match entries with
  | [] => (processed, w)
  | entityConfig :: rest =>
      let '(op, w1) := dispatch_one entityConfig w in
      dispatch rest (processed ++ [op]) w1
  end.

(** [await Promise.all(processed)] and what follows it: nothing while
    every promise is fulfilled or pending and one is pending; the [catch]
    as soon as one is rejected; the last line once all are fulfilled. *)
Definition flush_await (fw : Flush * World Content) : Flush * World Content :=
  let '(f, w) := fw in
  match outcome f with
  | Some _ => fw
  | None =>
      match first_rejected (processed f) with
      | Some err =>
          ({| processed := processed f; outcome := Some (FlushThrew err) |},
           emit errorFlushing w)
      | None =>
          if all_fulfilled (processed f)
          then ({| processed := processed f; outcome := Some FlushReturned |},
                emit flushed w)
          else fw
      end
  end.

(** [flush()] up to the point where it waits for the store. *)
Definition flush (w : World Content) : Flush * World Content :=
  let '(ops, w1) := dispatch (jm_values (tracked w)) [] w in
  flush_await ({| processed := ops; outcome := None |}, w1).

(** The store answers the request of operation [i] ([Some err]: with an
    error); the operation runs on, then [flush] if that wakes it. *)
Definition reply (i : nat) (res : option error) (fw : Flush * World Content)
  : Flush * World Content :=
  let '(f, w) := fw in
  match processed f !! i with
  | Some op =>
      if is_pending op then
        let '(op', w1) :=
          match op_action op with
          | CREATE => createItem_settled res op w
          | UPDATE => updateItem_settled res op w
          | DELETE => deleteItem_settled res op w
          end in
        flush_await ({| processed := <[i := op']> (processed f);
                        outcome := outcome f |}, w1)
      else fw
  | None => fw
  end.

(** The store answers in the order of [replies]. *)
Definition run (replies : list (nat * option error)) (fw : Flush * World Content)
  : Flush * World Content :=
  fold_left (fun fw r => reply (fst r) (snd r) fw) replies fw.
End Methods.
End ManagedDynamoRepository.

(** ** Fixtures: the table of the test suites *)

Module Fixture.
(** A serializer of value trees, standing in for [JSON.stringify]: objects
    print their properties in insertion order. *)
Fixpoint json (v : jsval) : string :=
  match v with
  | VUndef => "null"
  | VStr s => "'" ++ s ++ "'"
  | VNum n => pretty n
  | VBool true => "true"
  | VBool false => "false"
  | VObj _ ps =>
      "{" ++
      (fix props (ps : list (string * jsval)) : string :=
         match ps with
         | [] => "}"
         | (k, v) :: ps' => k ++ ":" ++ json v ++ ";" ++ props ps'
         end) ps
  end%string.

#[global] Instance obj_Serializable : Serializable obj := fun o => json (VObj 0 o).

Definition idSchema : KeySchema := [{| AttributeName := "id"; KeyType := "HASH" |}].

Definition cfg : ITableConfig obj :=
  {| tableName := "tableName"; keySchema := idSchema;
     secondaryIndexes := None;
     marshal := fun e => e; unMarshal := fun item => item |}.

Definition repository : Repository obj :=
  {| config := cfg; hashKey := "id"; rangeKey := None |}.

Definition item (id : string) (updated : bool) : obj :=
  [("id", VStr id); ("updated", VBool updated)].

Definition entityKey : obj := [("id", VStr "entityId")].

(** A world whose entity objects [0], [1], [2] hold three items. *)
Definition world0 : World obj :=
  initial_world
    (fun e => match e with
              | 0 => item "entityId" false
              | 1 => item "secondEntityId" false
              | _ => item "thirdEntityId" false
              end) 3.

(** A store that answers a scan with the three items in two pages, and
    knows no item by key. *)
Definition scanInput : ISearchInput :=
  {| IndexName := None; ExclusiveStartKey := None;
     KeyConditionExpression := None |}.

Definition pagedClient : DocumentClient :=
  {| query := fun _ _ => inl (StoreError "query");
     scan := fun _ start =>
       match start with
       | None =>
           inr {| Items := [item "entityId" false; item "secondEntityId" false];
                  LastEvaluatedKey := Some [("id", VStr "secondEntityId")] |}
       | Some _ =>
           inr {| Items := [item "thirdEntityId" false];
                  LastEvaluatedKey := None |}
       end;
     getItem := fun _ => inr None |}.

(** The same table read through a keys-only index. *)
Definition indexedRepository : Repository obj :=
  {| config :=
       {| tableName := "tableName"; keySchema := idSchema;
          secondaryIndexes := Some [("byUpdated", "KEYS_ONLY")];
          marshal := fun e => e; unMarshal := fun item => item |};
     hashKey := "id"; rangeKey := None |}.

Definition indexInput : ISearchInput :=
  {| IndexName := Some "byUpdated"; ExclusiveStartKey := None;
     KeyConditionExpression := None |}.

(** A store whose index still lists two items that the table no longer
    has. *)
Definition staleIndexClient : DocumentClient :=
  {| query := fun _ _ => inl (StoreError "query");
     scan := fun _ _ =>
       inr {| Items := [entityKey; [("id", VStr "secondEntityId")]];
              LastEvaluatedKey := None |};
     getItem := fun _ => inr None |}.

(** The world after [get({id: "entityId"})] found the item: promise [0]
    holds the new entity object [3]. *)
Definition worldHit : World obj :=
  DynamoRepository.get_settled repository 0 (inr (Some (item "entityId" false)))
    (snd (CachedDynamoRepository.get repository entityKey world0)).

(** The world after [get({id: "entityId"})] found nothing: promise [0]
    holds [undefined]. *)
Definition worldMiss : World obj :=
  DynamoRepository.get_settled repository 0 (inr None)
    (snd (CachedDynamoRepository.get repository entityKey world0)).

(** The world an operation that ran in one piece leaves. *)
Definition world_of (r : option (option error * World obj)) : World obj :=
  match r with Some (_, w) => w | None => world0 end.

(** [trackNew] of the entity objects [0] and [1]. *)
Definition worldNew : World obj :=
  world_of (ManagedDynamoRepository.trackNew repository 0 world0).

Definition worldTwoNew : World obj :=
  world_of (ManagedDynamoRepository.trackNew repository 1 worldNew).

(** The entity object [0] was read, then passed to [delete]. *)
Definition worldDeleted : World obj :=
  ManagedDynamoRepository.delete (Some 0)
    (ManagedDynamoRepository.track (Some 0) world0).
End Fixture.

(** ** Notions used to state the properties *)

(** The loop of [uniqueKeys] from an accumulator on. *)
Definition uniqueKeys_from (output arrArg : list obj) : list obj :=
  fold_left
    (fun output key =>
       if existsb (fun k2 => sameKey key k2) output
       then output else output ++ [key])
    arrArg output.

(** No key of the list is [sameKey] to one before it. *)
Definition fresh_keys (l : list obj) : Prop :=
  forall pre key post,
    l = pre ++ key :: post -> existsb (fun k2 => sameKey key k2) pre = false.

(** The page the store answers for [input] at a start key. *)
Definition page (dc : DocumentClient) (input : ISearchInput)
    (start : option obj) : error + DynamoResponse :=
  (if DynamoRepository.isQueryInput input then query dc else scan dc) input start.

(** [region dc input start items]: from [start] on, the store answers
    [input] with finitely many pages, whose items are [items] in page
    order. *)
Inductive region (dc : DocumentClient) (input : ISearchInput)
  : option obj -> list obj -> Prop :=
| region_last start items :
    page dc input start = inr {| Items := items; LastEvaluatedKey := None |} ->
    region dc input start items
| region_more start items cursor rest :
    page dc input start
      = inr {| Items := items; LastEvaluatedKey := Some cursor |} ->
    region dc input (Some cursor) rest ->
    region dc input start (items ++ rest).

(** [holds dc input g rest]: the generator [g] has [rest] left to yield,
    its current page first. *)
Inductive holds (dc : DocumentClient) (input : ISearchInput)
  : Generator -> list obj -> Prop :=
| holds_done g :
    sourceIsEmpty g = true -> holds dc input g (batch g)
| holds_more g more :
    sourceIsEmpty g = false ->
    blockSourceIsEmpty (getNextBlock_state g) = false ->
    region dc input (lastEvaluatedKey (getNextBlock_state g)) more ->
    holds dc input g (batch g ++ more).

(** What a call of the generator resolves to when it pops [indexed] and
    the re-fetch condition is [refetch]. *)
Definition yield {Content : Type} (this : Repository Content)
    (dc : DocumentClient) (refetch : bool) (indexed : obj)
  : error + option Content :=
  if refetch
  then DynamoRepository.get_now this dc (DynamoRepository.index_key this indexed)
  else inr (Some (unMarshal (config this) indexed)).

(** What happens to a cached repository between two moments: a call of
    [get], an answer of the store to the point read behind a promise, or a
    call of [addToCacheByKey] (which does nothing here while the promise
    it awaits is pending). *)
Inductive cache_step : Type :=
| step_get (key : obj)
| step_answer (p : pref) (res : error + option obj)
| step_add (key : obj) (v : opt_entity).

Definition cache_do {Content : Type} (this : Repository Content)
    (s : cache_step) (w : World Content) : World Content :=
  match s with
  | step_get key => snd (CachedDynamoRepository.get this key w)
  | step_answer p res => DynamoRepository.get_settled this p res w
  | step_add key v =>
      match CachedDynamoRepository.addToCacheByKey this key v w with
      | Some (_, w1) => w1
      | None => w
      end
  end.

Definition cache_run {Content : Type} (this : Repository Content)
    (steps : list cache_step) (w : World Content) : World Content :=
  fold_left (fun w s => cache_do this s w) steps w.

(** The steps of a history made of calls of [get] and store answers
    only. *)
Inductive read_step : Type :=
| read_get (key : obj)
| read_answer (p : pref) (res : error + option obj).

Definition of_read (s : read_step) : cache_step :=
  match s with
  | read_get key => step_get key
  | read_answer p res => step_answer p res
  end.

(** The point reads in a log of store calls that are for the cache slot
    of [key]. *)
Definition is_read_of {Content : Type} (this : Repository Content)
    (key : obj) (c : call) : bool :=
  match c with
  | dc_get _ k =>
      bool_decide (CachedDynamoRepository.hash_of this k
                     = CachedDynamoRepository.hash_of this key
                   /\ CachedDynamoRepository.range_of this k
                     = CachedDynamoRepository.range_of this key)
  | _ => false
  end.

Definition reads_of {Content : Type} (this : Repository Content)
    (key : obj) (cs : list call) : nat :=
  length (List.filter (is_read_of this key) cs).

(** The two-level lookup of the cache, and the two-level insertion. *)
Definition lookup2 (c : gmap token (gmap token pref)) (h r : token)
  : option pref :=
  c !! h ≫= fun bucket => bucket !! r.

Definition install (c : gmap token (gmap token pref)) (h r : token) (p : pref)
  : gmap token (gmap token pref) :=
  alter (fun bucket => <[r := p]> bucket) h
        (match c !! h with Some _ => c | None => <[h := ∅]> c end).

(** A promise state that [addToCacheByKey] never replaces in the cache:
    fulfilled with an entity, or rejected. *)
Definition sticky (st : pstate) : Prop :=
  match st with
  | Fulfilled (Some _) | Rejected _ => True
  | _ => False
  end.

(** The world after [addToCacheByKey] met the cached entity [c], held by
    promise [p], when [v] was offered. *)
Definition after_collision {Content : Type} (p : pref) (c : eref)
    (v : opt_entity) (w : World Content) : World Content :=
  if bool_decide (Some c = v) then w
  else emit (cacheKeyInUse (Some p) v) w.

(** A tracked table as a [Map] keeps it: one entry per entity, each
    entry naming the entity it is filed under. *)
Definition wf_tracked (t : list (eref * TrackedEntry)) : Prop :=
  List.NoDup (map fst t) /\ Forall (fun kt => tentity (snd kt) = fst kt) t.

(** The operations of a flush that are for entity [e]. *)
Definition ops_for (e : eref) (ops : list FlushOp) : list FlushOp :=
  List.filter (fun op => bool_decide (op_entity op = e)) ops.

(** The requests the operations handed to the store. *)
Definition requests (ops : list FlushOp) : list call := omap op_request ops.

(** While [flush] waits, no operation has been rejected and one is still
    pending. *)
Definition waiting (f : Flush) : Prop :=
  outcome f = None ->
  first_rejected (processed f) = None /\ all_fulfilled (processed f) = false.

(** What the [catch] of an operation emits when the store fails it. *)
Definition failure_events (op : FlushOp) (err : error) : list event :=
  match op_action op with
  | CREATE => [errorCreating err (op_entity op)]
  | UPDATE => [errorUpdating err (op_entity op)]
  | DELETE => []
  end.

Definition emit_all {Content : Type} (evs : list event) (w : World Content)
  : World Content :=
  fold_left (fun w ev => emit ev w) evs w.

(** The requested key object the loop of [getList] files an item under:
    [keys.find((k) => sameKey(k, getEntityKey(keySchema, marshal(entity))))]
    for the entity unmarshalled from the item, named by its address;
    [Some None] when [find] finds none, [None] when deriving the key
    throws. *)
Definition filed_under {Content : Type} (this : Repository Content)
    (keys : list keyobj) (item : obj) : option (option nat) :=
  match getEntityKey (keySchema (config this))
          (marshal (config this) (unMarshal (config this) item)) with
  | Some ek => Some (fst <$> List.find (fun k => sameKey (snd k) ek) keys)
  | None => None
  end.

(** ** [generatorToArray] ([generator-to-array.ts]) *)

(** [toArray()] on a generator: [call] is one awaited call of the
    generator ([this()]) from a generator state; an entity object is
    truthy, [undefined] ends the loop. [n] bounds the turns of the
    [while] loop; [None]: a bound ran out. *)
Fixpoint generatorToArray {G E : Type}
    (call : G -> option ((error + option E) * G))
    (n : nat) (g : G) (array : list E)
  : option ((error + list E) * G) :=
  match n with
  | O => None
  | S n' =>
      match call g with
      | None => None
      | Some (inl err, g1) => Some (inl err, g1)
      | Some (inr None, g1) => Some (inr array, g1)
      | Some (inr (Some entity), g1) =>
          generatorToArray call n' g1 (array ++ [entity])
      end
  end.

(** ** [DynamoRepository.count] ([repository.class.ts]) *)

(** [ICountInput], as far as the repository looks at it. *)
Record ICountInput : Type := {
  countIndexName : option string;
  countExclusiveStartKey : option obj;
  countKeyConditionExpression : option string;
}.

(** What a query or scan with [Select: "COUNT"] answers. *)
Record CountOutput : Type := {
  Count : Z;
  countLastEvaluatedKey : option obj;
}.

(** The document client as [count] sees it: the answer to the counting
    request for an input at a start key. *)
Record CountClient : Type := {
  countQuery : ICountInput -> option obj -> error + CountOutput;
  countScan : ICountInput -> option obj -> error + CountOutput;
}.

Module Count.
(** [asyncRequest(documentClientInput)] with the given
    [ExclusiveStartKey]. *)
Definition asyncRequest (dc : CountClient) (input : ICountInput)
    (start : option obj) : error + CountOutput :=
  match countKeyConditionExpression input with
  | Some _ => countQuery dc input start
  | None => countScan dc input start
  end.

(** The [do ... while] loop of [count]; [None]: the fuel ran out. *)
Fixpoint count_loop (fuel : nat) (dc : CountClient) (input : ICountInput)
    (start : option obj) (total : Z) : option (error + Z) :=
  match fuel with
  | O => None
  | S fuel' =>
      match asyncRequest dc input start with
      | inl err => Some (inl err)
      | inr response =>
          match countLastEvaluatedKey response with
          | Some key =>
              count_loop fuel' dc input (Some key) (total + Count response)%Z
          | None => Some (inr (total + Count response)%Z)
          end
      end
  end.

Definition count (fuel : nat) (dc : CountClient) (input : ICountInput)
  : option (error + Z) :=
  count_loop fuel dc input (countExclusiveStartKey input) 0%Z.
End Count.

(** ** [FakeDocumentClient] ([fake-document-client.class.ts]) *)

(** What a call of the fake client comes to: the callback is called with a
    result, the callback is called with an error, or the method throws
    before it calls the callback. *)
Inductive Reply (A : Type) : Type :=
| Answered (a : A)
| Errored (err : error)
| Threw (err : error).
Arguments Answered {A} _.
Arguments Errored {A} _.
Arguments Threw {A} _.

Record FakeSchema : Type := {
  fakeHashKey : string;
  fakeRangeKey : option string;
}.

(** The fields of the fake client: the own properties of [collections],
    of its table objects and of their buckets, and the own properties of
    [keySchemas]. A stored value is the JSON text of the item, or
    [undefined] ([None]) once it was deleted. *)
Record FakeState : Type := {
  collections : gmap string (gmap string (gmap string (option string)));
  keySchemas : gmap string FakeSchema;
  shouldFail : bool;
  fakeError : option error;
}.

(** A value used as the name of a property. *)
Definition to_property_key (v : jsval) : string :=
  match v with
  | VUndef => "undefined"
  | VStr s => s
  | VNum n => pretty n
  | VBool true => "true"
  | VBool false => "false"
  | VObj _ _ => "[object Object]"
  end.

(** The names every plain object inherits from [Object.prototype].
    [collections], its tables, their buckets, [keySchemas] and the keys
    and items handed to the client are plain objects: read under one of
    these names they give the inherited member and not an own property,
    and an assignment to ["__proto__"] files nothing. What the client does
    then depends on that member; the model holds own properties only, and
    a call that uses one of these names as a property name is outside it
    ([None] below). *)
Definition prototype_names : list string :=
  ["constructor"; "__proto__"; "__defineGetter__"; "__defineSetter__";
   "__lookupGetter__"; "__lookupSetter__"; "hasOwnProperty"; "isPrototypeOf";
   "propertyIsEnumerable"; "toLocaleString"; "toString"; "valueOf"].

Definition inherited (name : string) : bool :=
  existsb (String.eqb name) prototype_names.

(** The own property [c[tableName][hashKey][rangeKey]]: [undefined] for a
    missing property as for a deleted item. *)
Definition own_item (c : gmap string (gmap string (gmap string (option string))))
    (tableName hashKey rangeKey : string) : option string :=
  c !! tableName ≫= fun t => t !! hashKey ≫= fun b => mjoin (b !! rangeKey).

Module FakeDocumentClient.
Section Methods.
(** [JSON.stringify] and [JSON.parse] on items. *)
Variable JSON_stringify_item : obj -> string.
Variable JSON_parse_item : string -> obj.

(** The loop of the constructor over [Object.keys(keySchemas)]; a later
    table of the same name replaces an earlier one. Outer [None]: a table
    name is outside the model; inner [None]: the [TypeError] of a schema
    without a HASH element. *)
Fixpoint new_schemas (keySchemas : list (string * KeySchema))
    (schemas : gmap string FakeSchema) : option (option (gmap string FakeSchema)) :=
  match keySchemas with
  | [] => Some (Some schemas)
  | (tableName, ks) :: rest =>
      if inherited tableName then None
      else
        match List.find (is_type hash) ks with
        | None => Some None
        | Some hs =>
            new_schemas rest
              (<[tableName :=
                   {| fakeHashKey := AttributeName hs;
                      fakeRangeKey := AttributeName <$> List.find (is_type range) ks |}]>
                 schemas)
        end
  end.

Definition new (keySchemas : list (string * KeySchema))
  : option (option FakeState) :=
  match new_schemas keySchemas ∅ with
  | None => None
  | Some None => Some None
  | Some (Some m) =>
      Some (Some {| collections := ∅; keySchemas := m; shouldFail := false;
                    fakeError := None |})
  end.

Definition set_collections
    (c : gmap string (gmap string (gmap string (option string))))
    (st : FakeState) : FakeState :=
  {| collections := c; keySchemas := keySchemas st;
     shouldFail := shouldFail st; fakeError := fakeError st |}.

Definition failOnCall (err : option error) (st : FakeState) : FakeState :=
  {| collections := collections st; keySchemas := keySchemas st;
     shouldFail := true; fakeError := err |}.

(** The error [guardShouldFail] hands to the callback and throws, if the
    client was told to fail. *)
Definition guardShouldFail (st : FakeState) : option error :=
  if shouldFail st
  then Some (default (StoreError "Repository error") (fakeError st))
  else None.

(** [this.keySchemas[tableName]]; [Some None] is [undefined]. *)
Definition schema_of (tableName : string) (st : FakeState)
  : option (option FakeSchema) :=
  if inherited tableName then None else Some (keySchemas st !! tableName).

(** [key[schema.hashKey]] and [key[schema.rangeKey]] as they are used to
    name properties of a table and of a bucket. *)
Definition slot_of (schema : FakeSchema) (key : obj) : option (string * string) :=
  let hashKey := to_property_key (prop key (fakeHashKey schema)) in
  let rangeKey := to_property_key (key_at key (fakeRangeKey schema)) in
  if inherited (fakeHashKey schema)
     || inherited (default "undefined" (fakeRangeKey schema))
     || inherited hashKey || inherited rangeKey
  then None else Some (hashKey, rangeKey).

Definition ensureHashKey (tableName hashKey : string) (st : FakeState)
  : option FakeState :=
  if inherited tableName || inherited hashKey then None
  else
    let c1 := match collections st !! tableName with
              | None => <[tableName := ∅]> (collections st)
              | Some _ => collections st
              end in
    let c2 := match c1 !! tableName ≫= fun t => t !! hashKey with
              | None => alter (fun t => <[hashKey := ∅]> t) tableName c1
              | Some _ => c1
              end in
    Some (set_collections c2 st).

(** [this.collections[tableName][hashKey][rangeKey]], read once
    [ensureHashKey] has made sure of the table and of the bucket. *)
Definition stored (tableName hashKey rangeKey : string) (st : FakeState)
  : option (option string) :=
  if inherited tableName || inherited hashKey || inherited rangeKey then None
  else Some (own_item (collections st) tableName hashKey rangeKey).

Definition get (TableName : string) (Key : obj) (st : FakeState)
  : option (Reply (option obj) * FakeState) :=
  match guardShouldFail st with
  | Some err => Some (Errored err, st)
  | None =>
      schema_of TableName st ≫= fun schema =>
      match schema with
      | None => Some (Threw TypeError, st)
      | Some schema =>
          slot_of schema Key ≫= fun slot =>
          let hashKey := fst slot in
          let rangeKey := snd slot in
          ensureHashKey TableName hashKey st ≫= fun st1 =>
          stored TableName hashKey rangeKey st1 ≫= fun marshaled =>
          Some (Answered
                  (match marshaled with
                   | Some marshaled =>
                       if truthy_string marshaled
                       then Some (JSON_parse_item marshaled) else None
                   | None => None
                   end), st1)
      end
  end.

Definition put (TableName : string) (Item : obj) (st : FakeState)
  : option (Reply unit * FakeState) :=
  match guardShouldFail st with
  | Some err => Some (Errored err, st)
  | None =>
      schema_of TableName st ≫= fun schema =>
      match schema with
      | None => Some (Threw TypeError, st)
      | Some schema =>
          slot_of schema Item ≫= fun slot =>
          let hashKey := fst slot in
          let rangeKey := snd slot in
          ensureHashKey TableName hashKey st ≫= fun st1 =>
          Some (Answered tt,
                set_collections
                  (alter (fun t =>
                            alter (fun b =>
                                     <[rangeKey := Some (JSON_stringify_item Item)]> b)
                                  hashKey t)
                         TableName (collections st1)) st1)
      end
  end.

(** [delete] neither looks at [shouldFail] nor creates the bucket: a table
    or hash key never written to makes the assignment throw. *)
Definition delete (TableName : string) (Key : obj) (st : FakeState)
  : option (Reply unit * FakeState) :=
  schema_of TableName st ≫= fun schema =>
  match schema with
  | None => Some (Threw TypeError, st)
  | Some schema =>
      slot_of schema Key ≫= fun slot =>
      let hashKey := fst slot in
      let rangeKey := snd slot in
      match collections st !! TableName ≫= fun t => t !! hashKey with
      | None => Some (Threw TypeError, st)
      | Some _ =>
          Some (Answered tt,
                set_collections
                  (alter (fun t => alter (fun b => <[rangeKey := None]> b) hashKey t)
                         TableName (collections st)) st)
      end
  end.

(** The inner loop of [batchGet] over the keys requested of one table. *)
Fixpoint batchGet_keys (tableName : string) (Keys : list obj)
    (items : list obj) (st : FakeState)
  : option (Reply (list obj) * FakeState) :=
  match Keys with
  | [] => Some (Answered items, st)
  | request_ :: rest =>
      schema_of tableName st ≫= fun schema =>
      match schema with
      | None => Some (Threw TypeError, st)
      | Some schema =>
          slot_of schema request_ ≫= fun slot =>
          let hashKey := fst slot in
          let rangeKey := snd slot in
          ensureHashKey tableName hashKey st ≫= fun st1 =>
          stored tableName hashKey rangeKey st1 ≫= fun item =>
          match item with
          | Some item =>
              batchGet_keys tableName rest (items ++ [JSON_parse_item item]) st1
          | None => batchGet_keys tableName rest items st1
          end
      end
  end.

(** [batchGet] for a request that names one table; the response is a
    plain object with that table name as a property. *)
Definition batchGet (tableName : string) (Keys : list obj) (st : FakeState)
  : option (Reply (list obj) * FakeState) :=
  match guardShouldFail st with
  | Some err => Some (Errored err, st)
  | None =>
      if inherited tableName then None
      else batchGet_keys tableName Keys [] st
  end.
End Methods.
End FakeDocumentClient.

(** ** More notions used to state the properties *)

(** What [toArray] makes of the results of successive calls: the entities
    before the first [undefined], or the first error. *)
Fixpoint drained {E : Type} (results : list (error + option E))
  : error + list E :=
  match results with
  | [] => inr []
  | inl err :: _ => inl err
  | inr None :: _ => inr []
  | inr (Some e) :: rest =>
      match drained rest with
      | inl err => inl err
      | inr l => inr (e :: l)
      end
  end.

Definition prepend {E : Type} (array : list E) (r : error + list E)
  : error + list E :=
  match r with
  | inl err => inl err
  | inr l => inr (array ++ l)
  end.

(** [count_region dc input start counts]: from [start] on, the store
    answers the counting request with finitely many pages, whose counts
    are [counts] in page order. *)
Inductive count_region (dc : CountClient) (input : ICountInput)
  : option obj -> list Z -> Prop :=
| count_region_last start n :
    Count.asyncRequest dc input start
      = inr {| Count := n; countLastEvaluatedKey := None |} ->
    count_region dc input start [n]
| count_region_more start n cursor rest :
    Count.asyncRequest dc input start
      = inr {| Count := n; countLastEvaluatedKey := Some cursor |} ->
    count_region dc input (Some cursor) rest ->
    count_region dc input start (n :: rest).

(** Every promise the cache holds is fulfilled. *)
Definition settled_cache {Content : Type} (w : World Content) : Prop :=
  forall h r p, lookup2 (cache w) h r = Some p ->
                exists v, promises w !! p = Some (Fulfilled v).

(** The entry of entity [e] is what [track] files for it when the entity
    serializes to [s]. *)
Definition update_entry (e : eref) (s : string) : TrackedEntry :=
  {| action := UPDATE; initialStatus := Some s; tentity := e |}.

(** ** More fixtures *)

Module Sample.
(** A store that counts two items on a first page and one on a second. *)
Definition countInput : ICountInput :=
  {| countIndexName := None; countExclusiveStartKey := None;
     countKeyConditionExpression := None |}.

Definition countClient : CountClient :=
  {| countQuery := fun _ _ => inl (StoreError "query");
     countScan := fun _ start =>
       match start with
       | None => inr {| Count := 2;
                        countLastEvaluatedKey := Some [("id", VStr "secondEntityId")] |}
       | Some _ => inr {| Count := 1; countLastEvaluatedKey := None |}
       end |}.

(** Two key objects for [getList], at addresses [10] and [11]. *)
Definition keys : list keyobj :=
  [(10, Fixture.entityKey); (11, [("id", VStr "notExistentId")])].

(** A stand-in for [JSON.stringify] and [JSON.parse] on the items of the
    fake client: an item is stored under the text of its [id]. *)
Definition stringify_item (it : obj) : string :=
  match prop it "id" with VStr s => s | _ => "?" end.

Definition parse_item (s : string) : obj := [("id", VStr s)].

(** A store whose keys-only index lists two items, of which the table no
    longer has the first and still has the second. *)
Definition halfStaleIndexClient : DocumentClient :=
  {| query := fun _ _ => inl (StoreError "query");
     scan := fun _ _ =>
       inr {| Items := [Fixture.entityKey; [("id", VStr "secondEntityId")]];
              LastEvaluatedKey := None |};
     getItem := fun key =>
       if strict_eq (prop key "id") (VStr "secondEntityId")
       then inr (Some (Fixture.item "secondEntityId" false))
       else inr None |}.

Definition fake : FakeState :=
  {| collections := ∅;
     keySchemas := {[ "tableName" := {| fakeHashKey := "id"; fakeRangeKey := None |} ]};
     shouldFail := false; fakeError := None |}.
End Sample.

(** * Properties *)

(** ** Key comparison *)

Lemma strict_eq_sym (a b : jsval) : strict_eq a b = strict_eq b a.
Proof.
  destruct a, b; simpl; try reflexivity.
  - apply String.eqb_sym.
  - apply Z.eqb_sym.
  - destruct b, b0; reflexivity.
  - apply Nat.eqb_sym.
Qed.

Lemma deep_eq_scalar (a b : jsval) :
  scalar a = true -> deep_eq a b = strict_eq b a.
Proof.
  intros Ha. rewrite strict_eq_sym.
  destruct a, b; simpl in *; try reflexivity; discriminate.
Qed.

Lemma sameKey_spec (key1 key2 : obj) :
  sameKey key1 key2 = true <->
  forall k, In k (obj_keys key1) -> strict_eq (prop key2 k) (prop key1 k) = true.
Proof. unfold sameKey. apply forallb_forall. Qed.

Lemma uniqueKeys_from_covers (arrArg output : list obj) (key : obj) :
  existsb (fun k2 => sameKey key k2) output = true \/ In key arrArg ->
  existsb (fun k2 => sameKey key k2) (uniqueKeys_from output arrArg) = true.
Proof.
  revert output. induction arrArg as [|key' arr IH]; intros output [Hout|Hin].
  - exact Hout.
  - destruct Hin.
  - unfold uniqueKeys_from in *. simpl.
    destruct (existsb (fun k2 => sameKey key' k2) output) eqn:E;
      apply IH; left; [exact Hout|].
    rewrite existsb_app, Hout. reflexivity.
  - unfold uniqueKeys_from in *. simpl. destruct Hin as [->|Hin].
    + destruct (existsb (fun k2 => sameKey key k2) output) eqn:E.
      * apply IH. left. exact E.
      * apply IH. left. rewrite existsb_app. simpl.
        assert (Hrefl : sameKey key key = true).
        { apply sameKey_spec. intros k _.
          destruct (prop key k); simpl; auto using String.eqb_refl, Z.eqb_refl, Nat.eqb_refl.
          destruct b; reflexivity. }
        rewrite Hrefl. now rewrite orb_true_r.
    + destruct (existsb (fun k2 => sameKey key' k2) output);
        apply IH; right; exact Hin.
Qed.

Lemma fresh_keys_snoc (output : list obj) (key : obj) :
  fresh_keys output ->
  existsb (fun k2 => sameKey key k2) output = false ->
  fresh_keys (output ++ [key]).
Proof.
  intros Hf Hk pre key' post Heq.
  destruct post as [|x post' _] using rev_ind.
  - change (pre ++ [key']) with (pre ++ [key']) in Heq.
    apply app_inj_tail in Heq as [-> ->]. exact Hk.
  - rewrite app_comm_cons, app_assoc in Heq.
    apply app_inj_tail in Heq as [-> _].
    eapply Hf. reflexivity.
Qed.

Lemma uniqueKeys_from_fresh (arrArg output : list obj) :
  fresh_keys output -> fresh_keys (uniqueKeys_from output arrArg).
Proof.
  revert output. induction arrArg as [|key arr IH]; intros output Hf.
  - exact Hf.
  - unfold uniqueKeys_from in *. simpl.
    destruct (existsb (fun k2 => sameKey key k2) output) eqn:E.
    + apply IH, Hf.
    + apply IH, fresh_keys_snoc; assumption.
Qed.

Lemma uniqueKeys_from_sub (arrArg output : list obj) (key : obj) :
  In key (uniqueKeys_from output arrArg) -> In key output \/ In key arrArg.
Proof.
  revert output. induction arrArg as [|key' arr IH]; intros output Hin.
  - left. exact Hin.
  - unfold uniqueKeys_from in *. simpl in Hin.
    destruct (existsb _ output).
    + destruct (IH _ Hin); [left|right; right]; assumption.
    + destruct (IH _ Hin) as [Ho|Ha].
      * apply in_app_or in Ho as [Ho|[->|[]]]; [left; exact Ho|right; left; reflexivity].
      * right; right; exact Ha.
Qed.

Lemma sameKey_scalar_keys (key1 key2 : obj) :
  (forall k, In k (obj_keys key1) <-> In k (obj_keys key2)) ->
  (forall k, In k (obj_keys key1) -> scalar (prop key1 k) = true) ->
  sameKey key1 key2 = spec_keyEqual key1 key2 /\
  sameKey key2 key1 = sameKey key1 key2.
Proof.
  intros Hattrs Hscalar. split; apply eq_true_iff_eq.
  - rewrite sameKey_spec. unfold spec_keyEqual. rewrite forallb_forall.
    split; intros Hall k Hk.
    + assert (Hk1 : In k (obj_keys key1)).
      { apply in_app_or in Hk as [Hk|Hk]; [exact Hk|now apply Hattrs]. }
      rewrite deep_eq_scalar by auto. auto.
    + rewrite <- deep_eq_scalar by auto. apply Hall, in_or_app. now left.
  - rewrite !sameKey_spec.
    split; intros Hall k Hk; rewrite strict_eq_sym; apply Hall, Hattrs, Hk.
Qed.

(** ** The paginated reader *)

Section Search.
Context {Content : Type}.
Variable this : Repository Content.
Variable dc : DocumentClient.
Variable input : ISearchInput.

Lemma fetch_loop_eq (fuel : nat) (g : Generator) :
  DynamoRepository.fetch_loop fuel dc input g =
  if (Nat.eqb (length (batch g)) 0 && negb (sourceIsEmpty g))%bool then
    match fuel with
    | O => None
    | S fuel' =>
        match DynamoRepository.getNextBlock dc input
                (getNextBlock_state g) with
        | inl err => Some (Some err, g)
        | inr (None, b) =>
            Some (Some TypeError,
                  {| getNextBlock_state := b; batch := batch g;
                     sourceIsEmpty := sourceIsEmpty g |})
        | inr (Some dynamoResponse, b) =>
            DynamoRepository.fetch_loop fuel' dc input
              {| getNextBlock_state := b;
                 batch := Items dynamoResponse;
                 sourceIsEmpty :=
                   match LastEvaluatedKey dynamoResponse with
                   | None => true
                   | Some _ => false
                   end |}
        end
    end
  else Some (None, g).
Proof. destruct fuel; reflexivity. Qed.

(** When the loop ends without an error, a page is at hand or the source
    is exhausted. *)
Lemma fetch_loop_exit (fuel : nat) (g g1 : Generator) :
  DynamoRepository.fetch_loop fuel dc input g = Some (None, g1) ->
  batch g1 <> [] \/ sourceIsEmpty g1 = true.
Proof.
  revert g. induction fuel as [|fuel IH]; intros g; rewrite fetch_loop_eq.
  - destruct (batch g) eqn:Eb, (sourceIsEmpty g) eqn:Es; simpl;
      intros Heq; inversion Heq; subst; rewrite ?Eb, ?Es; auto;
      left; discriminate.
  - destruct (batch g) eqn:Eb, (sourceIsEmpty g) eqn:Es; simpl;
      try (intros Heq; inversion Heq; subst; rewrite ?Eb, ?Es; auto; left; discriminate).
    destruct (DynamoRepository.getNextBlock dc input (getNextBlock_state g))
      as [err|[[resp|] b]]; try discriminate.
    apply IH.
Qed.

(** From an empty page with more of the region to come, the loop fetches
    until a page has items or the region ends. *)
Lemma fetch_loop_region (start : option obj) (more : list obj) :
  region dc input start more ->
  forall g,
    batch g = [] -> sourceIsEmpty g = false ->
    blockSourceIsEmpty (getNextBlock_state g) = false ->
    lastEvaluatedKey (getNextBlock_state g) = start ->
    exists F g1, forall fuel, F <= fuel ->
      DynamoRepository.fetch_loop fuel dc input g = Some (None, g1) /\
      holds dc input g1 more.
Proof.
  induction 1 as [start items Hpage|start items cursor rest Hpage Hreg IH];
    intros g Hb Hs Hbs Hk.
  - exists 1.
    exists {| getNextBlock_state :=
                {| lastEvaluatedKey := None; blockSourceIsEmpty := true |};
              batch := items; sourceIsEmpty := true |}.
    intros [|fuel] Hle; [lia|].
    rewrite fetch_loop_eq, Hb, Hs. simpl.
    unfold DynamoRepository.getNextBlock. rewrite Hbs, Hk.
    fold (page dc input start). rewrite Hpage. simpl.
    rewrite fetch_loop_eq. simpl. rewrite andb_false_r.
    split; [reflexivity|].
    apply (holds_done dc input
             {| getNextBlock_state := _; batch := items; sourceIsEmpty := true |}).
    reflexivity.
  - destruct items as [|x items].
    + destruct (IH {| getNextBlock_state :=
                        {| lastEvaluatedKey := Some cursor;
                           blockSourceIsEmpty := false |};
                      batch := []; sourceIsEmpty := false |})
        as (F & g1 & HF); try reflexivity.
      exists (S F), g1. intros [|fuel] Hle; [lia|].
      rewrite fetch_loop_eq, Hb, Hs. simpl.
      unfold DynamoRepository.getNextBlock. rewrite Hbs, Hk.
      fold (page dc input start). rewrite Hpage. simpl. rewrite ?Hbs.
      apply HF. lia.
    + exists 1.
      exists {| getNextBlock_state :=
                  {| lastEvaluatedKey := Some cursor;
                     blockSourceIsEmpty := false |};
                batch := x :: items; sourceIsEmpty := false |}.
      intros [|fuel] Hle; [lia|].
      rewrite fetch_loop_eq, Hb, Hs. simpl.
      unfold DynamoRepository.getNextBlock. rewrite Hbs, Hk.
      fold (page dc input start). rewrite Hpage. simpl. rewrite ?Hbs.
      rewrite fetch_loop_eq. simpl.
      split; [reflexivity|].
      apply (holds_more dc input
               {| getNextBlock_state :=
                    {| lastEvaluatedKey := Some cursor;
                       blockSourceIsEmpty := false |};
                  batch := x :: items; sourceIsEmpty := false |} rest);
        [reflexivity|reflexivity|exact Hreg].
Qed.

Lemma fetch_loop_holds (g : Generator) (rest : list obj) :
  holds dc input g rest ->
  exists F g1, forall fuel, F <= fuel ->
    DynamoRepository.fetch_loop fuel dc input g = Some (None, g1) /\
    holds dc input g1 rest.
Proof.
  intros Hh. destruct Hh as [g Hs|g more Hs Hbs Hreg].
  - exists 0, g. intros fuel _.
    rewrite fetch_loop_eq, Hs, andb_false_r.
    split; [reflexivity|now apply holds_done].
  - destruct (batch g) as [|x b] eqn:Eb.
    + destruct (fetch_loop_region _ _ Hreg g Eb Hs Hbs eq_refl) as (F & g1 & HF).
      exists F, g1. exact HF.
    + exists 0, g. intros fuel _.
      split; [rewrite fetch_loop_eq, Eb; reflexivity|].
      rewrite <- Eb. now apply holds_more.
Qed.

(** One call from a generator that has [rest] left: it resolves to what
    the first item of [rest] yields, or to [undefined] when [rest] is
    empty, and leaves the tail. *)
Lemma next_holds (refetch : bool) (g : Generator) (rest : list obj) :
  DynamoRepository.needs_refetch this input = inr refetch ->
  holds dc input g rest ->
  exists F g1, forall fuel, F <= fuel ->
    DynamoRepository.next this fuel dc input g
      = Some (match rest with
              | [] => inr None
              | x :: _ => yield this dc refetch x
              end, g1) /\
    holds dc input g1 (tail rest).
Proof.
  intros Hidx Hh.
  destruct (fetch_loop_holds g rest Hh) as (F & g1 & HF).
  destruct (HF F (Nat.le_refl _)) as (Hloop & Hh1).
  pose proof (fetch_loop_exit _ _ _ Hloop) as Hexit.
  assert (Hnext : forall fuel, F <= fuel ->
            DynamoRepository.next this fuel dc input g =
            match batch g1 with
            | [] => Some (inr None, g1)
            | indexed :: b =>
                Some (yield this dc refetch indexed,
                      {| getNextBlock_state := getNextBlock_state g1;
                         batch := b; sourceIsEmpty := sourceIsEmpty g1 |})
            end).
  { intros fuel Hle. unfold DynamoRepository.next.
    rewrite (proj1 (HF fuel Hle)), Hidx.
    destruct (batch g1); [reflexivity|]. unfold yield.
    destruct refetch; reflexivity. }
  exists F.
  inversion Hh1 as [g' Hs Hg Hrest|g' more Hs Hbs Hreg Hg Hrest]; subst g'.
  - destruct (batch g1) as [|x b] eqn:Eb.
    + exists g1. intros fuel Hle. split; [now apply Hnext|]. simpl.
      rewrite <- Eb. now apply holds_done.
    + eexists. intros fuel Hle. split; [now apply Hnext|]. simpl.
      apply (holds_done dc input
               {| getNextBlock_state := getNextBlock_state g1; batch := b;
                  sourceIsEmpty := sourceIsEmpty g1 |}); exact Hs.
  - destruct (batch g1) as [|x b] eqn:Eb.
    + destruct Hexit as [Hne|Ht]; [now destruct Hne|congruence].
    + eexists. intros fuel Hle. split; [now apply Hnext|]. simpl.
      apply (holds_more dc input
               {| getNextBlock_state := getNextBlock_state g1; batch := b;
                  sourceIsEmpty := sourceIsEmpty g1 |} more); assumption.
Qed.

(** [n] calls in a row. *)
Lemma pulls_holds (refetch : bool) (n : nat) :
  DynamoRepository.needs_refetch this input = inr refetch ->
  forall (g : Generator) (rest : list obj),
  holds dc input g rest ->
  exists F g1, forall fuel, F <= fuel ->
    DynamoRepository.pulls this n fuel dc input g
      = Some (map (yield this dc refetch) (take n rest)
                ++ repeat (inr None) (n - length rest), g1) /\
    holds dc input g1 (drop n rest).
Proof.
  intros Hidx. induction n as [|n IH]; intros g rest Hh.
  - exists 0, g. intros fuel _. split; [reflexivity|exact Hh].
  - destruct (next_holds refetch g rest Hidx Hh) as (F1 & g1 & H1).
    destruct (IH g1 (tail rest) (proj2 (H1 F1 (Nat.le_refl _)))) as (F2 & g2 & H2).
    exists (F1 + F2), g2. intros fuel Hle.
    destruct (H1 fuel ltac:(lia)) as (Hn & _).
    destruct (H2 fuel ltac:(lia)) as (Hp & Hh2).
    simpl. rewrite Hn, Hp.
    destruct rest as [|x rest]; simpl in *.
    + rewrite take_nil, Nat.sub_0_r in *. simpl.
      rewrite drop_nil in Hh2. split; [reflexivity|exact Hh2].
    + split; [reflexivity|exact Hh2].
Qed.
End Search.

Lemma search_holds (dc : DocumentClient) (input : ISearchInput) (items : list obj) :
  region dc input (ExclusiveStartKey input) items ->
  holds dc input (DynamoRepository.search input) items.
Proof.
  intros Hreg.
  apply (holds_more dc input (DynamoRepository.search input) items);
    [reflexivity|reflexivity|exact Hreg].
Qed.

(** A call resolves to [undefined] in two cases only. *)
Lemma next_undefined {Content : Type} (this : Repository Content)
    (dc : DocumentClient) (input : ISearchInput) (fuel : nat)
    (g g1 : Generator) :
  DynamoRepository.next this fuel dc input g = Some (inr None, g1) ->
  (batch g1 = [] /\ sourceIsEmpty g1 = true) \/
  (DynamoRepository.needs_refetch this input = inr true /\
   exists g0 indexed,
     DynamoRepository.fetch_loop fuel dc input g = Some (None, g0) /\
     batch g0 = indexed :: batch g1 /\
     DynamoRepository.get_now this dc (DynamoRepository.index_key this indexed)
       = inr None).
Proof.
  unfold DynamoRepository.next.
  destruct (DynamoRepository.fetch_loop fuel dc input g)
    as [[[err|] g0]|] eqn:Hloop; try discriminate.
  pose proof (fetch_loop_exit _ _ _ _ _ Hloop) as Hexit.
  destruct (batch g0) as [|indexed rest] eqn:Eb.
  - intros Heq. inversion Heq; subst g1. left.
    split; [exact Eb|]. destruct Hexit as [Hne|Hs]; [now destruct Hne|exact Hs].
  - destruct (DynamoRepository.needs_refetch this input) as [err|[|]];
      try discriminate.
    intros Heq. inversion Heq as [[Hget Hg1]]. right.
    split; [reflexivity|]. exists g0, indexed. simpl.
    rewrite Eb. repeat split; reflexivity || assumption.
Qed.

(** C8 (as the code has it). For a search whose store region holds
    [items] in page order, [n] successive calls of the generator resolve,
    in that order, to what the first [n] items yield and then to
    [undefined] for every further call: with [items = [A; B; C]] and no
    re-fetch through an index that is A, B, C, [undefined], [undefined],
    and so on. An item yields its unmarshalled self, or, when the search
    goes through an index whose projection is not ALL, the result of the
    point read for it. A call resolves to [undefined] when the current
    page is empty and the source is exhausted, and otherwise only when
    such a point read found no item: in that one case the code returns
    [undefined] in the middle of a page, which its callers read as the end
    of the results. *)
Theorem C8_search_yields_region_then_undefined
    {Content : Type} (this : Repository Content) (dc : DocumentClient)
    (input : ISearchInput) (items : list obj) (refetch : bool) (n : nat) :
  DynamoRepository.needs_refetch this input = inr refetch ->
  region dc input (ExclusiveStartKey input) items ->
  (exists F g1, forall fuel, F <= fuel ->
     DynamoRepository.pulls this n fuel dc input (DynamoRepository.search input)
       = Some (map (yield this dc refetch) (take n items)
                 ++ repeat (inr None) (n - length items), g1)) /\
  (refetch = false ->
   forall x, yield this dc refetch x = inr (Some (unMarshal (config this) x))) /\
  (forall fuel g g1,
     DynamoRepository.next this fuel dc input g = Some (inr None, g1) ->
     (batch g1 = [] /\ sourceIsEmpty g1 = true) \/
     (refetch = true /\
      exists g0 indexed,
        DynamoRepository.fetch_loop fuel dc input g = Some (None, g0) /\
        batch g0 = indexed :: batch g1 /\
        DynamoRepository.get_now this dc (DynamoRepository.index_key this indexed)
          = inr None)).
Proof.
  intros Hidx Hreg. split; [|split].
  - destruct (pulls_holds this dc input refetch n Hidx _ _
                (search_holds dc input items Hreg)) as (F & g1 & HF).
    exists F, g1. intros fuel Hle. apply HF, Hle.
  - intros -> x. reflexivity.
  - intros fuel g g1 Hnext.
    destruct (next_undefined this dc input fuel g g1 Hnext) as [Hdone|[Hr Hmiss]].
    + left. exact Hdone.
    + right. split; [congruence|exact Hmiss].
Qed.

Lemma C8_witness :
  exists F g1, forall fuel, F <= fuel ->
    DynamoRepository.pulls Fixture.repository 5 fuel Fixture.pagedClient
      Fixture.scanInput (DynamoRepository.search Fixture.scanInput)
    = Some ([inr (Some (Fixture.item "entityId" false));
             inr (Some (Fixture.item "secondEntityId" false));
             inr (Some (Fixture.item "thirdEntityId" false));
             inr None; inr None], g1).
Proof.
  refine (proj1 (C8_search_yields_region_then_undefined
                   Fixture.repository Fixture.pagedClient Fixture.scanInput
                   ([Fixture.item "entityId" false;
                     Fixture.item "secondEntityId" false]
                      ++ [Fixture.item "thirdEntityId" false])
                   false 5 _ _)).
  - reflexivity.
  - eapply region_more; [reflexivity|].
    apply region_last. reflexivity.
Defined.

(** C8 fails in the code for a search through a partially projected index
    with a stale entry: the first call resolves to [undefined] because the
    point read finds no item, while the page still holds an item. When the
    table still has that second item, the next call yields its entity, so
    the [undefined] before it did not mean that there are no more
    entities, which is what the documentation of [search] says it means;
    and [toArray()], which stops at the first [undefined], returns the
    empty array for a region that holds an item of the table. *)
Lemma C8_counterexample :
  DynamoRepository.next Fixture.indexedRepository 1 Fixture.staleIndexClient
    Fixture.indexInput (DynamoRepository.search Fixture.indexInput)
  = Some (inr None,
          {| getNextBlock_state :=
               {| lastEvaluatedKey := None; blockSourceIsEmpty := true |};
             batch := [[("id", VStr "secondEntityId")]];
             sourceIsEmpty := true |}) /\
  let g1 := {| getNextBlock_state :=
                 {| lastEvaluatedKey := None; blockSourceIsEmpty := true |};
               batch := [[("id", VStr "secondEntityId")]];
               sourceIsEmpty := true |} in
  let g2 := {| getNextBlock_state :=
                 {| lastEvaluatedKey := None; blockSourceIsEmpty := true |};
               batch := [];
               sourceIsEmpty := true |} in
  region Sample.halfStaleIndexClient Fixture.indexInput None
    [Fixture.entityKey; [("id", VStr "secondEntityId")]] /\
  DynamoRepository.next Fixture.indexedRepository 1 Sample.halfStaleIndexClient
    Fixture.indexInput (DynamoRepository.search Fixture.indexInput)
  = Some (inr None, g1) /\
  DynamoRepository.next Fixture.indexedRepository 1 Sample.halfStaleIndexClient
    Fixture.indexInput g1
  = Some (inr (Some (Fixture.item "secondEntityId" false)), g2) /\
  generatorToArray
    (DynamoRepository.next Fixture.indexedRepository 1 Sample.halfStaleIndexClient
       Fixture.indexInput) 3 (DynamoRepository.search Fixture.indexInput) []
  = Some (inr [], g1).
Proof.
  split; [reflexivity|]. split; [apply region_last; reflexivity|].
  split; [reflexivity|]. split; reflexivity.
Qed.

(** ** The read cache *)

Section Cache.
Context {Content : Type}.
Variable this : Repository Content.
Implicit Types w : World Content.

Lemma lookup2_install (c : gmap token (gmap token pref)) (h r h' r' : token)
    (p : pref) :
  lookup2 (install c h r p) h' r'
  = if decide (h' = h /\ r' = r) then Some p else lookup2 c h' r'.
Proof.
  unfold lookup2, install.
  destruct (decide (h' = h)) as [->|Hh].
  - rewrite lookup_alter_eq.
    destruct (c !! h) as [bucket|] eqn:Ec.
    + rewrite Ec. simpl.
      destruct (decide (r' = r)) as [->|Hr].
      * rewrite lookup_insert_eq. now rewrite decide_True.
      * rewrite lookup_insert_ne by congruence.
        rewrite decide_False by (intros [_ ?]; congruence). reflexivity.
    + rewrite lookup_insert_eq. simpl.
      destruct (decide (r' = r)) as [->|Hr].
      * rewrite lookup_insert_eq. now rewrite decide_True.
      * rewrite lookup_insert_ne by congruence.
        rewrite decide_False by (intros [_ ?]; congruence).
        now rewrite lookup_empty.
  - rewrite lookup_alter_ne by congruence.
    rewrite decide_False by (intros [? _]; congruence).
    destruct (c !! h) eqn:Ec; [reflexivity|].
    now rewrite lookup_insert_ne by congruence.
Qed.

Lemma getFromCache_lookup2 (key : obj) w :
  CachedDynamoRepository.getFromCache this key w
  = lookup2 (cache w) (CachedDynamoRepository.hash_of this key)
            (CachedDynamoRepository.range_of this key).
Proof.
  unfold CachedDynamoRepository.getFromCache, CachedDynamoRepository.cache_has, lookup2.
  destruct (cache w !! _); reflexivity.
Qed.

Lemma keyIsCached_lookup2 (key : obj) w :
  CachedDynamoRepository.keyIsCached this key w
  = match CachedDynamoRepository.getFromCache this key w with
    | Some _ => true
    | None => false
    end.
Proof.
  rewrite getFromCache_lookup2.
  unfold CachedDynamoRepository.keyIsCached, CachedDynamoRepository.cache_has,
    CachedDynamoRepository.bucket_has, lookup2.
  destruct (cache w !! _) as [bucket|]; simpl; [|reflexivity].
  destruct (bucket !! _); reflexivity.
Qed.

(** [get] on a cached key: the promise of the cache, nothing else
    happens. *)
Lemma get_cached (key : obj) (p : pref) w :
  CachedDynamoRepository.getFromCache this key w = Some p ->
  CachedDynamoRepository.get this key w = (Some p, w).
Proof.
  rewrite getFromCache_lookup2. unfold lookup2, CachedDynamoRepository.get.
  unfold CachedDynamoRepository.cache_has, CachedDynamoRepository.bucket_has.
  destruct (cache w !! _) as [bucket|] eqn:Ec; simpl; [|discriminate].
  intros Hr. rewrite Ec, Hr. simpl. rewrite Ec. simpl. now rewrite Hr.
Qed.

(** [get] on a key that is not cached: one point read, and a new pending
    promise installed in the slot of the key. *)
Lemma get_uncached (key : obj) w :
  CachedDynamoRepository.getFromCache this key w = None ->
  CachedDynamoRepository.get this key w
  = (Some (length (promises w)),
     {| cache := install (cache w) (CachedDynamoRepository.hash_of this key)
                   (CachedDynamoRepository.range_of this key)
                   (length (promises w));
        promises := promises w ++ [Pending];
        heap := heap w; next_entity := next_entity w;
        calls := calls w ++ [dc_get (tableName (config this)) key];
        events := events w; tracked := tracked w |}).
Proof.
  rewrite getFromCache_lookup2. unfold lookup2, CachedDynamoRepository.get.
  unfold CachedDynamoRepository.cache_has, CachedDynamoRepository.bucket_has.
  set (h := CachedDynamoRepository.hash_of this key).
  set (r := CachedDynamoRepository.range_of this key).
  intros Hnone.
  assert (Hl : lookup2 (install (cache w) h r (length (promises w))) h r
               = Some (length (promises w))).
  { rewrite lookup2_install. now rewrite decide_True. }
  unfold lookup2 in Hl. unfold install in *.
  destruct (cache w !! h) as [bucket|] eqn:Ec; simpl in *.
  - rewrite Ec, Hnone. simpl. unfold CachedDynamoRepository.bucket_set. simpl.
    rewrite Hl. reflexivity.
  - rewrite lookup_insert_eq. rewrite lookup_empty. simpl.
    unfold CachedDynamoRepository.bucket_set. simpl.
    rewrite Hl. reflexivity.
Qed.

Lemma settle_frame (q : pref) (st : pstate) w :
  cache (settle q st w) = cache w /\ calls (settle q st w) = calls w /\
  events (settle q st w) = events w /\ tracked (settle q st w) = tracked w.
Proof. unfold settle. destruct (promises w !! q) as [[]|]; repeat split. Qed.

Lemma settle_settled (q p : pref) (st s : pstate) w :
  promises w !! p = Some s -> s <> Pending ->
  promises (settle q st w) !! p = Some s.
Proof.
  intros Hp Hs. unfold settle.
  destruct (promises w !! q) as [[]|] eqn:Hq; try exact Hp. simpl.
  rewrite list_lookup_insert_ne; [exact Hp|]. congruence.
Qed.

(** An answer of the store touches neither the cache nor the logs, and
    leaves a settled promise as it is. *)
Lemma get_settled_frame (q : pref) (res : error + option obj) w :
  cache (DynamoRepository.get_settled this q res w) = cache w /\
  calls (DynamoRepository.get_settled this q res w) = calls w /\
  events (DynamoRepository.get_settled this q res w) = events w /\
  tracked (DynamoRepository.get_settled this q res w) = tracked w.
Proof.
  unfold DynamoRepository.get_settled.
  destruct (promises w !! q) as [[]|]; try (repeat split; fail).
  destruct res as [err|[item|]]; try apply settle_frame.
  unfold alloc. apply (settle_frame q _ {| cache := cache w |}).
Qed.

Lemma get_settled_settled (q p : pref) (res : error + option obj)
    (s : pstate) w :
  promises w !! p = Some s -> s <> Pending ->
  promises (DynamoRepository.get_settled this q res w) !! p = Some s.
Proof.
  intros Hp Hs. unfold DynamoRepository.get_settled.
  destruct (promises w !! q) as [[]|]; try exact Hp.
  destruct res as [err|[item|]]; now apply settle_settled.
Qed.

Lemma getFromCache_frame (key : obj) w w' :
  cache w' = cache w ->
  CachedDynamoRepository.getFromCache this key w'
  = CachedDynamoRepository.getFromCache this key w.
Proof. intros Hc. rewrite !getFromCache_lookup2, Hc. reflexivity. Qed.

(** A history of calls of [get] and store answers never changes the
    promise a cached key holds, and issues no point read for its slot. *)
Lemma read_do_stable (s : read_step) (key : obj) (p : pref) w :
  CachedDynamoRepository.getFromCache this key w = Some p ->
  CachedDynamoRepository.getFromCache this key (cache_do this (of_read s) w) = Some p /\
  reads_of this key (calls (cache_do this (of_read s) w)) = reads_of this key (calls w).
Proof.
  intros Hp. destruct s as [key'|q res].
  - change (cache_do this (of_read (read_get key')) w)
      with (snd (CachedDynamoRepository.get this key' w)).
    destruct (CachedDynamoRepository.getFromCache this key' w) as [p'|] eqn:Hk'.
    + rewrite (get_cached key' p' w Hk'). simpl. split; [exact Hp|reflexivity].
    + rewrite (get_uncached key' w Hk'). simpl.
      assert (Hslot : ~ (CachedDynamoRepository.hash_of this key
                           = CachedDynamoRepository.hash_of this key' /\
                         CachedDynamoRepository.range_of this key
                           = CachedDynamoRepository.range_of this key')).
      { intros [Hh Hr]. rewrite getFromCache_lookup2 in Hp, Hk'.
        rewrite Hh, Hr in Hp. congruence. }
      split.
      * rewrite getFromCache_lookup2. simpl. rewrite lookup2_install.
        rewrite decide_False by exact Hslot.
        rewrite <- getFromCache_lookup2. exact Hp.
      * unfold reads_of. rewrite List.filter_app, length_app. simpl.
        rewrite bool_decide_eq_false_2; [simpl; lia|].
        intros [Hh Hr]. apply Hslot. split; congruence.
  - change (cache_do this (of_read (read_answer q res)) w)
      with (DynamoRepository.get_settled this q res w).
    destruct (get_settled_frame q res w) as (Hc & Hcalls & _).
    rewrite (getFromCache_frame key _ _ Hc), Hcalls. split; [exact Hp|reflexivity].
Qed.

End Cache.

Lemma getFromCache_clear {Content : Type} (this : Repository Content)
    (key : obj) (w : World Content) :
  CachedDynamoRepository.getFromCache this key (CachedDynamoRepository.clear w) = None.
Proof. reflexivity. Qed.

Lemma getFromCache_same_slot {Content : Type} (this : Repository Content)
    (key key' : obj) (w : World Content) :
  CachedDynamoRepository.hash_of this key' = CachedDynamoRepository.hash_of this key ->
  CachedDynamoRepository.range_of this key' = CachedDynamoRepository.range_of this key ->
  CachedDynamoRepository.getFromCache this key' w
  = CachedDynamoRepository.getFromCache this key w.
Proof. intros Hh Hr. rewrite !getFromCache_lookup2, Hh, Hr. reflexivity. Qed.

Section CacheSteps.
Context {Content : Type}.
Variable this : Repository Content.
Implicit Types w : World Content.

(** [addToCacheByKey] when nothing, or a resolved miss, is cached for the
    key: a new promise, already fulfilled with the offered value, takes the
    slot. *)
Lemma addToCacheByKey_installs (key : obj) (v : opt_entity) w :
  await (CachedDynamoRepository.getFromCache this key w) w = Some (inr None) ->
  CachedDynamoRepository.addToCacheByKey this key v w
  = Some (None,
          {| cache := install (cache w) (CachedDynamoRepository.hash_of this key)
                        (CachedDynamoRepository.range_of this key)
                        (length (promises w));
             promises := promises w ++ [Fulfilled v];
             heap := heap w; next_entity := next_entity w;
             calls := calls w; events := events w; tracked := tracked w |}).
Proof.
  intros Ha. unfold CachedDynamoRepository.addToCacheByKey. rewrite Ha.
  unfold CachedDynamoRepository.cache_has, install.
  destruct (cache w !! CachedDynamoRepository.hash_of this key); reflexivity.
Qed.

(** [addToCacheByKey] when an entity is cached for the key. *)
Lemma addToCacheByKey_keeps (key : obj) (v : opt_entity) (c : eref) w :
  await (CachedDynamoRepository.getFromCache this key w) w = Some (inr (Some c)) ->
  CachedDynamoRepository.addToCacheByKey this key v w
  = Some (None,
          if bool_decide (Some c = v) then w
          else emit (cacheKeyInUse (CachedDynamoRepository.getFromCache this key w) v) w).
Proof.
  intros Ha. unfold CachedDynamoRepository.addToCacheByKey. rewrite Ha.
  destruct (decide (Some c = v)) as [Heq|Hneq].
  - rewrite !bool_decide_eq_true_2 by exact Heq. reflexivity.
  - rewrite !bool_decide_eq_false_2 by exact Hneq. reflexivity.
Qed.

Lemma await_sticky (p : pref) (st : pstate) w :
  promises w !! p = Some st -> sticky st ->
  await (Some p) w <> Some (inr None) /\ await (Some p) w <> None.
Proof.
  intros Hp Hst. unfold await. rewrite Hp.
  destruct st as [|[c|]|err]; try destruct Hst; split; discriminate.
Qed.

(** No step replaces a cached promise that is fulfilled with an entity or
    rejected, and no step changes its state. *)
Lemma cache_do_sticky (s : cache_step) (key : obj) (p : pref) (st : pstate) w :
  CachedDynamoRepository.getFromCache this key w = Some p ->
  promises w !! p = Some st -> sticky st ->
  CachedDynamoRepository.getFromCache this key (cache_do this s w) = Some p /\
  promises (cache_do this s w) !! p = Some st /\
  reads_of this key (calls (cache_do this s w)) = reads_of this key (calls w).
Proof.
  intros Hk Hp Hst.
  assert (Hlt : p < length (promises w)) by (eapply lookup_lt_Some; exact Hp).
  assert (Hne : st <> Pending) by (intros ->; destruct Hst).
  destruct s as [key'|q res|key' v].
  - destruct (read_do_stable this (read_get key') key p w Hk) as (Hk1 & Hr1).
    split; [exact Hk1|]. split; [|exact Hr1].
    change (cache_do this (step_get key') w)
      with (snd (CachedDynamoRepository.get this key' w)).
    destruct (CachedDynamoRepository.getFromCache this key' w) as [p'|] eqn:Hk'.
    + rewrite (get_cached this key' p' w Hk'). exact Hp.
    + rewrite (get_uncached this key' w Hk'). simpl.
      rewrite lookup_app_l by exact Hlt. exact Hp.
  - destruct (read_do_stable this (read_answer q res) key p w Hk) as (Hk1 & Hr1).
    split; [exact Hk1|]. split; [|exact Hr1].
    now apply get_settled_settled.
  - change (cache_do this (step_add key' v) w)
      with (match CachedDynamoRepository.addToCacheByKey this key' v w with
            | Some (_, w1) => w1
            | None => w
            end).
    destruct (await (CachedDynamoRepository.getFromCache this key' w) w)
      as [[err|[c|]]|] eqn:Ha.
    + unfold CachedDynamoRepository.addToCacheByKey. rewrite Ha. auto.
    + rewrite (addToCacheByKey_keeps key' v c w Ha).
      destruct (bool_decide (Some c = v)); auto.
    + rewrite (addToCacheByKey_installs key' v w Ha). simpl.
      assert (Hslot : ~ (CachedDynamoRepository.hash_of this key
                           = CachedDynamoRepository.hash_of this key' /\
                         CachedDynamoRepository.range_of this key
                           = CachedDynamoRepository.range_of this key')).
      { intros [Hh Hr].
        rewrite (getFromCache_same_slot this key key' w) in Ha by congruence.
        rewrite Hk in Ha. now destruct (await_sticky p st w Hp Hst). }
      split; [|split; [|reflexivity]].
      * rewrite getFromCache_lookup2. simpl. rewrite lookup2_install.
        rewrite decide_False by exact Hslot.
        rewrite <- getFromCache_lookup2. exact Hk.
      * rewrite lookup_app_l by exact Hlt. exact Hp.
    + unfold CachedDynamoRepository.addToCacheByKey. rewrite Ha. auto.
Qed.

Lemma cache_run_sticky (steps : list cache_step) (key : obj) (p : pref)
    (st : pstate) w :
  CachedDynamoRepository.getFromCache this key w = Some p ->
  promises w !! p = Some st -> sticky st ->
  CachedDynamoRepository.getFromCache this key (cache_run this steps w) = Some p /\
  promises (cache_run this steps w) !! p = Some st /\
  reads_of this key (calls (cache_run this steps w)) = reads_of this key (calls w).
Proof.
  revert w. induction steps as [|s steps IH]; intros w Hk Hp Hst; simpl.
  - auto.
  - destruct (cache_do_sticky s key p st w Hk Hp Hst) as (Hk1 & Hp1 & Hr1).
    destruct (IH _ Hk1 Hp1 Hst) as (Hk2 & Hp2 & Hr2).
    split; [exact Hk2|]. split; [exact Hp2|].
    etransitivity; [exact Hr2|exact Hr1].
Qed.


End CacheSteps.




(** C10. While a point read for a key is in flight and the store then fails
    it, the promise the cache holds for the key becomes rejected and stays
    installed: after any history of calls of [get], store answers and
    calls of [addToCacheByKey], [get(k)] returns that same promise, which
    rejects with the same error, and hands nothing to the store. After
    [clear()] the next [get(k)] reads from the store again. *)
Theorem C10_failed_read_is_memoized {Content : Type} (this : Repository Content)
    (key : obj) (p : pref) (err : error) (w : World Content)
    (steps : list cache_step) :
  CachedDynamoRepository.getFromCache this key w = Some p ->
  promises w !! p = Some Pending ->
  let w1 := DynamoRepository.get_settled this p (inl err) w in
  let w2 := cache_run this steps w1 in
  promises w1 !! p = Some (Rejected err) /\
  CachedDynamoRepository.get this key w2 = (Some p, w2) /\
  await (Some p) w2 = Some (inl err) /\
  reads_of this key (calls w2) = reads_of this key (calls w) /\
  calls (snd (CachedDynamoRepository.get this key (CachedDynamoRepository.clear w2)))
  = calls w2 ++ [dc_get (tableName (config this)) key].
Proof.
  intros Hk Hp w1 w2.
  assert (Hp1 : promises w1 !! p = Some (Rejected err)).
  { subst w1. unfold DynamoRepository.get_settled, settle. rewrite Hp. simpl.
    apply list_lookup_insert_eq. eapply lookup_lt_Some; exact Hp. }
  destruct (get_settled_frame this p (inl err) w) as (Hc & Hcalls & _).
  fold w1 in Hc, Hcalls.
  assert (Hk1 : CachedDynamoRepository.getFromCache this key w1 = Some p).
  { rewrite (getFromCache_frame this key w w1 Hc). exact Hk. }
  destruct (cache_run_sticky this steps key p (Rejected err) w1 Hk1 Hp1 I)
    as (Hk2 & Hp2 & Hr2).
  fold w2 in Hk2, Hp2, Hr2.
  split; [exact Hp1|]. split; [now apply get_cached|].
  split; [unfold await; now rewrite Hp2|].
  split; [rewrite Hr2, Hcalls; reflexivity|].
  rewrite (get_uncached this key _ (getFromCache_clear this key w2)).
  reflexivity.
Qed.

Lemma C10_witness :
  let w := snd (CachedDynamoRepository.get Fixture.repository Fixture.entityKey
                  Fixture.world0) in
  let w1 := DynamoRepository.get_settled Fixture.repository 0
              (inl (StoreError "Repository error")) w in
  let w2 := cache_run Fixture.repository
              [step_get Fixture.entityKey; step_add Fixture.entityKey (Some 0)] w1 in
  CachedDynamoRepository.get Fixture.repository Fixture.entityKey w2 = (Some 0, w2) /\
  await (Some 0) w2 = Some (inl (StoreError "Repository error")).
Proof.
  intros w w1 w2.
  pose proof (C10_failed_read_is_memoized Fixture.repository Fixture.entityKey 0
                (StoreError "Repository error") w
                [step_get Fixture.entityKey; step_add Fixture.entityKey (Some 0)]
                eq_refl eq_refl) as (_ & Hget & Hawait & _).
  split; [exact Hget|exact Hawait].
Defined.

(** C4 (as the code has it). When the key holds a cached promise that is
    fulfilled with an entity, offering a value for the key, through
    [addToCacheByKey], [addToCache], the installation loop of [getList] or
    the generator of [search], leaves the cache as it is, for good; it
    emits [cacheKeyInUse] with the cached promise and the offered value
    when the offered value is not that entity, and does not throw; [search]
    and [getList] hand the cached entity to their caller. When the cached
    promise is fulfilled with [undefined] (a cached miss), the offered
    value takes the slot in a new fulfilled promise and nothing is
    emitted. *)
Theorem C4_collision_keeps_cached_entity
    {Content : Type} (this : Repository Content)
    (key : obj) (p : pref) (c : eref) (v : opt_entity) (w : World Content)
    (e : eref) (kid : nat) (rest : list keyobj)
    (response : list (option nat * eref)) (result : list (nat * opt_entity))
    (steps : list cache_step) :
  CachedDynamoRepository.getFromCache this key w = Some p ->
  (promises w !! p = Some (Fulfilled (Some c)) ->
   CachedDynamoRepository.addToCacheByKey this key v w
     = Some (None, after_collision p c v w) /\
   cache (after_collision p c v w) = cache w /\
   events (after_collision p c v w)
     = events w ++ (if bool_decide (Some c = v) then []
                    else [cacheKeyInUse (Some p) v]) /\
   (CachedDynamoRepository.getFromCache this key
      (cache_run this steps (after_collision p c v w)) = Some p /\
    promises (cache_run this steps (after_collision p c v w)) !! p
      = Some (Fulfilled (Some c))) /\
   (CachedDynamoRepository.getEntityKey this e w = Some key ->
    CachedDynamoRepository.addToCache this e w
      = Some (None, after_collision p c (Some e) w) /\
    CachedDynamoRepository.search_next this (Some e) w
      = Some (inr (Some c), after_collision p c (Some e) w)) /\
   CachedDynamoRepository.getList_install this ((kid, key) :: rest) response result w
     = CachedDynamoRepository.getList_install this rest response
         (jm_set kid (Some c) result)
         (after_collision p c (jm_get (Some kid) response) w)) /\
  (promises w !! p = Some (Fulfilled None) ->
   exists w1,
     CachedDynamoRepository.addToCacheByKey this key v w = Some (None, w1) /\
     CachedDynamoRepository.getFromCache this key w1 = Some (length (promises w)) /\
     promises w1 !! length (promises w) = Some (Fulfilled v) /\
     events w1 = events w).
Proof.
  intros Hk. split.
  - intros Hp.
    assert (Ha : await (CachedDynamoRepository.getFromCache this key w) w
                 = Some (inr (Some c))).
    { rewrite Hk. unfold await. now rewrite Hp. }
    assert (Hadd : forall v', CachedDynamoRepository.addToCacheByKey this key v' w
                   = Some (None, after_collision p c v' w)).
    { intros v'. rewrite (addToCacheByKey_keeps this key v' c w Ha), Hk. reflexivity. }
    assert (Hframe : forall v', cache (after_collision p c v' w) = cache w /\
                                promises (after_collision p c v' w) = promises w).
    { intros v'. unfold after_collision. destruct (bool_decide _); auto. }
    assert (Hawait : forall v',
               await (CachedDynamoRepository.getFromCache this key
                        (after_collision p c v' w)) (after_collision p c v' w)
               = Some (inr (Some c))).
    { intros v'. destruct (Hframe v') as (Hc' & Hp').
      rewrite (getFromCache_frame this key w _ Hc'), Hk.
      unfold await. now rewrite Hp', Hp. }
    split; [apply Hadd|]. split; [apply Hframe|].
    split.
    { unfold after_collision. destruct (decide (Some c = v)) as [Heq|Hneq].
      - rewrite !bool_decide_eq_true_2 by exact Heq. now rewrite app_nil_r.
      - rewrite !bool_decide_eq_false_2 by exact Hneq. reflexivity. }
    split.
    { destruct (Hframe v) as (Hc' & Hp').
      assert (Hk' : CachedDynamoRepository.getFromCache this key
                      (after_collision p c v w) = Some p).
      { rewrite (getFromCache_frame this key w _ Hc'). exact Hk. }
      assert (Hpp : promises (after_collision p c v w) !! p
                    = Some (Fulfilled (Some c))) by now rewrite Hp'.
      destruct (cache_run_sticky this steps key p (Fulfilled (Some c))
                  (after_collision p c v w) Hk' Hpp I) as (H1 & H2 & _).
      split; assumption. }
    split.
    { intros He. unfold CachedDynamoRepository.addToCache,
        CachedDynamoRepository.search_next.
      rewrite He, Hadd, Hawait. split; reflexivity. }
    simpl. rewrite Hadd, Hawait. reflexivity.
  - intros Hp.
    assert (Ha : await (CachedDynamoRepository.getFromCache this key w) w
                 = Some (inr None)).
    { rewrite Hk. unfold await. now rewrite Hp. }
    eexists. split; [apply (addToCacheByKey_installs this key v w Ha)|].
    split; [|split; [|reflexivity]].
    + rewrite getFromCache_lookup2. simpl. rewrite lookup2_install.
      now rewrite decide_True.
    + simpl. apply list_lookup_middle. reflexivity.
Qed.

Lemma C4_witness :
  CachedDynamoRepository.addToCacheByKey Fixture.repository Fixture.entityKey
    (Some 0) Fixture.worldHit
  = Some (None, emit (cacheKeyInUse (Some 0) (Some 0)) Fixture.worldHit) /\
  exists w1,
    CachedDynamoRepository.addToCacheByKey Fixture.repository Fixture.entityKey
      (Some 0) Fixture.worldMiss = Some (None, w1) /\
    CachedDynamoRepository.getFromCache Fixture.repository Fixture.entityKey w1
      = Some 1 /\
    promises w1 !! 1 = Some (Fulfilled (Some 0)) /\
    events w1 = [].
Proof.
  split.
  - exact (proj1 (proj1 (C4_collision_keeps_cached_entity Fixture.repository
                           Fixture.entityKey 0 3 (Some 0) Fixture.worldHit
                           0 0 [] [] [] [] eq_refl) eq_refl)).
  - exact (proj2 (C4_collision_keeps_cached_entity Fixture.repository
                    Fixture.entityKey 0 0 (Some 0) Fixture.worldMiss
                    0 0 [] [] [] [] eq_refl) eq_refl).
Defined.

(** C4 as the specification words it does not hold for a cached miss: the
    key holds a promise resolved to [undefined]; an entity offered for the
    key replaces it (the next read of the cache gives the entity) and no
    [cacheKeyInUse] notification is emitted. *)
Lemma C4_counterexample :
  await (CachedDynamoRepository.getFromCache Fixture.repository Fixture.entityKey
           Fixture.worldMiss) Fixture.worldMiss = Some (inr None) /\
  exists w1,
    CachedDynamoRepository.addToCacheByKey Fixture.repository Fixture.entityKey
      (Some 0) Fixture.worldMiss = Some (None, w1) /\
    await (CachedDynamoRepository.getFromCache Fixture.repository Fixture.entityKey w1) w1
      = Some (inr (Some 0)) /\
    CachedDynamoRepository.getFromCache Fixture.repository Fixture.entityKey w1
      <> CachedDynamoRepository.getFromCache Fixture.repository Fixture.entityKey
           Fixture.worldMiss /\
    events w1 = [].
Proof.
  split; [reflexivity|].
  eexists. split; [reflexivity|].
  split; [reflexivity|]. split; [discriminate|reflexivity].
Qed.

(** ** The tracked table *)

Section JsMapFacts.
Context {K V : Type} `{EqDecision K}.
Implicit Types m : list (K * V).

Lemma jm_get_set_eq (k : K) (v : V) m : jm_get k (jm_set k v m) = Some v.
Proof.
  induction m as [|[k' v'] m IH]; simpl.
  - now rewrite decide_True.
  - destruct (decide (k' = k)) as [->|Hne]; simpl.
    + now rewrite decide_True.
    + now rewrite decide_False.
Qed.

Lemma jm_get_set_ne (k k' : K) (v : V) m :
  k <> k' -> jm_get k' (jm_set k v m) = jm_get k' m.
Proof.
  intros Hne. induction m as [|[k0 v0] m IH]; simpl.
  - now rewrite decide_False.
  - destruct (decide (k0 = k)) as [->|Hk]; simpl.
    + now rewrite !decide_False.
    + destruct (decide (k0 = k')); [reflexivity|exact IH].
Qed.

Lemma jm_get_None_notin (k : K) m : jm_get k m = None <-> ~ In k (map fst m).
Proof.
  induction m as [|[k0 v0] m IH]; simpl.
  - tauto.
  - destruct (decide (k0 = k)) as [->|Hk].
    + split; [discriminate|]. intros Hn. destruct Hn. now left.
    + rewrite IH. tauto.
Qed.

Lemma jm_set_keys (k : K) (v : V) m :
  map fst (jm_set k v m)
  = if jm_has k m then map fst m else map fst m ++ [k].
Proof.
  unfold jm_has. induction m as [|[k0 v0] m IH]; simpl; [reflexivity|].
  destruct (decide (k0 = k)) as [->|Hk]; simpl; [reflexivity|].
  rewrite IH. destruct (jm_get k m); reflexivity.
Qed.

Lemma jm_delete_keys_notin (k : K) m :
  List.NoDup (map fst m) -> ~ In k (map fst (jm_delete k m)).
Proof.
  induction m as [|[k0 v0] m IH]; simpl; intros Hnd; [tauto|].
  inversion Hnd as [|? ? Hnotin Hnd']; subst.
  destruct (decide (k0 = k)) as [->|Hk]; [exact Hnotin|].
  simpl. intros [?|Hin]; [contradiction|]. now apply IH.
Qed.

Lemma jm_delete_keys_sub (k k' : K) m :
  In k' (map fst (jm_delete k m)) -> In k' (map fst m).
Proof.
  induction m as [|[k0 v0] m IH]; simpl; [tauto|].
  destruct (decide (k0 = k)); simpl; [now right|].
  intros [?|Hin]; [now left|right; now apply IH].
Qed.

Lemma jm_delete_NoDup (k : K) m :
  List.NoDup (map fst m) -> List.NoDup (map fst (jm_delete k m)).
Proof.
  induction m as [|[k0 v0] m IH]; simpl; intros Hnd; [constructor|].
  inversion Hnd as [|? ? Hnotin Hnd']; subst.
  destruct (decide (k0 = k)); [exact Hnd'|].
  simpl. constructor; [|now apply IH].
  intros Hin. apply Hnotin. eapply jm_delete_keys_sub, Hin.
Qed.

Lemma jm_set_NoDup (k : K) (v : V) m :
  List.NoDup (map fst m) -> List.NoDup (map fst (jm_set k v m)).
Proof.
  intros Hnd. rewrite jm_set_keys. unfold jm_has.
  destruct (jm_get k m) eqn:Hg; [exact Hnd|].
  apply jm_get_None_notin in Hg.
  apply NoDup_ListNoDup, NoDup_app. repeat split.
  - now apply NoDup_ListNoDup.
  - intros x Hx Hx'. apply list_elem_of_In in Hx.
    apply list_elem_of_singleton in Hx'. subst. contradiction.
  - apply NoDup_singleton.
Qed.
End JsMapFacts.

Lemma wf_tracked_set (e : eref) (v : TrackedEntry) (t : list (eref * TrackedEntry)) :
  wf_tracked t -> tentity v = e -> wf_tracked (jm_set e v t).
Proof.
  intros [Hnd Hall] Hv. split; [now apply jm_set_NoDup|].
  induction t as [|[k0 v0] t IH]; simpl.
  - constructor; [exact Hv|constructor].
  - apply Forall_cons in Hall as [Hhd Htl].
    apply List.NoDup_cons_iff in Hnd as [_ Hnd].
    destruct (decide (k0 = e)) as [Hk|Hk]; constructor; simpl; auto.
    congruence.
Qed.

Lemma wf_tracked_delete (e : eref) (t : list (eref * TrackedEntry)) :
  wf_tracked t -> wf_tracked (jm_delete e t).
Proof.
  intros [Hnd Hall]. split; [now apply jm_delete_NoDup|].
  clear Hnd. induction t as [|[k0 v0] t IH]; simpl; [constructor|].
  apply Forall_cons in Hall as [Hhd Htl].
  destruct (decide (k0 = e)); [exact Htl|]. constructor; auto.
Qed.

(** ** Re-association of batch reads *)

Section Collect.
Context {Content : Type}.
Variable this : Repository Content.
Variable keys : list keyobj.

Lemma filed_under_later (k : option nat) (items : list obj) :
  existsb (fun it => bool_decide (filed_under this keys it = Some k)) items = false ->
  forall item, In item items -> filed_under this keys item <> Some k.
Proof.
  intros Hnone item Hin Hf.
  assert (Hex : existsb (fun it => bool_decide (filed_under this keys it = Some k)) items
                = true).
  { apply existsb_exists. exists item. split; [exact Hin|].
    now apply bool_decide_eq_true_2. }
  congruence.
Qed.

(** The loop of [getList] over the items of the response: one new entity
    per item; under each key object the last entity that is filed under
    it. *)
Lemma getList_collect_files (items : list obj) :
  (forall item, In item items -> filed_under this keys item <> None) ->
  forall (result : list (option nat * eref)) (w : World Content),
  exists result' w1,
    DynamoRepository.getList_collect this keys items result w = (inr result', w1) /\
    next_entity w1 = next_entity w + length items /\
    (calls w1 = calls w /\ tracked w1 = tracked w /\ cache w1 = cache w /\
     promises w1 = promises w /\ events w1 = events w) /\
    (forall e, e < next_entity w -> heap w1 e = heap w e) /\
    (forall i item, items !! i = Some item ->
       heap w1 (next_entity w + i) = unMarshal (config this) item) /\
    (forall i item k, items !! i = Some item ->
       filed_under this keys item = Some k ->
       exists j item',
         i <= j /\ items !! j = Some item' /\
         filed_under this keys item' = Some k /\
         jm_get k result' = Some (next_entity w + j) /\
         forall j' item'', j < j' -> items !! j' = Some item'' ->
                           filed_under this keys item'' <> Some k) /\
    (forall k, (forall item, In item items -> filed_under this keys item <> Some k) ->
       jm_get k result' = jm_get k result).
Proof.
  induction items as [|item items IH]; intros Hok result w.
  - exists result, w. simpl. rewrite Nat.add_0_r.
    split; [reflexivity|]. split; [reflexivity|]. split; [auto|].
    split; [auto|]. split; [intros i it Hi; discriminate|].
    split; [intros i it k Hi; discriminate|]. auto.
  - cbn [DynamoRepository.getList_collect].
    destruct (alloc (unMarshal (config this) item) w) as [e0 w0] eqn:Ea.
    unfold alloc in Ea. injection Ea as He0 Hw0. subst e0.
    assert (Hn0 : next_entity w0 = S (next_entity w)) by (now rewrite <- Hw0).
    assert (Hh0 : forall x, heap w0 x =
              if decide (x = next_entity w)
              then unMarshal (config this) item else heap w x)
      by (now rewrite <- Hw0).
    assert (Hf0 : calls w0 = calls w /\ tracked w0 = tracked w /\
                  cache w0 = cache w /\ promises w0 = promises w /\
                  events w0 = events w) by (now rewrite <- Hw0).
    clear Hw0.
    assert (Hhead : filed_under this keys item <> None) by (apply Hok; now left).
    unfold filed_under in Hhead.
    destruct (getEntityKey (keySchema (config this))
                (marshal (config this) (unMarshal (config this) item)))
      as [ek|] eqn:Hek; [clear Hhead|now destruct Hhead].
    rewrite Hh0, decide_True by reflexivity. rewrite Hek.
    set (k0 := fst <$> List.find (fun k => sameKey (snd k) ek) keys).
    assert (Hfiled : filed_under this keys item = Some k0).
    { unfold filed_under. now rewrite Hek. }
    destruct (IH (fun it Hin => Hok it (or_intror Hin))
                 (jm_set k0 (next_entity w) result) w0)
      as (result' & w1 & Hcol & Hnext & Hframe & Hold & Hnew & Hlast & Hrest).
    rewrite Hn0 in Hnext, Hnew, Hlast.
    exists result', w1. split; [exact Hcol|].
    split; [cbn [length]; lia|].
    split.
    { destruct Hframe as (? & ? & ? & ? & ?). destruct Hf0 as (? & ? & ? & ? & ?).
      repeat split; congruence. }
    split.
    { intros e He. rewrite Hold by lia. rewrite Hh0.
      now rewrite decide_False by lia. }
    split.
    { intros [|i] it Hi; simpl in Hi.
      - injection Hi as <-. rewrite Nat.add_0_r.
        rewrite Hold by lia. rewrite Hh0. now rewrite decide_True.
      - replace (next_entity w + S i) with (S (next_entity w) + i) by lia.
        now apply Hnew. }
    split.
    { intros [|i] it k Hi Hk; simpl in Hi.
      - injection Hi as <-. assert (k = k0) by congruence. subst k.
        destruct (existsb (fun it => bool_decide (filed_under this keys it = Some k0))
                    items) eqn:Ex.
        + apply existsb_exists in Ex as (it' & Hin & Hit').
          apply bool_decide_eq_true_1 in Hit'.
          apply list_elem_of_In, list_elem_of_lookup_1 in Hin as [i' Hi'].
          destruct (Hlast i' it' k0 Hi' Hit')
            as (j & item' & Hle & Hj & Hfj & Hget & Hafter).
          exists (S j), item'. split; [lia|]. split; [exact Hj|].
          split; [exact Hfj|].
          split; [rewrite Hget; f_equal; lia|].
          intros [|j'] it'' Hlt Hj'; [lia|]. simpl in Hj'.
          apply (Hafter j' it''); [lia|exact Hj'].
        + pose proof (filed_under_later k0 items Ex) as Hnone.
          exists 0, item. split; [lia|]. split; [reflexivity|].
          split; [exact Hfiled|].
          split; [rewrite (Hrest k0 Hnone), jm_get_set_eq, Nat.add_0_r; reflexivity|].
          intros [|j'] it'' Hlt Hj'; [lia|]. simpl in Hj'.
          apply Hnone, list_elem_of_In. eapply list_elem_of_lookup_2, Hj'.
      - destruct (Hlast i it k Hi Hk)
          as (j & item' & Hle & Hj & Hfj & Hget & Hafter).
        exists (S j), item'. split; [lia|]. split; [exact Hj|].
        split; [exact Hfj|].
        split; [rewrite Hget; f_equal; lia|].
        intros [|j'] it'' Hlt Hj'; [lia|]. simpl in Hj'.
        apply (Hafter j' it''); [lia|exact Hj']. }
    intros k Hnone.
    rewrite (Hrest k (fun it Hin => Hnone it (or_intror Hin))).
    apply jm_get_set_ne. intros ->. apply (Hnone item); [now left|exact Hfiled].
Qed.

(** Every entry of the map the loop builds is one of the new entities,
    under the key object its item is filed under. *)
Lemma getList_collect_entries (items : list obj) (w w1 : World Content)
    (result : list (option nat * eref)) :
  (forall item, In item items -> filed_under this keys item <> None) ->
  DynamoRepository.getList_collect this keys items [] w = (inr result, w1) ->
  forall k e, jm_get k result = Some e ->
    exists i item,
      items !! i = Some item /\ e = next_entity w + i /\
      filed_under this keys item = Some k /\
      forall j item', i < j -> items !! j = Some item' ->
                      filed_under this keys item' <> Some k.
Proof.
  intros Hok Hcol k e Hget.
  destruct (getList_collect_files items Hok [] w)
    as (result' & w1' & Hcol' & _ & _ & _ & _ & Hlast & Hrest).
  rewrite Hcol in Hcol'. injection Hcol' as <- <-.
  destruct (existsb (fun it => bool_decide (filed_under this keys it = Some k)) items)
    eqn:Ex.
  - apply existsb_exists in Ex as (it & Hin & Hit).
    apply bool_decide_eq_true_1 in Hit.
    apply list_elem_of_In, list_elem_of_lookup_1 in Hin as [i Hi].
    destruct (Hlast i it k Hi Hit) as (j & item' & _ & Hj & Hfj & Hgetj & Hafter).
    exists j, item'. split; [exact Hj|]. split; [congruence|].
    split; [exact Hfj|exact Hafter].
  - rewrite (Hrest k (filed_under_later k items Ex)) in Hget. discriminate.
Qed.

(** What [filed_under] finds: the first requested key that is [sameKey]
    to the derived key of the entity. *)
Lemma filed_under_first (item : obj) (k : option nat) :
  filed_under this keys item = Some k ->
  exists ek,
    getEntityKey (keySchema (config this))
      (marshal (config this) (unMarshal (config this) item)) = Some ek /\
    match k with
    | Some a =>
        exists pre key post,
          keys = pre ++ key :: post /\ fst key = a /\
          sameKey (snd key) ek = true /\
          forall key', In key' pre -> sameKey (snd key') ek = false
    | None => forall key, In key keys -> sameKey (snd key) ek = false
    end.
Proof.
  unfold filed_under.
  destruct (getEntityKey _ _) as [ek|]; [|discriminate].
  intros Hk. injection Hk as <-. exists ek. split; [reflexivity|].
  induction keys as [|key0 keys' IHk]; simpl.
  - intros key [].
  - destruct (sameKey (snd key0) ek) eqn:Hs; simpl.
    + exists [], key0, keys'. repeat split; auto. intros key' [].
    + destruct (List.find (fun k => sameKey (snd k) ek) keys') as [key|] eqn:Hf;
        simpl in *.
      * destruct IHk as (pre & key1 & post & -> & Ha & Hsame & Hpre).
        exists (key0 :: pre), key1, post. repeat split; auto.
        intros key' [<-|Hin]; auto.
      * intros key' [<-|Hin]; auto.
Qed.
End Collect.

(** C7 (as the code has it). [sameKey(key1, key2)] holds exactly when every
    attribute named in [key1] is strictly equal ([===]: primitives by
    value, objects by reference) to the attribute of that name in [key2],
    a missing attribute reading as [undefined]; attributes that only
    [key2] has are not looked at. For two keys with the same attribute
    names and scalar values it is the deep value equality of the keys, and
    symmetric. [uniqueKeys] keeps, in order, each requested key that is not
    [sameKey] to one kept before it, so every requested key has a kept key
    it is [sameKey] to; [getList] sends [uniqueKeys] of its keys to the
    store and files each returned entity under the first requested key
    that is [sameKey] to the entity's derived key (under [undefined] when
    there is none): for every item of the response, whatever their
    number, the map holds under that key object the new entity of the
    last item filed under it, which is the item's own entity when no
    later item is filed under the same key object. *)
Theorem C7_sameKey_strict_on_first_key
    {Content : Type} (this : Repository Content)
    (key1 key2 : obj) (arrArg : list obj) (keys : list keyobj)
    (item ek : obj) (items : list obj) (w : World Content) :
  (sameKey key1 key2 = true <->
   forall k, In k (obj_keys key1) ->
             strict_eq (prop key2 k) (prop key1 k) = true) /\
  ((forall k, In k (obj_keys key1) <-> In k (obj_keys key2)) ->
   (forall k, In k (obj_keys key1) -> scalar (prop key1 k) = true) ->
   sameKey key1 key2 = spec_keyEqual key1 key2 /\
   sameKey key2 key1 = sameKey key1 key2) /\
  (fresh_keys (uniqueKeys arrArg) /\
   (forall key, In key arrArg ->
      existsb (fun k2 => sameKey key k2) (uniqueKeys arrArg) = true) /\
   (forall key, In key (uniqueKeys arrArg) -> In key arrArg)) /\
  DynamoRepository.getList_request this keys =
    dc_batchGet (tableName (config this)) (uniqueKeys (map snd keys)) /\
  (getEntityKey (keySchema (config this))
     (marshal (config this) (unMarshal (config this) item)) = Some ek ->
   fst (DynamoRepository.getList_collect this keys [item] [] w) =
     inr [(fst <$> List.find (fun k => sameKey (snd k) ek) keys, next_entity w)]) /\
  ((forall it, In it items -> filed_under this keys it <> None) ->
   exists result w1,
     DynamoRepository.getList_collect this keys items [] w = (inr result, w1) /\
     (forall i it dk,
        items !! i = Some it ->
        getEntityKey (keySchema (config this))
          (marshal (config this) (unMarshal (config this) it)) = Some dk ->
        let k := fst <$> List.find (fun k => sameKey (snd k) dk) keys in
        (exists j it',
           i <= j /\ items !! j = Some it' /\
           filed_under this keys it' = Some k /\
           jm_get k result = Some (next_entity w + j) /\
           heap w1 (next_entity w + j) = unMarshal (config this) it' /\
           forall j' it'', j < j' -> items !! j' = Some it'' ->
                           filed_under this keys it'' <> Some k) /\
        ((forall j' it'', i < j' -> items !! j' = Some it'' ->
                          filed_under this keys it'' <> Some k) ->
         jm_get k result = Some (next_entity w + i) /\
         heap w1 (next_entity w + i) = unMarshal (config this) it)) /\
     (forall k e, jm_get k result = Some e ->
        exists i it,
          items !! i = Some it /\ e = next_entity w + i /\
          filed_under this keys it = Some k)).
Proof.
  split; [apply sameKey_spec|].
  split; [apply sameKey_scalar_keys|].
  split; [|split; [reflexivity|split]].
  - change (uniqueKeys arrArg) with (uniqueKeys_from [] arrArg).
    split; [|split].
    + apply uniqueKeys_from_fresh. intros pre key post Heq.
      destruct pre; discriminate.
    + intros key Hin. apply uniqueKeys_from_covers. now right.
    + intros key Hin. apply uniqueKeys_from_sub in Hin as [[]|Hin]. exact Hin.
  - intros Hek. simpl.
    destruct (decide (next_entity w = next_entity w)) as [_|Hne]; [|now destruct Hne].
    rewrite Hek. reflexivity.
  - intros Hok.
    destruct (getList_collect_files this keys items Hok [] w)
      as (result & w1 & Hcol & _ & _ & _ & Hheap & Hlast & _).
    exists result, w1. split; [exact Hcol|]. split.
    + intros i it dk Hi Hdk k.
      assert (Hf : filed_under this keys it = Some k).
      { unfold filed_under. now rewrite Hdk. }
      destruct (Hlast i it k Hi Hf) as (j & it' & Hle & Hj & Hfj & Hget & Hafter).
      split.
      * exists j, it'. repeat split; auto.
      * intros Hnone.
        assert (j = i).
        { destruct (decide (j = i)) as [|Hne]; [assumption|].
          exfalso. apply (Hnone j it'); [lia|exact Hj|exact Hfj]. }
        subst j. split; [exact Hget|]. now apply Hheap.
    + intros k e Hget.
      destruct (getList_collect_entries this keys items w w1 result Hok Hcol k e Hget)
        as (i & it & Hi & He & Hf & _).
      exists i, it. auto.
Qed.

Lemma C7_witness :
  sameKey Fixture.entityKey Fixture.entityKey
    = spec_keyEqual Fixture.entityKey Fixture.entityKey /\
  fst (DynamoRepository.getList_collect Fixture.repository
         [(7, Fixture.entityKey)] [Fixture.item "entityId" true] []
         Fixture.world0)
    = inr [(Some 7, 3)] /\
  exists result w1,
    DynamoRepository.getList_collect Fixture.repository
      [(7, Fixture.entityKey); (8, [("id", VStr "secondEntityId")])]
      [Fixture.item "entityId" true; Fixture.item "secondEntityId" true] []
      Fixture.world0 = (inr result, w1) /\
    jm_get (Some 8) result = Some 4.
Proof.
  pose proof (C7_sameKey_strict_on_first_key Fixture.repository
                Fixture.entityKey Fixture.entityKey []
                [(7, Fixture.entityKey)] (Fixture.item "entityId" true)
                Fixture.entityKey [] Fixture.world0)
    as (_ & Hscalar & _ & _ & Hcollect & _).
  pose proof (C7_sameKey_strict_on_first_key Fixture.repository
                Fixture.entityKey Fixture.entityKey []
                [(7, Fixture.entityKey); (8, [("id", VStr "secondEntityId")])]
                (Fixture.item "entityId" true) Fixture.entityKey
                [Fixture.item "entityId" true; Fixture.item "secondEntityId" true]
                Fixture.world0)
    as (_ & _ & _ & _ & _ & Hitems).
  split; [|split].
  - apply Hscalar.
    + intros k. reflexivity.
    + intros k [<-|[]]. reflexivity.
  - apply Hcollect. reflexivity.
  - destruct Hitems as (result & w1 & Hcol & Hfiled & _).
    { intros it [<-|[<-|[]]]; discriminate. }
    exists result, w1. split; [exact Hcol|].
    refine (proj1 (proj2 (Hfiled 1 (Fixture.item "secondEntityId" true)
                            [("id", VStr "secondEntityId")] eq_refl eq_refl) _)).
    intros [|[|j']] it'' Hlt Hj'; try lia. discriminate.
Defined.

(** C7 as the specification words it does not hold: an attribute that only
    the second key has is ignored, so the comparison is not symmetric, and
    two object values with equal contents at different addresses are
    different. *)
Lemma C7_counterexample :
  let k1 := [("id", VStr "a")] in
  let k2 := [("id", VStr "a"); ("range", VNum 1)] in
  let b1 := [("id", VObj 1 [("0", VNum 97)])] in
  let b2 := [("id", VObj 2 [("0", VNum 97)])] in
  (sameKey k1 k2 = true /\ spec_keyEqual k1 k2 = false) /\
  (sameKey k1 k2 = true /\ sameKey k2 k1 = false) /\
  (sameKey b1 b2 = false /\ spec_keyEqual b1 b2 = true).
Proof. repeat split. Qed.

(** ** The unit of work *)

Section Flush.
Context {Content : Type} `{Serializable Content}.
Variable this : Repository Content.
Implicit Types w : World Content.

Lemma dispatch_one_entity (t : TrackedEntry) w :
  op_entity (fst (ManagedDynamoRepository.dispatch_one this t w)) = tentity t.
Proof.
  unfold ManagedDynamoRepository.dispatch_one, ManagedDynamoRepository.updateItem,
    ManagedDynamoRepository.deleteItem, ManagedDynamoRepository.createItem.
  destruct (action t); simpl; try reflexivity.
  - destruct (ManagedDynamoRepository.entityHasChanged _ _) as [[|]|]; reflexivity.
  - destruct (getEntityKey _ _); reflexivity.
Qed.

(** Dispatching an operation reads the heap and the tracked table, and
    writes the two logs only. *)
Lemma dispatch_one_frame (t : TrackedEntry) w :
  let w1 := snd (ManagedDynamoRepository.dispatch_one this t w) in
  heap w1 = heap w /\ tracked w1 = tracked w /\ cache w1 = cache w /\
  promises w1 = promises w /\
  calls w1 = calls w ++ requests [fst (ManagedDynamoRepository.dispatch_one this t w)].
Proof.
  unfold ManagedDynamoRepository.dispatch_one, ManagedDynamoRepository.updateItem,
    ManagedDynamoRepository.deleteItem, ManagedDynamoRepository.createItem, requests.
  destruct (action t); simpl; try (repeat split; reflexivity).
  - destruct (ManagedDynamoRepository.entityHasChanged _ _) as [[|]|]; simpl;
      rewrite ?app_nil_r; repeat split; reflexivity.
  - destruct (getEntityKey _ _); simpl; rewrite ?app_nil_r; repeat split; reflexivity.
Qed.

Lemma dispatch_one_ext (t : TrackedEntry) w w' :
  heap w' = heap w -> tracked w' = tracked w ->
  fst (ManagedDynamoRepository.dispatch_one this t w')
  = fst (ManagedDynamoRepository.dispatch_one this t w).
Proof.
  intros Hh Ht.
  unfold ManagedDynamoRepository.dispatch_one, ManagedDynamoRepository.updateItem,
    ManagedDynamoRepository.deleteItem, ManagedDynamoRepository.createItem,
    ManagedDynamoRepository.entityHasChanged.
  rewrite Hh, Ht.
  destruct (action t); simpl; try reflexivity.
  - destruct (jm_get _ _); [|reflexivity].
    destruct (negb _); reflexivity.
  - destruct (getEntityKey _ _); reflexivity.
Qed.

Lemma dispatch_spec (entries : list TrackedEntry) (acc : list FlushOp) w :
  let ops := map (fun t => fst (ManagedDynamoRepository.dispatch_one this t w)) entries in
  let r := ManagedDynamoRepository.dispatch this entries acc w in
  fst r = acc ++ ops /\
  heap (snd r) = heap w /\ tracked (snd r) = tracked w /\
  calls (snd r) = calls w ++ requests ops.
Proof.
  revert acc w. induction entries as [|t entries IH]; intros acc w; simpl.
  - rewrite !app_nil_r. auto.
  - destruct (ManagedDynamoRepository.dispatch_one this t w) as [op w1] eqn:E.
    pose proof (dispatch_one_frame t w) as (Hh & Ht & _ & _ & Hc).
    rewrite E in Hh, Ht, Hc. simpl in Hh, Ht, Hc.
    destruct (IH (acc ++ [op]) w1) as (Hops & Hh1 & Ht1 & Hc1).
    assert (Hext : map (fun t0 => fst (ManagedDynamoRepository.dispatch_one this t0 w1)) entries
                   = map (fun t0 => fst (ManagedDynamoRepository.dispatch_one this t0 w)) entries).
    { apply map_ext. intros t0. now apply dispatch_one_ext. }
    rewrite Hext in Hops, Hc1.
    split; [rewrite Hops, <- app_assoc; reflexivity|].
    split; [congruence|]. split; [congruence|].
    rewrite Hc1, Hc, <- app_assoc. f_equal.
    unfold requests. simpl. destruct (op_request op); reflexivity.
Qed.

Lemma flush_await_frame (fw : Flush * World Content) :
  processed (fst (ManagedDynamoRepository.flush_await fw)) = processed (fst fw) /\
  calls (snd (ManagedDynamoRepository.flush_await fw)) = calls (snd fw) /\
  tracked (snd (ManagedDynamoRepository.flush_await fw)) = tracked (snd fw) /\
  heap (snd (ManagedDynamoRepository.flush_await fw)) = heap (snd fw).
Proof.
  destruct fw as [f w]. unfold ManagedDynamoRepository.flush_await.
  destruct (outcome f); [auto|].
  destruct (first_rejected (processed f)); [auto|].
  destruct (all_fulfilled (processed f)); auto.
Qed.

(** [flush] dispatches one operation per tracked entry, in the order of
    the table, and hands exactly the requests of these operations to the
    store. *)
Lemma flush_spec w :
  processed (fst (ManagedDynamoRepository.flush this w))
  = map (fun t => fst (ManagedDynamoRepository.dispatch_one this t w))
        (jm_values (tracked w)) /\
  calls (snd (ManagedDynamoRepository.flush this w))
  = calls w ++ requests (processed (fst (ManagedDynamoRepository.flush this w))) /\
  tracked (snd (ManagedDynamoRepository.flush this w)) = tracked w.
Proof.
  unfold ManagedDynamoRepository.flush.
  pose proof (dispatch_spec (jm_values (tracked w)) [] w) as (Hops & Hh & Ht & Hc).
  destruct (ManagedDynamoRepository.dispatch this (jm_values (tracked w)) [] w)
    as [ops w1].
  simpl in Hops, Hh, Ht, Hc.
  destruct (flush_await_frame ({| processed := ops; outcome := None |}, w1))
    as (Hp & Hcalls & Htr & _).
  cbn [fst snd processed] in Hp, Hcalls, Htr.
  rewrite Hp, Hcalls, Htr, Hops, Hc. auto.
Qed.

(** The operations for one entity: the one of its entry, if it has one. *)
Lemma ops_for_tracked (e : eref) (t : list (eref * TrackedEntry)) w :
  wf_tracked t ->
  ops_for e (map (fun t' => fst (ManagedDynamoRepository.dispatch_one this t' w))
                 (jm_values t))
  = match jm_get e t with
    | Some te => [fst (ManagedDynamoRepository.dispatch_one this te w)]
    | None => []
    end.
Proof.
  intros [Hnd Hall]. unfold ops_for, jm_values.
  induction t as [|[k0 v0] t IH]; simpl; [reflexivity|].
  apply List.NoDup_cons_iff in Hnd as [Hnotin Hnd'].
  apply Forall_cons in Hall as [Hhd Htl]. simpl in Hhd, Hnotin.
  rewrite dispatch_one_entity, Hhd.
  destruct (decide (k0 = e)) as [->|Hk].
  - rewrite bool_decide_eq_true_2 by reflexivity.
    rewrite (IH Hnd' Htl).
    apply jm_get_None_notin in Hnotin. now rewrite Hnotin.
  - rewrite bool_decide_eq_false_2 by exact Hk. now apply IH.
Qed.
End Flush.

(** A request of an operation for one entity is a request of the flush. *)
Lemma requests_In (ops : list FlushOp) (op : FlushOp) (c : call) :
  In op ops -> op_request op = Some c -> In c (requests ops).
Proof.
  intros Hin Hreq. unfold requests. apply list_elem_of_In, list_elem_of_omap.
  exists op. split; [now apply list_elem_of_In|exact Hreq].
Qed.

Lemma ops_for_In (e : eref) (ops : list FlushOp) (op : FlushOp) :
  In op (ops_for e ops) -> In op ops.
Proof. unfold ops_for. intros Hin. now apply List.filter_In in Hin. Qed.

(** What [flush] hands to the store for one entity reaches the store. *)
Lemma flush_hands_over {Content : Type} `{Serializable Content}
    (this : Repository Content) (w : World Content) (e : eref) (op : FlushOp)
    (c : call) :
  ops_for e (processed (fst (ManagedDynamoRepository.flush this w))) = [op] ->
  op_request op = Some c ->
  In c (calls (snd (ManagedDynamoRepository.flush this w))).
Proof.
  intros Hops Hreq.
  destruct (flush_spec this w) as (_ & Hcalls & _). rewrite Hcalls.
  apply in_or_app. right. apply (requests_In _ op); [|exact Hreq].
  apply (ops_for_In e). rewrite Hops. now left.
Qed.

(** C2. An entity observed through a read is tracked as UPDATE with the
    serialized form it has at that moment. For an entity tracked as UPDATE
    with a snapshot, [flush] dispatches exactly one operation: when the
    current serialized form equals the snapshot the operation hands
    nothing to the store; when it differs the operation hands the store
    one put that carries the whole current marshalled entity. *)
Theorem C2_update_puts_only_when_changed
    {Content : Type} `{Serializable Content} (this : Repository Content)
    (w0 w : World Content) (e : eref) (snapshot : string) :
  (jm_has e (tracked w0) = false ->
   jm_get e (tracked (ManagedDynamoRepository.track (Some e) w0))
   = Some {| action := UPDATE;
             initialStatus := Some (JSON_stringify (heap w0 e));
             tentity := e |}) /\
  (wf_tracked (tracked w) ->
   jm_get e (tracked w)
   = Some {| action := UPDATE; initialStatus := Some snapshot; tentity := e |} ->
   let f := fst (ManagedDynamoRepository.flush this w) in
   calls (snd (ManagedDynamoRepository.flush this w))
   = calls w ++ requests (processed f) /\
   (JSON_stringify (heap w e) = snapshot ->
    ops_for e (processed f)
    = [{| op_action := UPDATE; op_entity := e; op_request := None;
          op_status := OpFulfilled |}] /\
    requests (ops_for e (processed f)) = []) /\
   (JSON_stringify (heap w e) <> snapshot ->
    ops_for e (processed f)
    = [{| op_action := UPDATE; op_entity := e;
          op_request := Some (dc_put (tableName (config this))
                                (marshal (config this) (heap w e)));
          op_status := OpPending |}] /\
    requests (ops_for e (processed f))
    = [dc_put (tableName (config this)) (marshal (config this) (heap w e))])).
Proof.
  split.
  - intros Hhas. unfold ManagedDynamoRepository.track. rewrite Hhas. simpl.
    apply jm_get_set_eq.
  - intros Hwf Hget f.
    destruct (flush_spec this w) as (Hops & Hcalls & _). fold f in Hops, Hcalls.
    split; [exact Hcalls|].
    rewrite Hops, (ops_for_tracked this e (tracked w) w Hwf), Hget.
    unfold ManagedDynamoRepository.dispatch_one, ManagedDynamoRepository.updateItem,
      ManagedDynamoRepository.entityHasChanged. simpl. rewrite Hget. simpl.
    split; intros Hs.
    + rewrite bool_decide_eq_true_2 by congruence. split; reflexivity.
    + rewrite bool_decide_eq_false_2 by congruence. split; reflexivity.
Qed.

Lemma C2_witness :
  let w := mutate 0 (Fixture.item "entityId" true)
             (ManagedDynamoRepository.track (Some 0) Fixture.world0) in
  requests (ops_for 0 (processed (fst (ManagedDynamoRepository.flush Fixture.repository w))))
  = [dc_put "tableName" (Fixture.item "entityId" true)] /\
  requests (ops_for 0 (processed (fst (ManagedDynamoRepository.flush Fixture.repository
                                         (ManagedDynamoRepository.track (Some 0) Fixture.world0)))))
  = [].
Proof.
  intros w.
  assert (Hwf : wf_tracked (tracked w)).
  { split; simpl; repeat constructor. intros []. }
  split.
  - refine (proj2 (proj2 (proj2 (proj2 (C2_update_puts_only_when_changed
              Fixture.repository Fixture.world0 w 0 _) Hwf eq_refl)) _)).
    vm_compute. discriminate.
  - refine (proj2 (proj1 (proj2 (proj2 (C2_update_puts_only_when_changed
              Fixture.repository Fixture.world0
              (ManagedDynamoRepository.track (Some 0) Fixture.world0) 0 _)
              Hwf eq_refl)) _)).
    reflexivity.
Defined.

(** C5. [delete(entity)] hands nothing to the store itself. On an entity
    tracked as CREATE it removes the entry, and a following [flush]
    dispatches no operation for it, so what that flush hands to the store
    holds no request for the entity. On an entity tracked with another
    action, or not tracked at all, it files the entity under DELETE, and a
    following [flush] dispatches for it one operation, whose request, a
    delete keyed by the key derived from the marshalled entity, is handed
    to the store. In both cases the store calls of the flush are the
    requests of the operations it dispatched, in order. *)
Theorem C5_delete_cancels_create_or_marks_delete
    {Content : Type} `{Serializable Content} (this : Repository Content)
    (w : World Content) (e : eref) (t : TrackedEntry) (k : obj) :
  wf_tracked (tracked w) ->
  let w' := ManagedDynamoRepository.delete (Some e) w in
  let f := fst (ManagedDynamoRepository.flush this w') in
  calls w' = calls w /\
  calls (snd (ManagedDynamoRepository.flush this w'))
  = calls w ++ requests (processed f) /\
  (jm_get e (tracked w) = Some t -> action t = CREATE ->
   jm_get e (tracked w') = None /\
   ops_for e (processed f) = [] /\
   requests (ops_for e (processed f)) = []) /\
  (jm_get e (tracked w) = None \/
   (jm_get e (tracked w) = Some t /\ action t <> CREATE) ->
   jm_get e (tracked w')
   = Some {| action := DELETE; initialStatus := None; tentity := e |} /\
   (getEntityKey (keySchema (config this)) (marshal (config this) (heap w e))
    = Some k ->
    ops_for e (processed f)
    = [{| op_action := DELETE; op_entity := e;
          op_request := Some (dc_delete (tableName (config this)) k);
          op_status := OpPending |}] /\
    requests (ops_for e (processed f))
    = [dc_delete (tableName (config this)) k] /\
    In (dc_delete (tableName (config this)) k)
       (calls (snd (ManagedDynamoRepository.flush this w'))))).
Proof.
  intros Hwf w' f.
  assert (Hcalls' : calls w' = calls w).
  { subst w'. unfold ManagedDynamoRepository.delete.
    destruct (_ && _); reflexivity. }
  split; [exact Hcalls'|].
  split.
  { destruct (flush_spec this w') as (_ & Hcalls & _).
    rewrite Hcalls, Hcalls'. reflexivity. }
  split.
  - intros Hget Hact.
    assert (Hw' : tracked w' = jm_delete e (tracked w)).
    { subst w'. unfold ManagedDynamoRepository.delete, jm_has.
      rewrite Hget. simpl. rewrite Hact. reflexivity. }
    assert (Hnone : jm_get e (tracked w') = None).
    { rewrite Hw'. apply jm_get_None_notin, jm_delete_keys_notin, Hwf. }
    split; [exact Hnone|].
    assert (Hnil : ops_for e (processed f) = []).
    { destruct (flush_spec this w') as (Hops & _). fold f in Hops.
      rewrite Hops, ops_for_tracked, Hnone; [reflexivity|].
      rewrite Hw'. now apply wf_tracked_delete. }
    split; [exact Hnil|]. rewrite Hnil. reflexivity.
  - intros Hcase.
    assert (Hw' : tracked w'
                  = jm_set e {| action := DELETE; initialStatus := None;
                                tentity := e |} (tracked w)).
    { subst w'. unfold ManagedDynamoRepository.delete, jm_has.
      destruct Hcase as [Hnone|[Hget Hact]].
      - rewrite Hnone. reflexivity.
      - rewrite Hget. simpl. destruct (action t); [now destruct Hact| |]; reflexivity. }
    assert (Hget' : jm_get e (tracked w')
                    = Some {| action := DELETE; initialStatus := None; tentity := e |}).
    { rewrite Hw'. apply jm_get_set_eq. }
    split; [exact Hget'|]. intros Hk.
    assert (Hone : ops_for e (processed f)
                   = [{| op_action := DELETE; op_entity := e;
                         op_request := Some (dc_delete (tableName (config this)) k);
                         op_status := OpPending |}]).
    { destruct (flush_spec this w') as (Hops & _). fold f in Hops.
      rewrite Hops, ops_for_tracked, Hget'.
      + unfold ManagedDynamoRepository.dispatch_one, ManagedDynamoRepository.deleteItem.
        simpl.
        assert (Hheap : heap w' = heap w).
        { subst w'. unfold ManagedDynamoRepository.delete.
          destruct (_ && _); reflexivity. }
        rewrite Hheap, Hk. reflexivity.
      + rewrite Hw'. now apply wf_tracked_set. }
    split; [exact Hone|]. split; [rewrite Hone; reflexivity|].
    exact (flush_hands_over this w' e _ _ Hone eq_refl).
Qed.

Lemma C5_witness :
  ops_for 0 (processed (fst (ManagedDynamoRepository.flush Fixture.repository
               (ManagedDynamoRepository.delete (Some 0) Fixture.worldNew)))) = [] /\
  calls (snd (ManagedDynamoRepository.flush Fixture.repository
                (ManagedDynamoRepository.delete (Some 0) Fixture.worldNew))) = [] /\
  In (dc_delete "tableName" Fixture.entityKey)
     (calls (snd (ManagedDynamoRepository.flush Fixture.repository
                    Fixture.worldDeleted))).
Proof.
  assert (HwfN : wf_tracked (tracked Fixture.worldNew)).
  { split; simpl; repeat constructor. intros []. }
  assert (HwfT : wf_tracked (tracked (ManagedDynamoRepository.track (Some 0)
                                        Fixture.world0))).
  { split; simpl; repeat constructor. intros []. }
  pose proof (C5_delete_cancels_create_or_marks_delete
                Fixture.repository Fixture.worldNew 0
                {| action := CREATE; initialStatus := None; tentity := 0 |} []
                HwfN) as (_ & Hcalls & Hcreate & _).
  pose proof (C5_delete_cancels_create_or_marks_delete
                Fixture.repository
                (ManagedDynamoRepository.track (Some 0) Fixture.world0) 0
                {| action := UPDATE;
                   initialStatus := Some (JSON_stringify (Fixture.item "entityId" false));
                   tentity := 0 |} Fixture.entityKey HwfT) as (_ & _ & _ & Hdelete).
  split; [exact (proj1 (proj2 (Hcreate eq_refl eq_refl)))|].
  split.
  - etransitivity; [exact Hcalls|reflexivity].
  - refine (proj2 (proj2 (proj2 (Hdelete _) eq_refl))).
    right. split; [reflexivity|discriminate].
Defined.

(** C9. [track(undefined)] and [delete(undefined)] leave the world as it
    is. So when the store answers a point read with no item, the promise
    resolves to [undefined], [get] returns [undefined] and tracks nothing;
    a following [flush] dispatches the operations it would have dispatched
    before the read, and hands the store their requests only. *)
Theorem C9_absent_entity_is_not_tracked
    {Content : Type} `{Serializable Content} (this : Repository Content)
    (w : World Content) (p : pref) :
  ManagedDynamoRepository.track None w = w /\
  ManagedDynamoRepository.delete None w = w /\
  (promises w !! p = Some Pending ->
   let w1 := DynamoRepository.get_settled this p (inr None) w in
   ManagedDynamoRepository.get_resumed (Some p) w1 = Some (inr None, w1) /\
   tracked w1 = tracked w /\
   processed (fst (ManagedDynamoRepository.flush this w1))
   = processed (fst (ManagedDynamoRepository.flush this w)) /\
   calls (snd (ManagedDynamoRepository.flush this w1))
   = calls w ++ requests (processed (fst (ManagedDynamoRepository.flush this w)))).
Proof.
  split; [reflexivity|]. split; [reflexivity|].
  intros Hp w1.
  assert (Hw1 : w1 = set_promises (<[p := Fulfilled None]> (promises w)) w).
  { subst w1. unfold DynamoRepository.get_settled, settle. now rewrite Hp. }
  assert (Hops : processed (fst (ManagedDynamoRepository.flush this w1))
                 = processed (fst (ManagedDynamoRepository.flush this w))).
  { destruct (flush_spec this w1) as (-> & _).
    destruct (flush_spec this w) as (-> & _).
    rewrite Hw1. simpl. apply map_ext. intros t.
    now apply dispatch_one_ext. }
  split.
  - unfold ManagedDynamoRepository.get_resumed, await. rewrite Hw1. simpl.
    rewrite list_lookup_insert_eq by (eapply lookup_lt_Some; exact Hp).
    reflexivity.
  - split; [now rewrite Hw1|]. split; [exact Hops|].
    destruct (flush_spec this w1) as (_ & -> & _).
    rewrite Hops, Hw1. reflexivity.
Qed.

Lemma C9_witness :
  let w := snd (ManagedDynamoRepository.get Fixture.repository Fixture.entityKey
                  Fixture.world0) in
  let w1 := DynamoRepository.get_settled Fixture.repository 0 (inr None) w in
  ManagedDynamoRepository.get_resumed (Some 0) w1 = Some (inr None, w1) /\
  tracked w1 = [] /\
  calls (snd (ManagedDynamoRepository.flush Fixture.repository w1))
  = [dc_get "tableName" Fixture.entityKey].
Proof.
  intros w w1.
  pose proof (proj2 (proj2 (C9_absent_entity_is_not_tracked Fixture.repository w 0))
                eq_refl) as (Hget & Htr & _ & Hcalls).
  split; [exact Hget|]. split; [exact Htr|exact Hcalls].
Defined.

(** ** Flush and the answers of the store *)

Lemma first_rejected_cons (op0 : FlushOp) (ops : list FlushOp) :
  first_rejected (op0 :: ops)
  = match op_status op0 with
    | OpRejected err => Some err
    | _ => first_rejected ops
    end.
Proof.
  unfold first_rejected. simpl.
  destruct (op_status op0) eqn:E; simpl; rewrite ?E; reflexivity.
Qed.

Lemma first_rejected_fails (ops : list FlushOp) (i : nat) (op : FlushOp) (err : error) :
  first_rejected ops = None -> ops !! i = Some op ->
  first_rejected (<[i := with_status op (OpRejected err)]> ops) = Some err.
Proof.
  revert i. induction ops as [|op0 ops IH]; intros i Hnone Hi; [discriminate|].
  rewrite first_rejected_cons in Hnone.
  destruct i as [|i]; simpl; rewrite first_rejected_cons; [reflexivity|].
  destruct (op_status op0); try discriminate; now apply IH.
Qed.

Lemma first_rejected_succeeds (ops : list FlushOp) (i : nat) (op : FlushOp) :
  first_rejected ops = None ->
  first_rejected (<[i := with_status op OpFulfilled]> ops) = None.
Proof.
  revert i. induction ops as [|op0 ops IH]; intros i Hnone; [reflexivity|].
  rewrite first_rejected_cons in Hnone.
  destruct i as [|i]; simpl; rewrite first_rejected_cons.
  - destruct (op_status op0); try discriminate; exact Hnone.
  - destruct (op_status op0); try discriminate; now apply IH.
Qed.

Section Replies.
Context {Content : Type} `{Serializable Content}.
Variable this : Repository Content.
Implicit Types (w : World Content) (f : Flush).

Lemma flush_await_waiting (fw : Flush * World Content) :
  waiting (fst (ManagedDynamoRepository.flush_await fw)).
Proof.
  destruct fw as [f w]. unfold ManagedDynamoRepository.flush_await, waiting.
  destruct (outcome f) eqn:Eo; simpl; [congruence|].
  destruct (first_rejected (processed f)) eqn:Er; simpl; [discriminate|].
  destruct (all_fulfilled (processed f)) eqn:Ea; simpl; [discriminate|].
  auto.
Qed.

(** The operation [op], pending, once the store has answered. *)
Lemma reply_pending (i : nat) (res : option error) (op : FlushOp) f w :
  processed f !! i = Some op -> is_pending op = true ->
  ManagedDynamoRepository.reply i res (f, w)
  = ManagedDynamoRepository.flush_await
      ({| processed :=
            <[i := with_status op (match res with
                                   | Some err => OpRejected err
                                   | None => OpFulfilled
                                   end)]> (processed f);
          outcome := outcome f |},
       match res with
       | Some err => emit_all (failure_events op err) w
       | None => w
       end).
Proof.
  intros Hi Hpend. unfold ManagedDynamoRepository.reply. rewrite Hi, Hpend.
  unfold failure_events, ManagedDynamoRepository.createItem_settled,
    ManagedDynamoRepository.updateItem_settled,
    ManagedDynamoRepository.deleteItem_settled.
  destruct (op_action op), res; reflexivity.
Qed.

Lemma reply_waiting (i : nat) (res : option error) (fw : Flush * World Content) :
  waiting (fst fw) -> waiting (fst (ManagedDynamoRepository.reply i res fw)).
Proof.
  destruct fw as [f w]. intros Hw. unfold ManagedDynamoRepository.reply.
  destruct (processed f !! i) as [op|]; [|exact Hw].
  destruct (is_pending op); [|exact Hw].
  destruct (match op_action op with
            | CREATE => _ | UPDATE => _ | DELETE => _ end) as [op' w1].
  apply flush_await_waiting.
Qed.

Lemma run_waiting (replies : list (nat * option error)) (fw : Flush * World Content) :
  waiting (fst fw) -> waiting (fst (ManagedDynamoRepository.run replies fw)).
Proof.
  revert fw. induction replies as [|r replies IH]; intros fw Hw; simpl.
  - exact Hw.
  - apply IH, reply_waiting, Hw.
Qed.

Lemma flush_waiting w : waiting (fst (ManagedDynamoRepository.flush this w)).
Proof.
  unfold ManagedDynamoRepository.flush.
  destruct (ManagedDynamoRepository.dispatch this _ _ _).
  apply flush_await_waiting.
Qed.

Lemma events_emit_all (evs : list event) w :
  events (emit_all evs w) = events w ++ evs.
Proof.
  revert w. induction evs as [|ev evs IH]; intros w; simpl.
  - now rewrite app_nil_r.
  - rewrite IH. simpl. now rewrite <- app_assoc.
Qed.

(** Once [flush] has returned or thrown, no answer changes that. *)
Lemma reply_settled (i : nat) (res : option error) (o : FlushOutcome)
    (fw : Flush * World Content) :
  outcome (fst fw) = Some o ->
  outcome (fst (ManagedDynamoRepository.reply i res fw)) = Some o.
Proof.
  destruct fw as [f w]. simpl. intros Ho. unfold ManagedDynamoRepository.reply.
  destruct (processed f !! i) as [op|]; [|exact Ho].
  destruct (is_pending op); [|exact Ho].
  destruct (match op_action op with
            | CREATE => _ | UPDATE => _ | DELETE => _ end) as [op' w1].
  unfold ManagedDynamoRepository.flush_await. simpl. rewrite Ho. reflexivity.
Qed.

Lemma run_settled (replies : list (nat * option error)) (o : FlushOutcome)
    (fw : Flush * World Content) :
  outcome (fst fw) = Some o ->
  outcome (fst (ManagedDynamoRepository.run replies fw)) = Some o.
Proof.
  revert fw. induction replies as [|r replies IH]; intros fw Ho; simpl.
  - exact Ho.
  - apply IH, reply_settled, Ho.
Qed.
End Replies.

(** C3 (as the code has it). While [flush] waits for the operations it
    dispatched, the first store failure of a pending operation wakes it at
    once: whatever the state of the other operations, which stay as they
    are, [flush] emits "error.flushing" after the notification of the
    operation itself and throws that error, and no later answer changes
    that. A success wakes [flush] only when it leaves every operation
    fulfilled: it then emits "flushed" and returns; otherwise it keeps
    waiting and emits nothing. *)
Theorem C3_flush_fails_on_first_error
    {Content : Type} `{Serializable Content} (this : Repository Content)
    (w : World Content) (replies later : list (nat * option error))
    (i : nat) (err : error) (op : FlushOp) :
  let fw := ManagedDynamoRepository.run replies (ManagedDynamoRepository.flush this w) in
  outcome (fst fw) = None ->
  processed (fst fw) !! i = Some op ->
  is_pending op = true ->
  (let fw' := ManagedDynamoRepository.reply i (Some err) fw in
   outcome (fst fw') = Some (FlushThrew err) /\
   processed (fst fw') = <[i := with_status op (OpRejected err)]> (processed (fst fw)) /\
   events (snd fw') = events (snd fw) ++ failure_events op err ++ [errorFlushing] /\
   outcome (fst (ManagedDynamoRepository.run later fw')) = Some (FlushThrew err)) /\
  (let fw' := ManagedDynamoRepository.reply i None fw in
   let ops' := <[i := with_status op OpFulfilled]> (processed (fst fw)) in
   processed (fst fw') = ops' /\
   (all_fulfilled ops' = true ->
    outcome (fst fw') = Some FlushReturned /\
    events (snd fw') = events (snd fw) ++ [flushed]) /\
   (all_fulfilled ops' = false ->
    outcome (fst fw') = None /\ events (snd fw') = events (snd fw))).
Proof.
  intros fw Hout Hi Hpend.
  assert (Hwait : waiting (fst fw)) by apply run_waiting, flush_waiting.
  destruct (Hwait Hout) as (Hrej & _).
  destruct fw as [f w1]. cbn [fst snd] in *.
  split.
  - rewrite (reply_pending i (Some err) op f w1 Hi Hpend).
    assert (Hthrow :
      ManagedDynamoRepository.flush_await
        ({| processed := <[i := with_status op (OpRejected err)]> (processed f);
            outcome := outcome f |}, emit_all (failure_events op err) w1)
      = ({| processed := <[i := with_status op (OpRejected err)]> (processed f);
            outcome := Some (FlushThrew err) |},
         emit errorFlushing (emit_all (failure_events op err) w1))).
    { unfold ManagedDynamoRepository.flush_await. simpl.
      rewrite Hout, (first_rejected_fails _ i op err Hrej Hi). reflexivity. }
    rewrite Hthrow. simpl.
    split; [reflexivity|]. split; [reflexivity|].
    split; [rewrite events_emit_all, <- app_assoc; reflexivity|].
    now apply run_settled.
  - rewrite (reply_pending i None op f w1 Hi Hpend).
    unfold ManagedDynamoRepository.flush_await. simpl.
    rewrite Hout, (first_rejected_succeeds _ i op Hrej).
    destruct (all_fulfilled _); simpl.
    + split; [reflexivity|]. split; [auto|discriminate].
    + split; [reflexivity|]. split; [discriminate|auto].
Qed.

Lemma C3_witness :
  let fw := ManagedDynamoRepository.flush Fixture.repository Fixture.worldTwoNew in
  events (snd (ManagedDynamoRepository.reply 0 (Some (StoreError "Repository error")) fw))
  = [errorCreating (StoreError "Repository error") 0; errorFlushing] /\
  events (snd (ManagedDynamoRepository.reply 1 None
                 (ManagedDynamoRepository.run [(0, None)] fw)))
  = [flushed].
Proof.
  intros fw. split.
  - exact (proj1 (proj2 (proj2 (proj1
      (C3_flush_fails_on_first_error Fixture.repository Fixture.worldTwoNew
         [] [] 0 (StoreError "Repository error")
         {| op_action := CREATE; op_entity := 0;
            op_request := Some (dc_put "tableName" (Fixture.item "entityId" false));
            op_status := OpPending |} eq_refl eq_refl eq_refl))))).
  - exact (proj2 (proj1 (proj2 (proj2
      (C3_flush_fails_on_first_error Fixture.repository Fixture.worldTwoNew
         [(0, None)] [] 1 (StoreError "unused")
         {| op_action := CREATE; op_entity := 1;
            op_request := Some (dc_put "tableName" (Fixture.item "secondEntityId" false));
            op_status := OpPending |} eq_refl eq_refl eq_refl))) eq_refl)).
Defined.

(** C3 as the specification words it does not hold: with two operations
    dispatched, the failure of the first makes [flush] emit
    "error.flushing" and throw while the second is still pending. *)
Lemma C3_counterexample :
  let fw := ManagedDynamoRepository.reply 0 (Some (StoreError "Repository error"))
              (ManagedDynamoRepository.flush Fixture.repository Fixture.worldTwoNew) in
  outcome (fst fw) = Some (FlushThrew (StoreError "Repository error")) /\
  In errorFlushing (events (snd fw)) /\
  is_pending <$> processed (fst fw) !! 1 = Some true.
Proof. split; [reflexivity|]. split; [right; left; reflexivity|reflexivity]. Qed.

(** C6 (the code at work). When the store fails a pending operation of a
    flush, the operation emits "error.creating" for a CREATE and
    "error.updating" for an UPDATE, with the error and the entity, before
    [flush] emits "error.flushing"; for a DELETE nothing is emitted but
    "error.flushing": no "error.deleting" notification is ever emitted for
    a store failure. *)
Theorem C6_store_failure_notifications
    {Content : Type} `{Serializable Content} (this : Repository Content)
    (w : World Content) (replies : list (nat * option error))
    (i : nat) (err : error) (op : FlushOp) :
  let fw := ManagedDynamoRepository.run replies (ManagedDynamoRepository.flush this w) in
  outcome (fst fw) = None ->
  processed (fst fw) !! i = Some op ->
  is_pending op = true ->
  events (snd (ManagedDynamoRepository.reply i (Some err) fw))
  = events (snd fw)
    ++ match op_action op with
       | CREATE => [errorCreating err (op_entity op); errorFlushing]
       | UPDATE => [errorUpdating err (op_entity op); errorFlushing]
       | DELETE => [errorFlushing]
       end.
Proof.
  intros fw Hout Hi Hpend.
  assert (Hwait : waiting (fst fw)) by apply run_waiting, flush_waiting.
  destruct (Hwait Hout) as (Hrej & _).
  destruct fw as [f w1]. cbn [fst snd] in *.
  rewrite (reply_pending i (Some err) op f w1 Hi Hpend).
  unfold ManagedDynamoRepository.flush_await. simpl.
  rewrite Hout, (first_rejected_fails _ i op err Hrej Hi). simpl.
  rewrite events_emit_all, <- app_assoc. unfold failure_events.
  destruct (op_action op); reflexivity.
Qed.

Lemma C6_witness :
  events (snd (ManagedDynamoRepository.reply 0 (Some (StoreError "Repository error"))
                 (ManagedDynamoRepository.flush Fixture.repository Fixture.worldDeleted)))
  = [errorFlushing].
Proof.
  exact (C6_store_failure_notifications Fixture.repository Fixture.worldDeleted
           [] 0 (StoreError "Repository error")
           {| op_action := DELETE; op_entity := 0;
              op_request := Some (dc_delete "tableName" Fixture.entityKey);
              op_status := OpPending |} eq_refl eq_refl eq_refl).
Defined.

(** * Further properties *)

(** ** Key derivation *)

Lemma strict_eq_refl (a : jsval) : strict_eq a a = true.
Proof.
  destruct a; simpl; auto using String.eqb_refl, Z.eqb_refl, Nat.eqb_refl.
  destruct b; reflexivity.
Qed.

Lemma prop_obj_set_eq (o : obj) (k : string) (v : jsval) :
  prop (obj_set o k v) k = v.
Proof.
  induction o as [|[k' v'] o IH]; simpl.
  - now rewrite String.eqb_refl.
  - destruct (String.eqb k' k) eqn:E; simpl; rewrite E; [reflexivity|exact IH].
Qed.

Lemma prop_obj_set_ne (o : obj) (k k' : string) (v : jsval) :
  k <> k' -> prop (obj_set o k v) k' = prop o k'.
Proof.
  intros Hne. induction o as [|[k0 v0] o IH]; simpl.
  - apply String.eqb_neq in Hne. now rewrite Hne.
  - destruct (String.eqb k0 k) eqn:E; simpl.
    + apply String.eqb_eq in E. subst k0.
      apply String.eqb_neq in Hne. now rewrite Hne.
    + destruct (String.eqb k0 k'); [reflexivity|exact IH].
Qed.

Lemma obj_set_keys (o : obj) (k k' : string) (v : jsval) :
  In k' (obj_keys (obj_set o k v)) -> k' = k \/ In k' (obj_keys o).
Proof.
  unfold obj_keys. induction o as [|[k0 v0] o IH]; simpl.
  - intros [<-|[]]. now left.
  - destruct (String.eqb k0 k); simpl; intros [<-|Hin]; auto.
    destruct (IH Hin); auto.
Qed.

Lemma getEntityKey_derives
    {Content : Type} (cfg : ITableConfig Content) (this : Repository Content)
    (entity : obj) :
  (getEntityKey (keySchema cfg) entity = None <-> new_Repository cfg = None) /\
  (new_Repository cfg = Some this ->
   exists key,
     getEntityKey (keySchema cfg) entity = Some key /\
     prop key (hashKey this) = prop entity (hashKey this) /\
     (forall rk, rangeKey this = Some rk -> truthy_string rk = true ->
                 prop key rk = prop entity rk) /\
     (forall k, In k (obj_keys key) ->
                k = hashKey this \/ rangeKey this = Some k) /\
     sameKey key entity = true).
Proof.
  unfold getEntityKey, new_Repository.
  destruct (List.find (is_type hash) (keySchema cfg)) as [hs|] eqn:Eh.
  - split; [split; discriminate|].
    intros Hthis. inversion Hthis; subst this; clear Hthis. simpl.
    set (rko := AttributeName <$> List.find (is_type range) (keySchema cfg)).
    assert (Hcases :
      forall key,
        key = match rko with
              | Some rk =>
                  if truthy_string rk
                  then obj_set (obj_set [] (AttributeName hs)
                                  (prop entity (AttributeName hs))) rk (prop entity rk)
                  else obj_set [] (AttributeName hs) (prop entity (AttributeName hs))
              | None => obj_set [] (AttributeName hs) (prop entity (AttributeName hs))
              end ->
        (forall k, In k (obj_keys key) -> prop key k = prop entity k) /\
        In (AttributeName hs) (obj_keys key) /\
        (forall rk, rko = Some rk -> truthy_string rk = true -> In rk (obj_keys key)) /\
        (forall k, In k (obj_keys key) -> k = AttributeName hs \/ rko = Some k)).
    { intros key ->. destruct rko as [rk|]; [destruct (truthy_string rk) eqn:Et|].
      - repeat split.
        + intros k Hin. apply obj_set_keys in Hin as [->|Hin].
          * apply prop_obj_set_eq.
          * apply obj_set_keys in Hin as [->|[]].
            destruct (decide (rk = AttributeName hs)) as [->|Hne].
            -- apply prop_obj_set_eq.
            -- rewrite prop_obj_set_ne by exact Hne. apply prop_obj_set_eq.
        + simpl.
          destruct (String.eqb (AttributeName hs) rk); simpl; auto.
        + intros rk' Hrk _. inversion Hrk; subst rk'. simpl.
          destruct (String.eqb (AttributeName hs) rk) eqn:E; simpl; auto.
          apply String.eqb_eq in E. auto.
        + intros k Hin. apply obj_set_keys in Hin as [->|Hin]; [now right|].
          apply obj_set_keys in Hin as [->|[]]. now left.
      - repeat split.
        + intros k [<-|[]]. simpl. now rewrite String.eqb_refl.
        + simpl. auto.
        + intros rk' Hrk Ht. inversion Hrk; subst rk'. congruence.
        + intros k [<-|[]]. now left.
      - repeat split.
        + intros k [<-|[]]. simpl. now rewrite String.eqb_refl.
        + simpl. auto.
        + discriminate.
        + intros k [<-|[]]. now left. }
    match type of Hcases with
    | forall key, key = ?body -> _ => set (derived := body) in *
    end.
    exists derived. split; [reflexivity|].
    destruct (Hcases derived eq_refl) as (Hprop & Hhash & Hrange & Hkeys).
    clearbody derived.
    split; [now apply Hprop|].
    split; [intros rk Hrk Ht; apply Hprop, (Hrange rk Hrk Ht)|].
    split; [exact Hkeys|].
    apply sameKey_spec. intros k Hin. rewrite (Hprop k Hin). apply strict_eq_refl.
  - split; [split; reflexivity|discriminate].
Qed.

(** X1. [getEntityKey] throws exactly when the key schema has no HASH
    element, that is exactly when the constructor of the repository
    throws. For a constructed repository the derived key holds the
    entity's value of the hash attribute, and of the range attribute when
    the schema has one with a non-empty name, and no other attribute; it
    is [sameKey] to the marshalled entity it was derived from. *)
Theorem X1_getEntityKey_projects_schema_attributes
    {Content : Type} (cfg : ITableConfig Content) (this : Repository Content)
    (entity : obj) :
  (getEntityKey (keySchema cfg) entity = None <-> new_Repository cfg = None) /\
  (new_Repository cfg = Some this ->
   exists key,
     getEntityKey (keySchema cfg) entity = Some key /\
     prop key (hashKey this) = prop entity (hashKey this) /\
     (forall rk, rangeKey this = Some rk -> truthy_string rk = true ->
                 prop key rk = prop entity rk) /\
     (forall k, In k (obj_keys key) ->
                k = hashKey this \/ rangeKey this = Some k) /\
     sameKey key entity = true).
Proof. exact (getEntityKey_derives cfg this entity). Qed.

Lemma X1_witness :
  exists key,
    getEntityKey Fixture.idSchema (Fixture.item "entityId" true) = Some key /\
    prop key "id" = VStr "entityId" /\
    sameKey key (Fixture.item "entityId" true) = true.
Proof.
  destruct (proj2 (X1_getEntityKey_projects_schema_attributes Fixture.cfg
                     Fixture.repository (Fixture.item "entityId" true)) eq_refl)
    as (key & Hkey & Hhash & _ & _ & Hsame).
  exists key. split; [exact Hkey|]. split; [exact Hhash|exact Hsame].
Defined.

(** ** Deduplication *)

Lemma uniqueKeys_from_fresh_id (l pre : list obj) :
  fresh_keys (pre ++ l) -> uniqueKeys_from pre l = pre ++ l.
Proof.
  revert pre. induction l as [|key l IH]; intros pre Hf.
  - now rewrite app_nil_r.
  - unfold uniqueKeys_from in *. simpl.
    rewrite (Hf pre key l eq_refl).
    change (pre ++ key :: l) with (pre ++ [key] ++ l). rewrite app_assoc.
    apply IH. now rewrite <- app_assoc.
Qed.

Lemma uniqueKeys_from_length (l pre : list obj) :
  length (uniqueKeys_from pre l) <= length pre + length l.
Proof.
  revert pre. induction l as [|key l IH]; intros pre; simpl.
  - unfold uniqueKeys_from. simpl. lia.
  - unfold uniqueKeys_from in *. simpl.
    destruct (existsb _ pre).
    + specialize (IH pre). lia.
    + specialize (IH (pre ++ [key])). rewrite length_app in IH. simpl in IH. lia.
Qed.

(** X2. [uniqueKeys] is idempotent, never returns more keys than it was
    given, and returns a list in which no key is [sameKey] to an earlier
    one unchanged; in particular a key requested twice in a row is kept
    once. *)
Theorem X2_uniqueKeys_idempotent (arrArg : list obj) (key : obj) :
  uniqueKeys (uniqueKeys arrArg) = uniqueKeys arrArg /\
  length (uniqueKeys arrArg) <= length arrArg /\
  (fresh_keys arrArg -> uniqueKeys arrArg = arrArg) /\
  uniqueKeys (key :: key :: arrArg) = uniqueKeys (key :: arrArg).
Proof.
  assert (Hfresh : fresh_keys (uniqueKeys arrArg)).
  { apply (uniqueKeys_from_fresh arrArg []). intros pre k post Heq.
    destruct pre; discriminate. }
  split; [apply (uniqueKeys_from_fresh_id (uniqueKeys arrArg) []), Hfresh|].
  split; [apply (uniqueKeys_from_length arrArg [])|].
  split; [intros Hf; apply (uniqueKeys_from_fresh_id arrArg []), Hf|].
  unfold uniqueKeys. simpl.
  assert (Hrefl : sameKey key key = true).
  { apply sameKey_spec. intros k _. apply strict_eq_refl. }
  now rewrite Hrefl.
Qed.

Lemma X2_witness :
  uniqueKeys [Fixture.entityKey; [("id", VStr "secondEntityId")]]
  = [Fixture.entityKey; [("id", VStr "secondEntityId")]].
Proof.
  apply (proj1 (proj2 (proj2 (X2_uniqueKeys_idempotent
           [Fixture.entityKey; [("id", VStr "secondEntityId")]] [])))).
  intros pre key post Heq.
  destruct pre as [|k1 [|k2 [|k3 pre]]]; inversion Heq; subst; reflexivity.
Defined.

(** ** The paginated reader, continued *)

(** X3. The generator of [search] asks the store for a page only when its
    current page is empty and the source is not exhausted: otherwise a
    call needs no fuel for fetching and its result does not depend on what
    [query] and [scan] would answer; with an empty page and an exhausted
    source it resolves to [undefined] and leaves the generator as it
    is. *)
Theorem X3_search_fetches_only_on_empty_page
    {Content : Type} (this : Repository Content) (dc dc' : DocumentClient)
    (input : ISearchInput) (g : Generator) (fuel : nat) :
  batch g <> [] \/ sourceIsEmpty g = true ->
  getItem dc' = getItem dc ->
  DynamoRepository.next this fuel dc' input g
    = DynamoRepository.next this 0 dc input g /\
  DynamoRepository.next this 0 dc input g <> None /\
  (batch g = [] -> DynamoRepository.next this 0 dc input g = Some (inr None, g)).
Proof.
  intros Hcase Hitem.
  assert (Hloop : forall f d, DynamoRepository.fetch_loop f d input g = Some (None, g)).
  { intros f d. rewrite fetch_loop_eq.
    destruct Hcase as [Hb|Hs].
    - destruct (batch g); [now destruct Hb|reflexivity].
    - rewrite Hs, andb_false_r. reflexivity. }
  unfold DynamoRepository.next. rewrite !Hloop.
  unfold DynamoRepository.get_now. rewrite Hitem.
  split; [reflexivity|]. split.
  - destruct (batch g); [discriminate|].
    destruct (DynamoRepository.needs_refetch this input) as [?|[|]]; discriminate.
  - intros ->. reflexivity.
Qed.

Lemma X3_witness :
  DynamoRepository.next Fixture.repository 7 Fixture.staleIndexClient
    Fixture.scanInput
    {| getNextBlock_state :=
         {| lastEvaluatedKey := None; blockSourceIsEmpty := true |};
       batch := []; sourceIsEmpty := true |}
  = Some (inr None,
          {| getNextBlock_state :=
               {| lastEvaluatedKey := None; blockSourceIsEmpty := true |};
             batch := []; sourceIsEmpty := true |}).
Proof.
  pose proof (X3_search_fetches_only_on_empty_page Fixture.repository
                Fixture.pagedClient Fixture.staleIndexClient Fixture.scanInput
                {| getNextBlock_state :=
                     {| lastEvaluatedKey := None; blockSourceIsEmpty := true |};
                   batch := []; sourceIsEmpty := true |} 7
                (or_intror eq_refl) eq_refl) as (Hsame & _ & Hdone).
  rewrite Hsame. apply Hdone. reflexivity.
Defined.

(** X4. When the store fails the page request of a call, the call throws
    that error and the generator is left exactly as it was, with all of
    the region still to yield: the call can be made again. *)
Theorem X4_search_page_failure_keeps_generator
    {Content : Type} (this : Repository Content) (dc dc' : DocumentClient)
    (input : ISearchInput) (g : Generator) (err : error) (fuel : nat)
    (rest : list obj) :
  batch g = [] -> sourceIsEmpty g = false ->
  blockSourceIsEmpty (getNextBlock_state g) = false ->
  page dc input (lastEvaluatedKey (getNextBlock_state g)) = inl err ->
  DynamoRepository.next this (S fuel) dc input g = Some (inl err, g) /\
  (region dc' input (lastEvaluatedKey (getNextBlock_state g)) rest ->
   holds dc' input g rest).
Proof.
  intros Hb Hs Hbs Hpage. split.
  - unfold DynamoRepository.next. rewrite fetch_loop_eq, Hb, Hs. simpl.
    unfold DynamoRepository.getNextBlock. rewrite Hbs.
    fold (page dc input (lastEvaluatedKey (getNextBlock_state g))).
    rewrite Hpage. reflexivity.
  - intros Hreg.
    pose proof (holds_more dc' input g rest Hs Hbs Hreg) as Hh.
    now rewrite Hb in Hh.
Qed.

Lemma X4_witness :
  DynamoRepository.next Fixture.repository 1 Fixture.pagedClient
    {| IndexName := None; ExclusiveStartKey := None;
       KeyConditionExpression := Some "id = :id" |}
    (DynamoRepository.search
       {| IndexName := None; ExclusiveStartKey := None;
          KeyConditionExpression := Some "id = :id" |})
  = Some (inl (StoreError "query"),
          DynamoRepository.search
            {| IndexName := None; ExclusiveStartKey := None;
               KeyConditionExpression := Some "id = :id" |}).
Proof.
  exact (proj1 (X4_search_page_failure_keeps_generator Fixture.repository
                  Fixture.pagedClient Fixture.pagedClient
                  {| IndexName := None; ExclusiveStartKey := None;
                     KeyConditionExpression := Some "id = :id" |}
                  (DynamoRepository.search
                     {| IndexName := None; ExclusiveStartKey := None;
                        KeyConditionExpression := Some "id = :id" |})
                  (StoreError "query") 0 [] eq_refl eq_refl eq_refl eq_refl)).
Defined.

(** ** [toArray] *)

Lemma generatorToArray_holds {Content : Type} (this : Repository Content)
    (dc : DocumentClient) (input : ISearchInput) (refetch : bool)
    (rest : list obj) :
  DynamoRepository.needs_refetch this input = inr refetch ->
  forall (g : Generator) (array : list Content),
  holds dc input g rest ->
  exists N F g1, forall n fuel, N <= n -> F <= fuel ->
    generatorToArray (DynamoRepository.next this fuel dc input) n g array
    = Some (prepend array (drained (map (yield this dc refetch) rest)), g1).
Proof.
  intros Hidx. induction rest as [|x rest IH]; intros g array Hh.
  - destruct (next_holds this dc input refetch g [] Hidx Hh) as (F & g1 & Hn).
    exists 1, F, g1. intros [|n] fuel Hle Hf; [lia|]. simpl.
    rewrite (proj1 (Hn fuel Hf)). now rewrite app_nil_r.
  - destruct (next_holds this dc input refetch g (x :: rest) Hidx Hh)
      as (F1 & g1 & Hn).
    pose proof (proj2 (Hn F1 (Nat.le_refl _))) as Hh1. simpl in Hh1.
    destruct (yield this dc refetch x) as [err|[e|]] eqn:Ey.
    + exists 1, F1, g1. intros [|n] fuel Hle Hf; [lia|]. simpl.
      now rewrite (proj1 (Hn fuel Hf)), Ey.
    + destruct (IH g1 (array ++ [e]) Hh1) as (N2 & F2 & g2 & H2).
      exists (S N2), (F1 + F2), g2. intros [|n] fuel Hle Hf; [lia|]. simpl.
      rewrite (proj1 (Hn fuel ltac:(lia))), Ey.
      rewrite (H2 n fuel ltac:(lia) ltac:(lia)).
      destruct (drained _); simpl; [reflexivity|].
      now rewrite <- app_assoc.
    + exists 1, F1, g1. intros [|n] fuel Hle Hf; [lia|]. simpl.
      rewrite (proj1 (Hn fuel Hf)), Ey. simpl. now rewrite app_nil_r.
Qed.

Lemma drained_all {Content : Type} (f : obj -> Content) (items : list obj) :
  drained (map (fun x => inr (Some (f x))) items) = inr (map f items).
Proof.
  induction items as [|x items IH]; simpl; [reflexivity|]. now rewrite IH.
Qed.

(** X5. [toArray()] on a fresh search over a store region returns, given
    enough turns, the entities that successive calls yield up to the first
    call that resolves to [undefined], or the first error a call throws.
    Without a re-fetch through an index that is every item of the region,
    unmarshalled, in page order; through a partially projected index the
    array ends before the first item whose point read finds nothing. *)
Theorem X5_toArray_drains_region
    {Content : Type} (this : Repository Content) (dc : DocumentClient)
    (input : ISearchInput) (items : list obj) (refetch : bool) :
  DynamoRepository.needs_refetch this input = inr refetch ->
  region dc input (ExclusiveStartKey input) items ->
  exists N F g1, forall n fuel, N <= n -> F <= fuel ->
    generatorToArray (DynamoRepository.next this fuel dc input) n
      (DynamoRepository.search input) []
    = Some (drained (map (yield this dc refetch) items), g1) /\
    (refetch = false ->
     drained (map (yield this dc refetch) items)
     = inr (map (unMarshal (config this)) items)).
Proof.
  intros Hidx Hreg.
  destruct (generatorToArray_holds this dc input refetch items Hidx
              (DynamoRepository.search input) []
              (search_holds dc input items Hreg)) as (N & F & g1 & Hall).
  exists N, F, g1. intros n fuel Hn Hf. split.
  - rewrite (Hall n fuel Hn Hf). destruct (drained _); reflexivity.
  - intros ->. unfold yield. apply drained_all.
Qed.

Lemma X5_witness :
  exists N F g1, forall n fuel, N <= n -> F <= fuel ->
    generatorToArray
      (DynamoRepository.next Fixture.repository fuel Fixture.pagedClient
         Fixture.scanInput) n
      (DynamoRepository.search Fixture.scanInput) []
    = Some (inr [Fixture.item "entityId" false;
                 Fixture.item "secondEntityId" false;
                 Fixture.item "thirdEntityId" false], g1).
Proof.
  destruct (X5_toArray_drains_region Fixture.repository Fixture.pagedClient
              Fixture.scanInput
              ([Fixture.item "entityId" false; Fixture.item "secondEntityId" false]
                 ++ [Fixture.item "thirdEntityId" false]) false eq_refl)
    as (N & F & g1 & Hall).
  - eapply region_more; [reflexivity|]. apply region_last. reflexivity.
  - exists N, F, g1. intros n fuel Hn Hf. exact (proj1 (Hall n fuel Hn Hf)).
Defined.

(** ** [count] *)

(** X6. [count] adds up the [Count] of every page of the region, starting
    from the [ExclusiveStartKey] of its input, and needs one request per
    page; when the store fails a page, [count] throws that error. *)
Theorem X6_count_sums_pages (dc : CountClient) (input : ICountInput)
    (counts : list Z) (err : error) :
  (count_region dc input (countExclusiveStartKey input) counts ->
   forall fuel, length counts <= fuel ->
     Count.count fuel dc input = Some (inr (fold_right Z.add 0%Z counts))) /\
  (Count.asyncRequest dc input (countExclusiveStartKey input) = inl err ->
   forall fuel, Count.count (S fuel) dc input = Some (inl err)).
Proof.
  split.
  - unfold Count.count. generalize (countExclusiveStartKey input) as start.
    assert (Hgen : forall start, count_region dc input start counts ->
              forall total fuel, length counts <= fuel ->
              Count.count_loop fuel dc input start total
              = Some (inr (total + fold_right Z.add 0 counts)%Z)).
    { intros start Hreg.
      induction Hreg as [start n Hreq|start n cursor rest Hreq Hreg IH];
        intros total [|fuel] Hle; simpl in Hle; try lia; simpl; rewrite Hreq; simpl.
      - f_equal. f_equal. lia.
      - rewrite IH by lia. f_equal. f_equal. lia. }
    intros start Hreg fuel Hle. now rewrite (Hgen start Hreg 0%Z fuel Hle).
  - intros Hreq fuel. unfold Count.count. simpl. now rewrite Hreq.
Qed.

Lemma X6_witness :
  Count.count 2 Sample.countClient Sample.countInput = Some (inr 3%Z).
Proof.
  refine (proj1 (X6_count_sums_pages Sample.countClient Sample.countInput
                   [2%Z; 1%Z] TypeError) _ 2 (Nat.le_refl _)).
  eapply count_region_more; [reflexivity|].
  apply count_region_last. reflexivity.
Defined.

(** ** The read cache, continued *)

Section CacheMore.
Context {Content : Type}.
Variable this : Repository Content.
Implicit Types w : World Content.

(** [addToCacheByKey] writes the cache, the promises and the notifications
    only. *)
Lemma addToCacheByKey_frame (key : obj) (v : opt_entity) (r : option error) w w1 :
  CachedDynamoRepository.addToCacheByKey this key v w = Some (r, w1) ->
  tracked w1 = tracked w /\ heap w1 = heap w /\ calls w1 = calls w /\
  next_entity w1 = next_entity w.
Proof.
  unfold CachedDynamoRepository.addToCacheByKey.
  destruct (await _ w) as [[err|[c|]]|]; try discriminate.
  - intros Heq. inversion Heq; subst. auto.
  - intros Heq. inversion Heq; subst. destruct (negb _); auto.
  - destruct (negb _); intros Heq; inversion Heq; subst; auto.
Qed.

(** X7. Seeding the cache and reading it back: [addToCache(e)] for an
    entity whose derived key holds no promise installs a promise that is
    already fulfilled with [e], without a store call and without a
    notification; [get] with the derived key, or with any key of the same
    hash and range values, then returns that promise and changes
    nothing. *)
Theorem X7_addToCache_then_get (e : eref) (key key' : obj) w :
  CachedDynamoRepository.getEntityKey this e w = Some key ->
  CachedDynamoRepository.getFromCache this key w = None ->
  exists w1,
    CachedDynamoRepository.addToCache this e w = Some (None, w1) /\
    calls w1 = calls w /\ events w1 = events w /\
    CachedDynamoRepository.get this key w1 = (Some (length (promises w)), w1) /\
    await (Some (length (promises w))) w1 = Some (inr (Some e)) /\
    (CachedDynamoRepository.hash_of this key' = CachedDynamoRepository.hash_of this key ->
     CachedDynamoRepository.range_of this key' = CachedDynamoRepository.range_of this key ->
     CachedDynamoRepository.get this key' w1 = (Some (length (promises w)), w1)).
Proof.
  intros Hkey Hnone.
  assert (Ha : await (CachedDynamoRepository.getFromCache this key w) w
               = Some (inr None)) by now rewrite Hnone.
  eexists. unfold CachedDynamoRepository.addToCache. rewrite Hkey.
  split; [apply (addToCacheByKey_installs this key (Some e) w Ha)|].
  match goal with |- context [calls ?x = _] => set (w1 := x) end.
  assert (Hk1 : CachedDynamoRepository.getFromCache this key w1
                = Some (length (promises w))).
  { rewrite getFromCache_lookup2. simpl. rewrite lookup2_install.
    now rewrite decide_True. }
  split; [reflexivity|]. split; [reflexivity|].
  split; [now apply get_cached|].
  split.
  - unfold await. simpl. rewrite list_lookup_middle; reflexivity.
  - intros Hh Hr. apply get_cached.
    now rewrite (getFromCache_same_slot this key key' w1 Hh Hr).
Qed.

(** X8. The generator of the cached [search]: an entity whose derived key
    holds no promise is installed and handed to the caller itself, with no
    notification; pulling the same entity object again hands it over again
    and changes nothing; [undefined] passes through untouched. *)
Theorem X8_cached_search_installs_entity (e : eref) (key : obj) w :
  CachedDynamoRepository.getEntityKey this e w = Some key ->
  CachedDynamoRepository.getFromCache this key w = None ->
  CachedDynamoRepository.search_next this None w = Some (inr None, w) /\
  exists w1,
    CachedDynamoRepository.search_next this (Some e) w = Some (inr (Some e), w1) /\
    events w1 = events w /\ calls w1 = calls w /\
    CachedDynamoRepository.getFromCache this key w1 = Some (length (promises w)) /\
    CachedDynamoRepository.search_next this (Some e) w1 = Some (inr (Some e), w1).
Proof.
  intros Hkey Hnone. split; [reflexivity|].
  assert (Ha : await (CachedDynamoRepository.getFromCache this key w) w
               = Some (inr None)) by now rewrite Hnone.
  pose proof (addToCacheByKey_installs this key (Some e) w Ha) as Hadd.
  match type of Hadd with _ = Some (None, ?x) => set (w1 := x) in * end.
  assert (Hk1 : CachedDynamoRepository.getFromCache this key w1
                = Some (length (promises w))).
  { rewrite getFromCache_lookup2. simpl. rewrite lookup2_install.
    now rewrite decide_True. }
  assert (Ha1 : await (CachedDynamoRepository.getFromCache this key w1) w1
                = Some (inr (Some e))).
  { rewrite Hk1. unfold await. simpl. rewrite list_lookup_middle; reflexivity. }
  exists w1.
  split.
  { unfold CachedDynamoRepository.search_next. now rewrite Hkey, Hadd, Ha1. }
  split; [reflexivity|]. split; [reflexivity|]. split; [exact Hk1|].
  unfold CachedDynamoRepository.search_next.
  change (CachedDynamoRepository.getEntityKey this e w1)
    with (CachedDynamoRepository.getEntityKey this e w).
  rewrite Hkey, (addToCacheByKey_keeps this key (Some e) e w1 Ha1).
  rewrite bool_decide_eq_true_2 by reflexivity. now rewrite Ha1.
Qed.
End CacheMore.

Lemma X7_witness :
  exists w1,
    CachedDynamoRepository.addToCache Fixture.repository 0 Fixture.world0
      = Some (None, w1) /\
    CachedDynamoRepository.get Fixture.repository Fixture.entityKey w1 = (Some 0, w1) /\
    await (Some 0) w1 = Some (inr (Some 0)).
Proof.
  destruct (X7_addToCache_then_get Fixture.repository 0 Fixture.entityKey
              Fixture.entityKey Fixture.world0 eq_refl eq_refl)
    as (w1 & Hadd & _ & _ & Hget & Hawait & _).
  exists w1. split; [exact Hadd|]. split; [exact Hget|exact Hawait].
Defined.

Lemma X8_witness :
  exists w1,
    CachedDynamoRepository.search_next Fixture.repository (Some 0) Fixture.world0
      = Some (inr (Some 0), w1) /\
    CachedDynamoRepository.search_next Fixture.repository (Some 0) w1
      = Some (inr (Some 0), w1).
Proof.
  destruct (proj2 (X8_cached_search_installs_entity Fixture.repository 0
                     Fixture.entityKey Fixture.world0 eq_refl eq_refl))
    as (w1 & Hfirst & _ & _ & _ & Hagain).
  exists w1. split; [exact Hfirst|exact Hagain].
Defined.

Lemma classic_rest (rest : list keyobj) (kid : nat) :
  (exists key', In key' rest /\ fst key' = kid) \/
  (forall key', In key' rest -> fst key' <> kid).
Proof.
  induction rest as [|k0 rest IH].
  - right. intros key' [].
  - destruct (decide (fst k0 = kid)) as [Heq|Hne].
    + left. exists k0. split; [now left|exact Heq].
    + destruct IH as [(key' & Hin & Heq)|Hno].
      * left. exists key'. split; [now right|exact Heq].
      * right. intros key' [<-|Hin]; [exact Hne|now apply Hno].
Qed.

Section GetList.
Context {Content : Type}.
Variable this : Repository Content.
Implicit Types w : World Content.

Lemma await_settled (key : obj) w :
  settled_cache w ->
  exists x, await (CachedDynamoRepository.getFromCache this key w) w = Some (inr x).
Proof.
  intros Hs. rewrite getFromCache_lookup2.
  destruct (lookup2 _ _ _) as [p|] eqn:Hl; [|now exists None].
  destruct (Hs _ _ _ Hl) as [v Hv]. exists v. unfold await. now rewrite Hv.
Qed.

(** In a cache whose promises are all fulfilled, [addToCacheByKey] runs to
    its end without throwing, keeps every cached key cached and all
    promises fulfilled, and leaves the key cached. *)
Lemma addToCacheByKey_settled (key : obj) (v : opt_entity) w :
  settled_cache w ->
  exists w1,
    CachedDynamoRepository.addToCacheByKey this key v w = Some (None, w1) /\
    settled_cache w1 /\
    is_Some (CachedDynamoRepository.getFromCache this key w1) /\
    calls w1 = calls w.
Proof.
  intros Hs. destruct (await_settled key w Hs) as [[c|] Ha].
  - rewrite (addToCacheByKey_keeps this key v c w Ha).
    eexists. split; [reflexivity|].
    assert (Hc : is_Some (CachedDynamoRepository.getFromCache this key w)).
    { destruct (CachedDynamoRepository.getFromCache this key w); [eauto|].
      discriminate. }
    destruct (bool_decide _); auto.
  - rewrite (addToCacheByKey_installs this key v w Ha).
    eexists. split; [reflexivity|]. split; [|split; [|reflexivity]].
    + intros h r p. simpl. rewrite lookup2_install.
      destruct (decide _) as [_|_].
      * intros Hp. inversion Hp; subst p. exists v.
        apply list_lookup_middle. reflexivity.
      * intros Hp. destruct (Hs _ _ _ Hp) as [v' Hv']. exists v'.
        rewrite lookup_app_l; [exact Hv'|]. eapply lookup_lt_Some; exact Hv'.
    + rewrite getFromCache_lookup2. simpl. rewrite lookup2_install.
      rewrite decide_True by auto. eauto.
Qed.

Lemma jm_has_set_mono {K V : Type} `{EqDecision K} (k k' : K) (v : V)
    (m : list (K * V)) :
  jm_has k' m = true -> jm_has k' (jm_set k v m) = true.
Proof.
  unfold jm_has. destruct (decide (k = k')) as [->|Hne].
  - now rewrite jm_get_set_eq.
  - now rewrite jm_get_set_ne.
Qed.

Lemma getList_install_settled (response : list (option nat * eref))
    (notCachedKeys : list keyobj) :
  forall (result : list (nat * opt_entity)) w,
  settled_cache w ->
  exists result' w1,
    CachedDynamoRepository.getList_install this notCachedKeys response result w
      = Some (inr result', w1) /\
    settled_cache w1 /\ calls w1 = calls w /\
    (forall kid, jm_has kid result = true -> jm_has kid result' = true) /\
    (forall key, In key notCachedKeys -> jm_has (fst key) result' = true).
Proof.
  induction notCachedKeys as [|key rest IH]; intros result w Hs.
  - exists result, w. simpl. repeat split; auto; intros key [].
  - simpl.
    destruct (addToCacheByKey_settled (snd key)
                (jm_get (Some (fst key)) response) w Hs)
      as (w1 & Hadd & Hs1 & _ & Hc1).
    rewrite Hadd.
    destruct (await_settled (snd key) w1 Hs1) as [x Hx]. rewrite Hx.
    destruct (IH (jm_set (fst key) x result) w1 Hs1)
      as (result' & w2 & Hinst & Hs2 & Hc2 & Hmono & Hall).
    exists result', w2. split; [exact Hinst|]. split; [exact Hs2|].
    split; [congruence|]. split.
    + intros kid Hk. now apply Hmono, jm_has_set_mono.
    + intros key' [<-|Hin]; [|now apply Hall].
      apply Hmono. unfold jm_has. now rewrite jm_get_set_eq.
Qed.

Lemma getList_read_settled (keys : list keyobj) w :
  settled_cache w ->
  forall result : list (nat * opt_entity),
  exists result',
    CachedDynamoRepository.getList_read this keys result w = Some (inr result') /\
    (forall kid, jm_has kid result = true -> jm_has kid result' = true) /\
    (forall key, In key keys ->
       exists key' x,
         In key' keys /\ fst key' = fst key /\
         await (CachedDynamoRepository.getFromCache this (snd key') w) w
           = Some (inr x) /\
         jm_get (fst key) result' = Some x).
Proof.
  intros Hs. induction keys as [|key rest IH]; intros result.
  - exists result. simpl. repeat split; auto; intros key [].
  - simpl. destruct (await_settled (snd key) w Hs) as [x Hx]. rewrite Hx.
    destruct (IH (jm_set (fst key) x result)) as (result' & Hread & Hmono & Hall).
    exists result'. split; [exact Hread|]. split.
    + intros kid Hk. now apply Hmono, jm_has_set_mono.
    + assert (Hkeep : forall kid,
                (forall key', In key' rest -> fst key' <> kid) ->
                jm_get kid result' = jm_get kid (jm_set (fst key) x result)).
      { clear Hall Hmono. revert Hread. generalize (jm_set (fst key) x result).
        clear IH Hx. induction rest as [|k0 rest IHr]; intros m Hread kid Hno.
        - simpl in Hread. now inversion Hread.
        - simpl in Hread.
          destruct (await _ w) as [[err|x0]|]; try discriminate.
          rewrite (IHr _ Hread kid) by (intros key' Hin; apply Hno; now right).
          apply jm_get_set_ne. apply Hno. now left. }
      intros key0 Hin.
      destruct (classic_rest rest (fst key0)) as [(key' & Hin' & Heq)|Hno].
      * destruct (Hall key' Hin') as (k2 & x2 & Hk2 & Hf2 & Ha2 & Hg2).
        exists k2, x2. split; [now right|]. split; [congruence|].
        split; [exact Ha2|]. now rewrite <- Heq.
      * destruct Hin as [<-|Hin]; [|now destruct (Hno key0 Hin)].
        exists key, x. split; [now left|]. split; [reflexivity|].
        split; [exact Hx|]. rewrite (Hkeep (fst key) Hno).
        apply jm_get_set_eq.
Qed.
End GetList.

(** X9. The cached [getList] from its [await] on, in a cache whose promises
    are all fulfilled: it runs to its end without throwing and without a
    store call; the map it returns has an entry for every requested key
    object, missing items included, whose value is what the cache holds
    for that key object afterwards; every key that was sent to the store
    has an entry too, and all promises of the cache are still
    fulfilled. *)
Theorem X9_cached_getList_answers_every_key
    {Content : Type} (this : Repository Content)
    (keys notCachedKeys : list keyobj) (response : list (option nat * eref))
    (w : World Content) :
  settled_cache w ->
  exists result w1,
    CachedDynamoRepository.getList_resumed this keys notCachedKeys response w
      = Some (inr result, w1) /\
    calls w1 = calls w /\ settled_cache w1 /\
    (forall key, In key notCachedKeys -> jm_has (fst key) result = true) /\
    (forall key, In key keys ->
       exists key' x,
         In key' keys /\ fst key' = fst key /\
         await (CachedDynamoRepository.getFromCache this (snd key') w1) w1
           = Some (inr x) /\
         jm_get (fst key) result = Some x).
Proof.
  intros Hs.
  destruct (getList_install_settled this response notCachedKeys [] w Hs)
    as (result1 & w1 & Hinst & Hs1 & Hc1 & _ & Hall1).
  destruct (getList_read_settled this keys w1 Hs1 result1)
    as (result & Hread & Hmono & Hall).
  exists result, w1. unfold CachedDynamoRepository.getList_resumed.
  rewrite Hinst, Hread. split; [reflexivity|]. split; [exact Hc1|].
  split; [exact Hs1|]. split; [|exact Hall].
  intros key Hin. apply Hmono, Hall1, Hin.
Qed.

Lemma X9_witness :
  exists result w1,
    CachedDynamoRepository.getList_resumed Fixture.repository Sample.keys
      (CachedDynamoRepository.getList_notCached Fixture.repository Sample.keys
         Fixture.worldHit) [] Fixture.worldHit
    = Some (inr result, w1) /\
    calls w1 = calls Fixture.worldHit.
Proof.
  destruct (X9_cached_getList_answers_every_key Fixture.repository Sample.keys
              (CachedDynamoRepository.getList_notCached Fixture.repository
                 Sample.keys Fixture.worldHit) [] Fixture.worldHit)
    as (result & w1 & Hres & Hcalls & _).
  - intros h r p.
    change (cache Fixture.worldHit)
      with (install ∅ (CachedDynamoRepository.hash_of Fixture.repository Fixture.entityKey)
              (CachedDynamoRepository.range_of Fixture.repository Fixture.entityKey) 0).
    rewrite lookup2_install. destruct (decide _) as [_|_].
    + intros Hp. inversion Hp; subst p. exists (Some 3). reflexivity.
    + unfold lookup2. rewrite lookup_empty. discriminate.
  - exists result, w1. split; [exact Hres|exact Hcalls].
Defined.

(** ** The unit of work, continued *)

Section ManagedMore.
Context {Content : Type} `{Serializable Content}.
Variable this : Repository Content.
Implicit Types w : World Content.

Lemma addToCache_frame (e : eref) (r : option error) w w1 :
  CachedDynamoRepository.addToCache this e w = Some (r, w1) ->
  tracked w1 = tracked w /\ heap w1 = heap w /\ calls w1 = calls w /\
  next_entity w1 = next_entity w.
Proof.
  unfold CachedDynamoRepository.addToCache.
  destruct (CachedDynamoRepository.getEntityKey this e w).
  - apply addToCacheByKey_frame.
  - intros Heq. inversion Heq; subst. auto.
Qed.

Lemma track_frame (v : opt_entity) w :
  heap (ManagedDynamoRepository.track v w) = heap w /\
  calls (ManagedDynamoRepository.track v w) = calls w /\
  cache (ManagedDynamoRepository.track v w) = cache w /\
  promises (ManagedDynamoRepository.track v w) = promises w.
Proof.
  unfold ManagedDynamoRepository.track.
  destruct v as [e|]; [|auto]. destruct (jm_has e (tracked w)); auto.
Qed.

(** [track] never changes an entry that is there. *)
Lemma track_keeps (v : opt_entity) (e : eref) (t : TrackedEntry) w :
  jm_get e (tracked w) = Some t ->
  jm_get e (tracked (ManagedDynamoRepository.track v w)) = Some t.
Proof.
  intros Hget. unfold ManagedDynamoRepository.track.
  destruct v as [e'|]; [|exact Hget].
  unfold jm_has. destruct (jm_get e' (tracked w)) eqn:Hg'; [exact Hget|].
  simpl. rewrite jm_get_set_ne; [exact Hget|]. congruence.
Qed.

Lemma track_tracks (e : eref) w :
  jm_has e (tracked (ManagedDynamoRepository.track (Some e) w)) = true.
Proof.
  unfold ManagedDynamoRepository.track, jm_has.
  destruct (jm_get e (tracked w)) eqn:Hg.
  - now rewrite Hg.
  - simpl. now rewrite jm_get_set_eq.
Qed.

Lemma track_wf (v : opt_entity) w :
  wf_tracked (tracked w) -> wf_tracked (tracked (ManagedDynamoRepository.track v w)).
Proof.
  intros Hwf. unfold ManagedDynamoRepository.track.
  destruct v as [e|]; [|exact Hwf].
  destruct (jm_has e (tracked w)); [exact Hwf|].
  simpl. now apply wf_tracked_set.
Qed.

Lemma delete_wf (v : opt_entity) w :
  wf_tracked (tracked w) -> wf_tracked (tracked (ManagedDynamoRepository.delete v w)).
Proof.
  intros Hwf. unfold ManagedDynamoRepository.delete.
  destruct v as [e|]; [|exact Hwf].
  destruct (_ && _); simpl; [now apply wf_tracked_delete|now apply wf_tracked_set].
Qed.

Lemma trackNew_wf (e : eref) (r : option error) w w1 :
  wf_tracked (tracked w) ->
  ManagedDynamoRepository.trackNew this e w = Some (r, w1) ->
  wf_tracked (tracked w1).
Proof.
  intros Hwf. unfold ManagedDynamoRepository.trackNew.
  destruct (CachedDynamoRepository.addToCache this e w) as [[[err|] w']|] eqn:Ea;
    try discriminate.
  - intros Heq. inversion Heq; subst.
    now rewrite (proj1 (addToCache_frame e _ w w1 Ea)).
  - intros Heq. inversion Heq; subst.
    pose proof (proj1 (addToCache_frame e _ w w' Ea)) as Ht.
    destruct (jm_has e (tracked w')); [now rewrite Ht|].
    simpl. rewrite Ht. now apply wf_tracked_set.
Qed.

Lemma getList_resumed_spec (list : list (nat * opt_entity)) w :
  wf_tracked (tracked w) ->
  let w1 := ManagedDynamoRepository.getList_resumed list w in
  wf_tracked (tracked w1) /\ heap w1 = heap w /\ calls w1 = calls w /\
  (forall e t, jm_get e (tracked w) = Some t -> jm_get e (tracked w1) = Some t) /\
  (forall kid e, In (kid, Some e) list -> jm_has e (tracked w1) = true).
Proof.
  unfold ManagedDynamoRepository.getList_resumed, jm_values.
  revert w. induction list as [|[kid v] list IH]; intros w Hwf; simpl.
  - split; [exact Hwf|]. split; [reflexivity|]. split; [reflexivity|].
    split; [auto|]. intros kid e [].
  - destruct (IH (ManagedDynamoRepository.track v w) (track_wf v w Hwf))
      as (Hwf1 & Hh & Hc & Hkeep & Hall).
    destruct (track_frame v w) as (Hh0 & Hc0 & _).
    split; [exact Hwf1|]. split; [congruence|]. split; [congruence|]. split.
    + intros e t Hget. now apply Hkeep, track_keeps.
    + intros kid' e [Heq|Hin]; [|now apply (Hall kid')].
      inversion Heq; subst.
      pose proof (track_tracks e w) as Ht. unfold jm_has in Ht.
      destruct (jm_get e (tracked (ManagedDynamoRepository.track (Some e) w)))
        as [t|] eqn:Hg; [|discriminate].
      unfold jm_has. now rewrite (Hkeep e t Hg).
Qed.

Lemma flush_await_frame2 (fw : Flush * World Content) :
  tracked (snd (ManagedDynamoRepository.flush_await fw)) = tracked (snd fw) /\
  heap (snd (ManagedDynamoRepository.flush_await fw)) = heap (snd fw) /\
  calls (snd (ManagedDynamoRepository.flush_await fw)) = calls (snd fw).
Proof.
  destruct (flush_await_frame fw) as (_ & Hc & Ht & Hh). auto.
Qed.

(** An answer of the store to a flush changes neither the tracked table,
    nor the entities, nor the log of store calls. *)
Lemma reply_frame (i : nat) (res : option error) (fw : Flush * World Content) :
  tracked (snd (ManagedDynamoRepository.reply i res fw)) = tracked (snd fw) /\
  heap (snd (ManagedDynamoRepository.reply i res fw)) = heap (snd fw) /\
  calls (snd (ManagedDynamoRepository.reply i res fw)) = calls (snd fw).
Proof.
  destruct fw as [f w]. unfold ManagedDynamoRepository.reply.
  destruct (processed f !! i) as [op|]; [|auto].
  destruct (is_pending op); [|auto].
  destruct (match op_action op with
            | CREATE => _ | UPDATE => _ | DELETE => _ end) as [op' w1] eqn:E.
  destruct (flush_await_frame2
              ({| processed := <[i:=op']> (processed f); outcome := outcome f |}, w1))
    as (Ht & Hh & Hc).
  cbn [snd] in *. rewrite Ht, Hh, Hc.
  unfold ManagedDynamoRepository.createItem_settled,
    ManagedDynamoRepository.updateItem_settled,
    ManagedDynamoRepository.deleteItem_settled in E.
  destruct (op_action op), res; inversion E; subst; auto.
Qed.

Lemma run_frame (replies : list (nat * option error)) (fw : Flush * World Content) :
  tracked (snd (ManagedDynamoRepository.run replies fw)) = tracked (snd fw) /\
  heap (snd (ManagedDynamoRepository.run replies fw)) = heap (snd fw) /\
  calls (snd (ManagedDynamoRepository.run replies fw)) = calls (snd fw).
Proof.
  revert fw. induction replies as [|r replies IH]; intros fw; simpl; [auto|].
  destruct (IH (ManagedDynamoRepository.reply (fst r) (snd r) fw)) as (Ht & Hh & Hc).
  destruct (reply_frame (fst r) (snd r) fw) as (Ht0 & Hh0 & Hc0).
  split; [congruence|]. split; congruence.
Qed.

Lemma flush_frame w :
  heap (snd (ManagedDynamoRepository.flush this w)) = heap w.
Proof.
  unfold ManagedDynamoRepository.flush.
  pose proof (dispatch_spec this (jm_values (tracked w)) [] w) as (_ & Hh & _).
  destruct (ManagedDynamoRepository.dispatch this (jm_values (tracked w)) [] w)
    as [ops w1]. simpl in Hh.
  destruct (flush_await_frame ({| processed := ops; outcome := None |}, w1))
    as (_ & _ & _ & Hh1).
  cbn [snd] in Hh1. congruence.
Qed.
End ManagedMore.

Section ManagedFacts.
Context {Content : Type} `{Serializable Content}.
Variable this : Repository Content.
Implicit Types w : World Content.

Lemma wf_tracked_get (t : list (eref * TrackedEntry)) (e : eref) (te : TrackedEntry) :
  wf_tracked t -> In (e, te) t -> jm_get e t = Some te.
Proof.
  intros [Hnd _]. induction t as [|[k0 v0] t IH]; simpl; [tauto|].
  apply List.NoDup_cons_iff in Hnd as [Hnotin Hnd]. simpl in Hnotin.
  intros [Heq|Hin].
  - inversion Heq; subst. now rewrite decide_True.
  - rewrite decide_False; [now apply IH|].
    intros ->. apply Hnotin. now apply (in_map fst) in Hin.
Qed.

(** The operation [flush] dispatches for an UPDATE entry. *)
Lemma update_ops (e : eref) (s : string) w :
  wf_tracked (tracked w) ->
  jm_get e (tracked w) = Some (update_entry e s) ->
  ops_for e (processed (fst (ManagedDynamoRepository.flush this w)))
  = [if bool_decide (Some (JSON_stringify (heap w e)) = Some s)
     then {| op_action := UPDATE; op_entity := e; op_request := None;
             op_status := OpFulfilled |}
     else {| op_action := UPDATE; op_entity := e;
             op_request := Some (dc_put (tableName (config this))
                                   (marshal (config this) (heap w e)));
             op_status := OpPending |}].
Proof.
  intros Hwf Hget.
  rewrite (proj1 (flush_spec this w)), (ops_for_tracked this e (tracked w) w Hwf), Hget.
  unfold ManagedDynamoRepository.dispatch_one, ManagedDynamoRepository.updateItem,
    ManagedDynamoRepository.entityHasChanged. simpl. rewrite Hget. simpl.
  destruct (bool_decide _); reflexivity.
Qed.

(** X10. [trackNew(e)] that runs to its end files an entity that was not
    tracked under CREATE, without a store call, and leaves the table as it
    is when the entity was tracked already. For a newly filed entity a
    following [flush] dispatches one operation, whose request, a put of
    the marshalled entity as it is at that moment (whether it was mutated
    since or not), is handed to the store: the store calls of the flush
    are the calls made before it followed by the requests of its
    operations, and the put is among them. *)
Theorem X10_trackNew_always_persists (e : eref) w w1 :
  wf_tracked (tracked w) ->
  ManagedDynamoRepository.trackNew this e w = Some (None, w1) ->
  calls w1 = calls w /\
  (jm_has e (tracked w) = true -> tracked w1 = tracked w) /\
  (jm_has e (tracked w) = false ->
   jm_get e (tracked w1)
   = Some {| action := CREATE; initialStatus := None; tentity := e |} /\
   ops_for e (processed (fst (ManagedDynamoRepository.flush this w1)))
   = [{| op_action := CREATE; op_entity := e;
         op_request := Some (dc_put (tableName (config this))
                               (marshal (config this) (heap w e)));
         op_status := OpPending |}] /\
   calls (snd (ManagedDynamoRepository.flush this w1))
   = calls w ++ requests (processed (fst (ManagedDynamoRepository.flush this w1))) /\
   In (dc_put (tableName (config this)) (marshal (config this) (heap w e)))
      (calls (snd (ManagedDynamoRepository.flush this w1))) /\
   forall c,
     ops_for e (processed (fst (ManagedDynamoRepository.flush this (mutate e c w1))))
     = [{| op_action := CREATE; op_entity := e;
           op_request := Some (dc_put (tableName (config this))
                                 (marshal (config this) c));
           op_status := OpPending |}] /\
     calls (snd (ManagedDynamoRepository.flush this (mutate e c w1)))
     = calls w
       ++ requests (processed (fst (ManagedDynamoRepository.flush this (mutate e c w1)))) /\
     In (dc_put (tableName (config this)) (marshal (config this) c))
        (calls (snd (ManagedDynamoRepository.flush this (mutate e c w1))))).
Proof.
  intros Hwf Hnew.
  pose proof (trackNew_wf this e None w w1 Hwf Hnew) as Hwf1.
  unfold ManagedDynamoRepository.trackNew in Hnew.
  destruct (CachedDynamoRepository.addToCache this e w) as [[[err|] w']|] eqn:Ea;
    try discriminate.
  destruct (addToCache_frame this e None w w' Ea) as (Ht & Hh & Hc & _).
  injection Hnew as Hw1. rewrite Ht in Hw1. symmetry in Hw1.
  split; [rewrite Hw1; destruct (jm_has e (tracked w)); simpl; exact Hc|].
  split; [intros Hhas; rewrite Hhas in Hw1; rewrite Hw1; exact Ht|].
  intros Hhas. rewrite Hhas in Hw1.
  assert (Hget : jm_get e (tracked w1)
                 = Some {| action := CREATE; initialStatus := None; tentity := e |}).
  { rewrite Hw1. simpl. apply jm_get_set_eq. }
  assert (Hheap : heap w1 = heap w) by (rewrite Hw1; exact Hh).
  assert (Hcalls1 : calls w1 = calls w).
  { rewrite Hw1. exact Hc. }
  assert (Hone : ops_for e (processed (fst (ManagedDynamoRepository.flush this w1)))
                 = [{| op_action := CREATE; op_entity := e;
                       op_request := Some (dc_put (tableName (config this))
                                             (marshal (config this) (heap w e)));
                       op_status := OpPending |}]).
  { rewrite (proj1 (flush_spec this w1)), (ops_for_tracked this e _ w1 Hwf1), Hget.
    unfold ManagedDynamoRepository.dispatch_one, ManagedDynamoRepository.createItem.
    simpl. now rewrite Hheap. }
  split; [exact Hget|]. split; [exact Hone|].
  split; [rewrite (proj1 (proj2 (flush_spec this w1))), Hcalls1; reflexivity|].
  split; [exact (flush_hands_over this w1 e _ _ Hone eq_refl)|].
  intros c.
  assert (Honec : ops_for e (processed (fst (ManagedDynamoRepository.flush this
                                               (mutate e c w1))))
                  = [{| op_action := CREATE; op_entity := e;
                        op_request := Some (dc_put (tableName (config this))
                                              (marshal (config this) c));
                        op_status := OpPending |}]).
  { rewrite (proj1 (flush_spec this (mutate e c w1))).
    change (tracked (mutate e c w1)) with (tracked w1).
    rewrite (ops_for_tracked this e _ (mutate e c w1) Hwf1), Hget.
    unfold ManagedDynamoRepository.dispatch_one, ManagedDynamoRepository.createItem.
    simpl. now rewrite decide_True. }
  split; [exact Honec|]. split.
  - rewrite (proj1 (proj2 (flush_spec this (mutate e c w1)))).
    change (calls (mutate e c w1)) with (calls w1). now rewrite Hcalls1.
  - exact (flush_hands_over this (mutate e c w1) e _ _ Honec eq_refl).
Qed.

(** X11. Re-observing a tracked entity keeps its first snapshot: when an
    entity is tracked, mutated in place and observed again, the tracked
    table does not change and no store call is made, so a following
    [flush] still compares with the serialized form of the first
    observation: its one operation for the entity carries a put of the
    mutated entity, and that put is handed to the store, the store calls
    of the flush being the calls made before it followed by the requests
    of its operations. *)
Theorem X11_track_keeps_first_snapshot (e : eref) (c : Content) w :
  wf_tracked (tracked w) ->
  jm_has e (tracked w) = false ->
  let w1 := ManagedDynamoRepository.track (Some e) w in
  let w2 := ManagedDynamoRepository.track (Some e) (mutate e c w1) in
  tracked w2 = tracked w1 /\
  calls w2 = calls w /\
  jm_get e (tracked w2) = Some (update_entry e (JSON_stringify (heap w e))) /\
  calls (snd (ManagedDynamoRepository.flush this w2))
  = calls w ++ requests (processed (fst (ManagedDynamoRepository.flush this w2))) /\
  (JSON_stringify c <> JSON_stringify (heap w e) ->
   ops_for e (processed (fst (ManagedDynamoRepository.flush this w2)))
   = [{| op_action := UPDATE; op_entity := e;
         op_request := Some (dc_put (tableName (config this))
                               (marshal (config this) c));
         op_status := OpPending |}] /\
   requests (ops_for e (processed (fst (ManagedDynamoRepository.flush this w2))))
   = [dc_put (tableName (config this)) (marshal (config this) c)] /\
   In (dc_put (tableName (config this)) (marshal (config this) c))
      (calls (snd (ManagedDynamoRepository.flush this w2)))).
Proof.
  intros Hwf Hhas w1 w2.
  assert (Hw1 : w1 = set_tracked
                       (jm_set e (update_entry e (JSON_stringify (heap w e)))
                               (tracked w)) w).
  { subst w1. unfold ManagedDynamoRepository.track. now rewrite Hhas. }
  assert (Hget1 : jm_get e (tracked w1)
                  = Some (update_entry e (JSON_stringify (heap w e)))).
  { rewrite Hw1. apply jm_get_set_eq. }
  assert (Hw2 : w2 = mutate e c w1).
  { subst w2. unfold ManagedDynamoRepository.track, jm_has.
    change (tracked (mutate e c w1)) with (tracked w1). now rewrite Hget1. }
  assert (Hcalls2 : calls w2 = calls w).
  { rewrite Hw2, Hw1. reflexivity. }
  split; [now rewrite Hw2|]. split; [exact Hcalls2|].
  split; [now rewrite Hw2|].
  split; [rewrite (proj1 (proj2 (flush_spec this w2))), Hcalls2; reflexivity|].
  intros Hne.
  assert (Hone : ops_for e (processed (fst (ManagedDynamoRepository.flush this w2)))
                 = [{| op_action := UPDATE; op_entity := e;
                       op_request := Some (dc_put (tableName (config this))
                                             (marshal (config this) c));
                       op_status := OpPending |}]).
  { rewrite (update_ops e (JSON_stringify (heap w e)) w2).
    - rewrite Hw2. simpl. rewrite decide_True by reflexivity.
      rewrite bool_decide_eq_false_2 by congruence. reflexivity.
    - rewrite Hw2. apply (track_wf (Some e) w Hwf).
    - now rewrite Hw2. }
  split; [exact Hone|]. split; [rewrite Hone; reflexivity|].
  exact (flush_hands_over this w2 e _ _ Hone eq_refl).
Qed.

(** X12. A read that finds its item, end to end: when the store answers the
    point read behind a pending promise with an item, the promise resolves
    to a new entity object holding the unmarshalled item; the managed
    [get] returns it and tracks it as UPDATE with its serialized form, with
    no further store call, and a following [flush] hands nothing to the
    store for it as long as it is not mutated. *)
Theorem X12_managed_get_tracks_found_entity (p : pref) (item : obj) w :
  promises w !! p = Some Pending ->
  wf_tracked (tracked w) ->
  jm_has (next_entity w) (tracked w) = false ->
  let e := next_entity w in
  let w1 := DynamoRepository.get_settled this p (inr (Some item)) w in
  exists w2,
    ManagedDynamoRepository.get_resumed (Some p) w1 = Some (inr (Some e), w2) /\
    heap w2 e = unMarshal (config this) item /\
    calls w2 = calls w /\
    jm_get e (tracked w2)
    = Some (update_entry e (JSON_stringify (unMarshal (config this) item))) /\
    requests (ops_for e (processed (fst (ManagedDynamoRepository.flush this w2)))) = [].
Proof.
  intros Hp Hwf Hfresh e w1. subst e. set (e := next_entity w) in *.
  assert (Hlt : p < length (promises w)) by (eapply lookup_lt_Some; exact Hp).
  assert (Hw1 : promises w1 !! p = Some (Fulfilled (Some e)) /\
                heap w1 e = unMarshal (config this) item /\
                tracked w1 = tracked w /\ calls w1 = calls w).
  { subst w1. unfold DynamoRepository.get_settled. rewrite Hp. simpl.
    unfold settle. simpl. rewrite Hp. simpl.
    rewrite list_lookup_insert_eq by exact Hlt.
    rewrite decide_True by reflexivity. auto. }
  destruct Hw1 as (Hp1 & Hh1 & Ht1 & Hc1).
  exists (ManagedDynamoRepository.track (Some e) w1).
  assert (Htr : ManagedDynamoRepository.track (Some e) w1
                = set_tracked
                    (jm_set e (update_entry e (JSON_stringify (heap w1 e)))
                            (tracked w1)) w1).
  { unfold ManagedDynamoRepository.track. now rewrite Ht1, Hfresh. }
  split.
  { unfold ManagedDynamoRepository.get_resumed, await. now rewrite Hp1. }
  rewrite Htr. simpl.
  split; [exact Hh1|]. split; [exact Hc1|].
  split; [rewrite jm_get_set_eq, Hh1; reflexivity|].
  rewrite <- Htr.
  rewrite (update_ops e (JSON_stringify (heap w1 e))
             (ManagedDynamoRepository.track (Some e) w1)).
  - rewrite Htr. simpl. rewrite bool_decide_eq_true_2 by reflexivity. reflexivity.
  - apply track_wf. now rewrite Ht1.
  - rewrite Htr. simpl. apply jm_get_set_eq.
Qed.

(** X13. [flush] does not clear the tracked table: whatever the store
    answers, the table is afterwards what it was, and a second [flush]
    with no mutation in between dispatches the same operations and hands
    the same requests to the store once more (a CREATE is put again, a
    DELETE deleted again, a changed UPDATE put again against its old
    snapshot). *)
Theorem X13_flush_keeps_tracked_table (replies : list (nat * option error)) w :
  let fw := ManagedDynamoRepository.run replies (ManagedDynamoRepository.flush this w) in
  tracked (snd fw) = tracked w /\
  processed (fst (ManagedDynamoRepository.flush this (snd fw)))
  = processed (fst (ManagedDynamoRepository.flush this w)) /\
  calls (snd (ManagedDynamoRepository.flush this (snd fw)))
  = calls w
    ++ requests (processed (fst (ManagedDynamoRepository.flush this w)))
    ++ requests (processed (fst (ManagedDynamoRepository.flush this w))).
Proof.
  intros fw.
  destruct (run_frame replies (ManagedDynamoRepository.flush this w))
    as (Ht & Hh & Hc).
  fold fw in Ht, Hh, Hc.
  destruct (flush_spec this w) as (Hops & Hcalls & Htr).
  rewrite Htr in Ht. rewrite (flush_frame this w) in Hh. rewrite Hcalls in Hc.
  assert (Hsame : processed (fst (ManagedDynamoRepository.flush this (snd fw)))
                  = processed (fst (ManagedDynamoRepository.flush this w))).
  { rewrite (proj1 (flush_spec this (snd fw))), Hops, Ht.
    apply map_ext. intros t. now apply dispatch_one_ext. }
  split; [exact Ht|]. split; [exact Hsame|].
  rewrite (proj1 (proj2 (flush_spec this (snd fw)))), Hsame, Hc.
  now rewrite <- app_assoc.
Qed.
End ManagedFacts.

Lemma X10_witness :
  ops_for 1 (processed (fst (ManagedDynamoRepository.flush Fixture.repository
                               Fixture.worldTwoNew)))
  = [{| op_action := CREATE; op_entity := 1;
        op_request := Some (dc_put "tableName" (Fixture.item "secondEntityId" false));
        op_status := OpPending |}] /\
  In (dc_put "tableName" (Fixture.item "secondEntityId" false))
     (calls (snd (ManagedDynamoRepository.flush Fixture.repository
                    Fixture.worldTwoNew))).
Proof.
  assert (Hwf : wf_tracked (tracked Fixture.worldNew)).
  { split; simpl; repeat constructor. intros []. }
  pose proof (proj2 (proj2 (X10_trackNew_always_persists Fixture.repository
                1 Fixture.worldNew Fixture.worldTwoNew Hwf eq_refl)) eq_refl)
    as (_ & Hop & _ & Hin & _).
  split; [exact Hop|exact Hin].
Defined.

Lemma X11_witness :
  let w1 := ManagedDynamoRepository.track (Some 0) Fixture.world0 in
  let w2 := ManagedDynamoRepository.track (Some 0)
              (mutate 0 (Fixture.item "entityId" true) w1) in
  requests (ops_for 0 (processed (fst (ManagedDynamoRepository.flush
                                         Fixture.repository w2))))
  = [dc_put "tableName" (Fixture.item "entityId" true)] /\
  In (dc_put "tableName" (Fixture.item "entityId" true))
     (calls (snd (ManagedDynamoRepository.flush Fixture.repository w2))).
Proof.
  intros w1 w2.
  assert (Hwf : wf_tracked (tracked Fixture.world0)).
  { split; simpl; constructor. }
  assert (Hne : JSON_stringify (Fixture.item "entityId" true)
                <> JSON_stringify (heap Fixture.world0 0)).
  { vm_compute. discriminate. }
  pose proof (proj2 (proj2 (proj2 (proj2 (X11_track_keeps_first_snapshot
                Fixture.repository 0 (Fixture.item "entityId" true)
                Fixture.world0 Hwf eq_refl)))) Hne) as (_ & Hreq & Hin).
  split; [exact Hreq|exact Hin].
Defined.

Lemma X12_witness :
  let w := snd (ManagedDynamoRepository.get Fixture.repository Fixture.entityKey
                  Fixture.world0) in
  exists w2,
    ManagedDynamoRepository.get_resumed (Some 0)
      (DynamoRepository.get_settled Fixture.repository 0
         (inr (Some (Fixture.item "entityId" false))) w)
    = Some (inr (Some 3), w2) /\
    requests (ops_for 3 (processed (fst (ManagedDynamoRepository.flush
                                           Fixture.repository w2)))) = [].
Proof.
  intros w.
  destruct (X12_managed_get_tracks_found_entity Fixture.repository 0
              (Fixture.item "entityId" false) w eq_refl)
    as (w2 & Hget & _ & _ & _ & Hflush).
  - split; simpl; constructor.
  - reflexivity.
  - exists w2. split; [exact Hget|exact Hflush].
Defined.

Section ManagedInvariant.
Context {Content : Type} `{Serializable Content}.
Variable this : Repository Content.
Implicit Types w : World Content.

Lemma dispatch_unchanged (entries : list TrackedEntry) (acc : list FlushOp) w :
  Forall (fun t => ManagedDynamoRepository.entityHasChanged (tentity t) w = Some false
                   /\ action t = UPDATE) entries ->
  ManagedDynamoRepository.dispatch this entries acc w
  = (acc ++ map (fun t => {| op_action := UPDATE; op_entity := tentity t;
                             op_request := None; op_status := OpFulfilled |})
                entries, w).
Proof.
  revert acc. induction entries as [|t entries IH]; intros acc Hall; simpl.
  - now rewrite app_nil_r.
  - apply Forall_cons in Hall as [[Hsame Hact] Hall].
    unfold ManagedDynamoRepository.dispatch_one, ManagedDynamoRepository.updateItem.
    rewrite Hact, Hsame. rewrite (IH _ Hall), <- app_assoc. reflexivity.
Qed.

Lemma fulfilled_ops (entries : list TrackedEntry) :
  let ops := map (fun t => {| op_action := UPDATE; op_entity := tentity t;
                              op_request := None; op_status := OpFulfilled |})
                 entries in
  first_rejected ops = None /\ all_fulfilled ops = true.
Proof.
  induction entries as [|t entries [IH1 IH2]]; simpl; [auto|].
  rewrite first_rejected_cons. simpl. auto.
Qed.

(** X14. When every tracked entity is an UPDATE whose serialized form
    still equals its snapshot, and in particular when the tracked table
    is empty (as after [clearTrackedEntities()]), [flush] hands nothing to
    the store, emits "flushed" and returns without waiting. *)
Theorem X14_flush_of_unchanged_entities_is_silent w :
  (wf_tracked (tracked w) ->
   Forall (fun t => action t = UPDATE /\
                    initialStatus t = Some (JSON_stringify (heap w (tentity t))))
          (jm_values (tracked w)) ->
   outcome (fst (ManagedDynamoRepository.flush this w)) = Some FlushReturned /\
   calls (snd (ManagedDynamoRepository.flush this w)) = calls w /\
   events (snd (ManagedDynamoRepository.flush this w)) = events w ++ [flushed]) /\
  ManagedDynamoRepository.flush this (ManagedDynamoRepository.clearTrackedEntities w)
  = ({| processed := []; outcome := Some FlushReturned |},
     emit flushed (ManagedDynamoRepository.clearTrackedEntities w)).
Proof.
  split; [|reflexivity].
  intros Hwf Hall.
  assert (Hsame : Forall (fun t =>
                    ManagedDynamoRepository.entityHasChanged (tentity t) w = Some false
                    /\ action t = UPDATE) (jm_values (tracked w))).
  { unfold jm_values in *. apply Forall_forall. intros t Hin.
    rewrite Forall_forall in Hall. destruct (Hall t Hin) as (Hact & Hsnap).
    apply list_elem_of_In, in_map_iff in Hin as ([k t'] & Heq & Hin).
    simpl in Heq. subst t'.
    assert (Hk : tentity t = k).
    { destruct Hwf as [_ Hf]. rewrite Forall_forall in Hf.
      apply (Hf (k, t)). now apply list_elem_of_In. }
    split; [|exact Hact].
    unfold ManagedDynamoRepository.entityHasChanged.
    rewrite Hk, (wf_tracked_get _ k t Hwf Hin), Hsnap, Hk.
    now rewrite bool_decide_eq_true_2. }
  unfold ManagedDynamoRepository.flush.
  rewrite (dispatch_unchanged _ [] w Hsame). simpl.
  unfold ManagedDynamoRepository.flush_await. simpl.
  destruct (fulfilled_ops (jm_values (tracked w))) as (-> & ->).
  simpl. auto.
Qed.

Lemma cache_do_tracked (s : cache_step) w :
  tracked (cache_do this s w) = tracked w.
Proof.
  destruct s as [key|p res|key v].
  - change (cache_do this (step_get key) w)
      with (snd (CachedDynamoRepository.get this key w)).
    destruct (CachedDynamoRepository.getFromCache this key w) as [p|] eqn:Hk.
    + now rewrite (get_cached this key p w Hk).
    + now rewrite (get_uncached this key w Hk).
  - apply (get_settled_frame this p res w).
  - simpl.
    destruct (CachedDynamoRepository.addToCacheByKey this key v w) as [[r w1]|] eqn:Ea;
      [|reflexivity].
    apply (addToCacheByKey_frame this key v r w w1 Ea).
Qed.

(** X15. The tracked table keeps one entry per entity, filed under the
    entity it names: this holds in a new repository and is preserved by
    [track], [trackNew], [delete], [clearTrackedEntities], the managed
    [get], [getList] and [search], by every step of the cache below, and
    by [flush] with whatever the store answers. *)
Theorem X15_tracked_table_stays_well_formed
    (w : World Content) (v : opt_entity) (e : eref) (p : option pref)
    (resolved : list (nat * opt_entity)) (s : cache_step)
    (replies : list (nat * option error)) (h : eref -> Content) (n : eref) :
  wf_tracked (tracked (initial_world h n)) /\
  (wf_tracked (tracked w) ->
   wf_tracked (tracked (ManagedDynamoRepository.track v w)) /\
   wf_tracked (tracked (ManagedDynamoRepository.delete v w)) /\
   wf_tracked (tracked (ManagedDynamoRepository.clearTrackedEntities w)) /\
   (forall r w1, ManagedDynamoRepository.trackNew this e w = Some (r, w1) ->
                 wf_tracked (tracked w1)) /\
   (forall r w1, ManagedDynamoRepository.get_resumed p w = Some (r, w1) ->
                 wf_tracked (tracked w1)) /\
   wf_tracked (tracked (ManagedDynamoRepository.getList_resumed resolved w)) /\
   wf_tracked (tracked (snd (ManagedDynamoRepository.search_next v w))) /\
   wf_tracked (tracked (cache_do this s w)) /\
   wf_tracked (tracked (snd (ManagedDynamoRepository.run replies
                               (ManagedDynamoRepository.flush this w))))).
Proof.
  split; [split; constructor|].
  intros Hwf.
  split; [now apply track_wf|]. split; [now apply delete_wf|].
  split; [split; constructor|].
  split; [intros r w1; now apply trackNew_wf|].
  split.
  { intros r w1. unfold ManagedDynamoRepository.get_resumed.
    destruct (await p w) as [[err|x]|]; try discriminate;
      intros Heq; inversion Heq; subst; [exact Hwf|now apply track_wf]. }
  split; [apply (getList_resumed_spec resolved w Hwf)|].
  split; [now apply track_wf|].
  split; [now rewrite cache_do_tracked|].
  rewrite (proj1 (run_frame replies (ManagedDynamoRepository.flush this w))).
  now rewrite (proj2 (proj2 (flush_spec this w))).
Qed.

(** X16. The managed [getList] tracks every entity of the map the cached
    [getList] resolved to, skips the [undefined] values, keeps the entry
    (action and snapshot) of every entity that was tracked before, and
    hands nothing to the store. *)
Theorem X16_managed_getList_tracks_every_entity
    (resolved : list (nat * opt_entity)) w :
  wf_tracked (tracked w) ->
  calls (ManagedDynamoRepository.getList_resumed resolved w) = calls w /\
  (forall e t, jm_get e (tracked w) = Some t ->
     jm_get e (tracked (ManagedDynamoRepository.getList_resumed resolved w)) = Some t) /\
  (forall kid e, In (kid, Some e) resolved ->
     jm_has e (tracked (ManagedDynamoRepository.getList_resumed resolved w)) = true) /\
  (forall e, jm_has e (tracked (ManagedDynamoRepository.getList_resumed resolved w)) = true ->
     jm_has e (tracked w) = true \/ exists kid, In (kid, Some e) resolved).
Proof.
  intros Hwf.
  destruct (getList_resumed_spec resolved w Hwf) as (_ & _ & Hc & Hkeep & Hall).
  split; [exact Hc|]. split; [exact Hkeep|]. split; [exact Hall|].
  clear. unfold ManagedDynamoRepository.getList_resumed, jm_values.
  revert w. induction resolved as [|[kid v] resolved IH]; intros w e He; simpl in *.
  - now left.
  - destruct (IH _ e He) as [Ht|[kid' Hin]].
    + unfold ManagedDynamoRepository.track in Ht.
      destruct v as [e'|]; [|now left].
      destruct (jm_has e' (tracked w)) eqn:Hhas; [now left|].
      simpl in Ht. unfold jm_has in Ht.
      destruct (decide (e' = e)) as [->|Hne].
      * right. exists kid. now left.
      * rewrite jm_get_set_ne in Ht by exact Hne. now left.
    + right. exists kid'. now right.
Qed.
End ManagedInvariant.

Lemma X14_witness :
  let w := ManagedDynamoRepository.track (Some 0) Fixture.world0 in
  calls (snd (ManagedDynamoRepository.flush Fixture.repository w)) = [] /\
  events (snd (ManagedDynamoRepository.flush Fixture.repository w)) = [flushed].
Proof.
  intros w.
  destruct (proj1 (X14_flush_of_unchanged_entities_is_silent Fixture.repository w))
    as (_ & Hcalls & Hevents).
  - split; simpl; repeat constructor. intros [].
  - repeat constructor.
  - split; [exact Hcalls|exact Hevents].
Defined.

Lemma X15_witness :
  wf_tracked (tracked Fixture.worldDeleted) /\
  wf_tracked (tracked (snd (ManagedDynamoRepository.run [(0, None)]
                              (ManagedDynamoRepository.flush Fixture.repository
                                 (ManagedDynamoRepository.track (Some 0) Fixture.world0))))).
Proof.
  assert (Hwf : wf_tracked (tracked (ManagedDynamoRepository.track (Some 0) Fixture.world0))).
  { split; simpl; repeat constructor. intros []. }
  destruct (proj2 (X15_tracked_table_stays_well_formed Fixture.repository
                     (ManagedDynamoRepository.track (Some 0) Fixture.world0)
                     (Some 0) 0 None [] (step_get Fixture.entityKey) [(0, None)]
                     (heap Fixture.world0) 3) Hwf)
    as (_ & Hdel & _ & _ & _ & _ & _ & _ & Hflush).
  split; [exact Hdel|exact Hflush].
Defined.

Lemma X16_witness :
  jm_has 0 (tracked (ManagedDynamoRepository.getList_resumed
                       [(10, Some 0); (11, None)] Fixture.world0)) = true /\
  calls (ManagedDynamoRepository.getList_resumed
           [(10, Some 0); (11, None)] Fixture.world0) = [].
Proof.
  destruct (X16_managed_getList_tracks_every_entity
              [(10, Some 0); (11, None)] Fixture.world0)
    as (Hcalls & _ & Hall & _).
  - split; constructor.
  - split; [apply (Hall 10); now left|exact Hcalls].
Defined.

(** ** A constructed repository *)

(** X17. In a repository whose constructor did not throw, deriving the key
    of an entity never throws: [deleteItem] always hands the store a delete
    request, keyed by an object that holds the entity's value of the hash
    attribute, and emits nothing while it builds the request; [addToCache]
    never throws the schema error. *)
Theorem X17_constructed_repository_derives_keys
    {Content : Type} `{Serializable Content} (cfg : ITableConfig Content)
    (this : Repository Content) (e : eref) (w : World Content) :
  new_Repository cfg = Some this ->
  config this = cfg /\
  exists key,
    CachedDynamoRepository.getEntityKey this e w = Some key /\
    prop key (hashKey this) = prop (marshal cfg (heap w e)) (hashKey this) /\
    ManagedDynamoRepository.deleteItem this e w
    = ({| op_action := DELETE; op_entity := e;
          op_request := Some (dc_delete (tableName cfg) key);
          op_status := OpPending |},
       request (dc_delete (tableName cfg) key) w) /\
    CachedDynamoRepository.addToCache this e w
    = CachedDynamoRepository.addToCacheByKey this key (Some e) w.
Proof.
  intros Hnew.
  assert (Hcfg : config this = cfg).
  { unfold new_Repository in Hnew.
    destruct (List.find _ _); inversion Hnew; reflexivity. }
  split; [exact Hcfg|].
  destruct (proj2 (getEntityKey_derives cfg this (marshal cfg (heap w e))) Hnew)
    as (key & Hkey & Hhash & _).
  exists key.
  unfold CachedDynamoRepository.getEntityKey, ManagedDynamoRepository.deleteItem,
    CachedDynamoRepository.addToCache, CachedDynamoRepository.getEntityKey.
  rewrite Hcfg, Hkey. auto.
Qed.

Lemma X17_witness :
  exists key,
    ManagedDynamoRepository.deleteItem Fixture.repository 0 Fixture.world0
    = ({| op_action := DELETE; op_entity := 0;
          op_request := Some (dc_delete "tableName" key);
          op_status := OpPending |},
       request (dc_delete "tableName" key) Fixture.world0).
Proof.
  destruct (proj2 (X17_constructed_repository_derives_keys Fixture.cfg
                     Fixture.repository 0 Fixture.world0 eq_refl))
    as (key & _ & _ & Hdel & _).
  exists key. exact Hdel.
Defined.

(** ** The fake document client *)

Section Fake.
Variable stringify : obj -> string.
Variable parse : string -> obj.
Implicit Types st : FakeState.

(** [ensureHashKey] only adds empty objects: what is stored is what was
    stored; afterwards the bucket is there. *)
Lemma ensureHashKey_spec (t h : string) st st1 :
  FakeDocumentClient.ensureHashKey t h st = Some st1 ->
  keySchemas st1 = keySchemas st /\
  shouldFail st1 = shouldFail st /\
  fakeError st1 = fakeError st /\
  (forall t' h' r',
     own_item (collections st1) t' h' r' = own_item (collections st) t' h' r') /\
  is_Some (collections st1 !! t ≫= fun tb => tb !! h).
Proof.
  unfold FakeDocumentClient.ensureHashKey.
  destruct (inherited t || inherited h); [discriminate|].
  intros Heq. injection Heq as <-. simpl.
  split; [reflexivity|]. split; [reflexivity|]. split; [reflexivity|]. split.
  - intros t' h' r'. unfold own_item.
    destruct (collections st !! t) as [tb|] eqn:Ec.
    + rewrite Ec. simpl. destruct (tb !! h) as [b|] eqn:Eb; [reflexivity|].
      destruct (decide (t' = t)) as [->|Hne].
      * rewrite lookup_alter_eq, Ec. simpl.
        destruct (decide (h' = h)) as [->|Hh].
        -- rewrite lookup_insert_eq, Eb. simpl. now rewrite lookup_empty.
        -- now rewrite lookup_insert_ne by congruence.
      * now rewrite lookup_alter_ne by congruence.
    + rewrite lookup_insert_eq. simpl. rewrite lookup_empty.
      destruct (decide (t' = t)) as [->|Hne].
      * rewrite lookup_alter_eq, lookup_insert_eq, Ec. simpl.
        destruct (decide (h' = h)) as [->|Hh].
        -- rewrite lookup_insert_eq. simpl. now rewrite lookup_empty.
        -- rewrite lookup_insert_ne by congruence. now rewrite lookup_empty.
      * now rewrite lookup_alter_ne, lookup_insert_ne by congruence.
  - destruct (collections st !! t) as [tb|] eqn:Ec.
    + rewrite Ec. simpl. destruct (tb !! h) as [b|] eqn:Eb.
      * rewrite Ec. simpl. rewrite Eb. eauto.
      * rewrite lookup_alter_eq, Ec. simpl. rewrite lookup_insert_eq. eauto.
    + rewrite lookup_insert_eq. simpl. rewrite lookup_empty.
      rewrite lookup_alter_eq, lookup_insert_eq. simpl.
      rewrite lookup_insert_eq. eauto.
Qed.

Lemma ensureHashKey_plain (t h : string) st :
  inherited t = false -> inherited h = false ->
  exists st1, FakeDocumentClient.ensureHashKey t h st = Some st1.
Proof.
  intros Ht Hh. unfold FakeDocumentClient.ensureHashKey. rewrite Ht, Hh. simpl.
  eauto.
Qed.

Lemma slot_of_plain (schema : FakeSchema) (k : obj) (h r : string) :
  FakeDocumentClient.slot_of schema k = Some (h, r) ->
  inherited h = false /\ inherited r = false /\
  h = to_property_key (prop k (fakeHashKey schema)) /\
  r = to_property_key (key_at k (fakeRangeKey schema)).
Proof.
  unfold FakeDocumentClient.slot_of.
  destruct (_ || _) eqn:Hg; [discriminate|].
  intros Heq. injection Heq as <- <-.
  apply orb_false_elim in Hg as (Hg & Hr).
  apply orb_false_elim in Hg as (_ & Hh). auto.
Qed.

Lemma stored_plain (t h r : string) st :
  inherited t = false -> inherited h = false -> inherited r = false ->
  FakeDocumentClient.stored t h r st = Some (own_item (collections st) t h r).
Proof.
  intros Ht Hh Hr. unfold FakeDocumentClient.stored. now rewrite Ht, Hh, Hr.
Qed.

(** Writing [v] into a slot whose bucket exists. *)
Lemma stored_write (c : gmap string (gmap string (gmap string (option string))))
    (t h r t' h' r' : string) (v : option string) :
  is_Some (c !! t ≫= fun tb => tb !! h) ->
  own_item (alter (fun tb => alter (fun b => <[r := v]> b) h tb) t c) t' h' r'
  = if decide (t' = t /\ h' = h /\ r' = r) then v else own_item c t' h' r'.
Proof.
  intros [b Hb]. unfold own_item.
  destruct (c !! t) as [tb|] eqn:Ec; [|discriminate]. simpl in Hb.
  destruct (decide (t' = t)) as [->|Ht].
  - rewrite lookup_alter_eq, Ec. simpl.
    destruct (decide (h' = h)) as [->|Hh].
    + rewrite lookup_alter_eq, Hb. simpl.
      destruct (decide (r' = r)) as [->|Hr].
      * rewrite lookup_insert_eq. simpl. now rewrite decide_True.
      * rewrite lookup_insert_ne by congruence.
        now rewrite decide_False by (intros (_ & _ & ?); congruence).
    + rewrite lookup_alter_ne by congruence.
      now rewrite decide_False by (intros (_ & ? & _); congruence).
  - rewrite lookup_alter_ne by congruence.
    now rewrite decide_False by (intros (? & _); congruence).
Qed.

Lemma bucket_alter (c : gmap string (gmap string (gmap string (option string))))
    (t h t' h' : string)
    (f : gmap string (option string) -> gmap string (option string)) :
  is_Some (c !! t ≫= fun tb => tb !! h) ->
  is_Some (alter (fun tb => alter f h' tb) t' c !! t ≫= fun tb => tb !! h).
Proof.
  intros [b Hb].
  destruct (c !! t) as [tb|] eqn:Ec; [|discriminate]. simpl in Hb.
  destruct (decide (t' = t)) as [->|Ht].
  - rewrite lookup_alter_eq, Ec. simpl.
    destruct (decide (h' = h)) as [->|Hh].
    + rewrite lookup_alter_eq, Hb. simpl. eauto.
    + rewrite lookup_alter_ne by congruence. eauto.
  - rewrite lookup_alter_ne, Ec by congruence. simpl. eauto.
Qed.

(** [put] of an item whose names are all own names. *)
Lemma put_plain (t : string) (schema : FakeSchema) (Item : obj) (h r : string) st :
  keySchemas st !! t = Some schema -> shouldFail st = false ->
  inherited t = false ->
  FakeDocumentClient.slot_of schema Item = Some (h, r) ->
  exists st1,
    FakeDocumentClient.put stringify t Item st = Some (Answered tt, st1) /\
    keySchemas st1 = keySchemas st /\ shouldFail st1 = false /\
    is_Some (collections st1 !! t ≫= fun tb => tb !! h) /\
    forall t' h' r',
      own_item (collections st1) t' h' r'
      = if decide (t' = t /\ h' = h /\ r' = r) then Some (stringify Item)
        else own_item (collections st) t' h' r'.
Proof.
  intros Hschema Hfail Ht Hslot.
  destruct (slot_of_plain schema Item h r Hslot) as (Hh & Hr & _ & _).
  destruct (ensureHashKey_plain t h st Ht Hh) as [st0 Hens].
  destruct (ensureHashKey_spec t h st st0 Hens) as (Hk0 & Hf0 & _ & Hsame & Hbucket).
  exists (FakeDocumentClient.set_collections
            (alter (fun tb => alter (fun b => <[r := Some (stringify Item)]> b) h tb)
                   t (collections st0)) st0).
  split.
  { unfold FakeDocumentClient.put, FakeDocumentClient.guardShouldFail,
      FakeDocumentClient.schema_of.
    rewrite Hfail, Ht, Hschema. simpl. rewrite Hslot. simpl. rewrite Hens.
    reflexivity. }
  simpl. split; [exact Hk0|]. split; [congruence|].
  split; [now apply bucket_alter|].
  intros t' h' r'. rewrite stored_write by exact Hbucket.
  destruct (decide _); [reflexivity|apply Hsame].
Qed.

(** [get] with a key whose names are all own names answers what the slot
    holds. *)
Lemma get_plain (t : string) (schema : FakeSchema) (Key : obj) (h r : string) st :
  keySchemas st !! t = Some schema -> shouldFail st = false ->
  inherited t = false ->
  FakeDocumentClient.slot_of schema Key = Some (h, r) ->
  fst <$> FakeDocumentClient.get parse t Key st
  = Some (Answered
            (match own_item (collections st) t h r with
             | Some marshaled =>
                 if truthy_string marshaled then Some (parse marshaled) else None
             | None => None
             end)).
Proof.
  intros Hschema Hfail Ht Hslot.
  destruct (slot_of_plain schema Key h r Hslot) as (Hh & Hr & _ & _).
  destruct (ensureHashKey_plain t h st Ht Hh) as [st0 Hens].
  destruct (ensureHashKey_spec t h st st0 Hens) as (_ & _ & _ & Hsame & _).
  unfold FakeDocumentClient.get, FakeDocumentClient.guardShouldFail,
    FakeDocumentClient.schema_of.
  rewrite Hfail, Ht, Hschema. simpl. rewrite Hslot. simpl. rewrite Hens. simpl.
  rewrite (stored_plain t h r st0 Ht Hh Hr). simpl. now rewrite Hsame.
Qed.

(** X18. Writing an item to the fake client and reading it back, for a
    table, attributes and key values whose names are not names that every
    object inherits from [Object.prototype] (a call that uses such a name
    is outside the model): [put] files the JSON text of the item under the
    string forms of its hash and range values; a [get] whose key has the
    same string forms answers the parsed text, a copy of the item, and a
    [get] for another slot answers what it answered before. *)
Theorem X18_fake_put_then_get (t : string) (schema : FakeSchema)
    (Item Key Key' : obj) (slot : string * string) st :
  keySchemas st !! t = Some schema ->
  shouldFail st = false ->
  truthy_string (stringify Item) = true ->
  inherited t = false ->
  FakeDocumentClient.slot_of schema Item = Some slot ->
  exists st1,
    FakeDocumentClient.put stringify t Item st = Some (Answered tt, st1) /\
    (FakeDocumentClient.slot_of schema Key = Some slot ->
     fst <$> FakeDocumentClient.get parse t Key st1
     = Some (Answered (Some (parse (stringify Item))))) /\
    (forall slot',
       FakeDocumentClient.slot_of schema Key' = Some slot' -> slot' <> slot ->
       fst <$> FakeDocumentClient.get parse t Key' st1
       = fst <$> FakeDocumentClient.get parse t Key' st).
Proof.
  intros Hschema Hfail Htruthy Ht Hslot. destruct slot as [h r].
  destruct (put_plain t schema Item h r st Hschema Hfail Ht Hslot)
    as (st1 & Hput & Hk1 & Hf1 & _ & Hown).
  assert (Hschema1 : keySchemas st1 !! t = Some schema) by (now rewrite Hk1).
  exists st1. split; [exact Hput|]. split.
  - intros HKey.
    pose proof (get_plain t schema Key h r st1 Hschema1 Hf1 Ht HKey) as Hg.
    rewrite Hg, Hown.
    rewrite decide_True by auto. now rewrite Htruthy.
  - intros [h' r'] HKey' Hne.
    pose proof (get_plain t schema Key' h' r' st1 Hschema1 Hf1 Ht HKey') as Hg1.
    pose proof (get_plain t schema Key' h' r' st Hschema Hfail Ht HKey') as Hg0.
    rewrite Hg1, Hg0.
    rewrite Hown, decide_False; [reflexivity|].
    intros (_ & -> & ->). now apply Hne.
Qed.

(** X19. [delete] on the fake client, for names that are not inherited
    from [Object.prototype]: after a [put], a [delete] whose key has the
    same string forms is answered, and a following [get] for that slot
    answers no item; but a [delete] for a hash value no call has touched
    yet throws before it calls back and changes nothing. *)
Theorem X19_fake_delete (t : string) (schema : FakeSchema) (Item Key : obj)
    (slot : string * string) st :
  keySchemas st !! t = Some schema ->
  inherited t = false ->
  FakeDocumentClient.slot_of schema Key = Some slot ->
  (shouldFail st = false ->
   FakeDocumentClient.slot_of schema Item = Some slot ->
   exists st1 st2,
     FakeDocumentClient.put stringify t Item st = Some (Answered tt, st1) /\
     FakeDocumentClient.delete t Key st1 = Some (Answered tt, st2) /\
     fst <$> FakeDocumentClient.get parse t Key st2 = Some (Answered None)) /\
  (collections st !! t ≫= (fun tb => tb !! fst slot) = None ->
   FakeDocumentClient.delete t Key st = Some (Threw TypeError, st)).
Proof.
  intros Hschema Ht HKey. destruct slot as [h r]. split.
  - intros Hfail HItem.
    destruct (put_plain t schema Item h r st Hschema Hfail Ht HItem)
      as (st1 & Hput & Hk1 & Hf1 & Hbucket & _).
    assert (Hschema1 : keySchemas st1 !! t = Some schema) by (now rewrite Hk1).
    set (st2 := FakeDocumentClient.set_collections
                  (alter (fun tb => alter (fun b => <[r := None]> b) h tb)
                         t (collections st1)) st1).
    assert (Hschema2 : keySchemas st2 !! t = Some schema) by exact Hschema1.
    assert (Hf2 : shouldFail st2 = false) by exact Hf1.
    exists st1, st2.
    split; [exact Hput|]. split.
    + unfold FakeDocumentClient.delete, FakeDocumentClient.schema_of.
      rewrite Ht, Hschema1. simpl. rewrite HKey. simpl.
      destruct Hbucket as [b Hb]. now rewrite Hb.
    + pose proof (get_plain t schema Key h r st2 Hschema2 Hf2 Ht HKey) as Hg.
      rewrite Hg. unfold st2. simpl.
      rewrite stored_write by exact Hbucket.
      now rewrite decide_True by auto.
  - intros Hnone. simpl in Hnone.
    unfold FakeDocumentClient.delete, FakeDocumentClient.schema_of.
    rewrite Ht, Hschema. simpl. rewrite HKey. simpl. now rewrite Hnone.
Qed.

(** X20. [failOnCall(error)] makes [get], [put] and [batchGet] call back
    with that error ("Repository error" when none was given) and leave the
    stored items alone, whereas [delete] does not look at it: told to
    fail, the client still carries a delete out. *)
Theorem X20_fake_failOnCall (err : option error) (t : string) (k : obj)
    (Keys : list obj) st :
  let st' := FakeDocumentClient.failOnCall err st in
  let e := default (StoreError "Repository error") err in
  FakeDocumentClient.get parse t k st' = Some (Errored e, st') /\
  FakeDocumentClient.put stringify t k st' = Some (Errored e, st') /\
  FakeDocumentClient.batchGet parse t Keys st' = Some (Errored e, st') /\
  fst <$> FakeDocumentClient.delete t k st' = fst <$> FakeDocumentClient.delete t k st /\
  (fun rs => collections (snd rs)) <$> FakeDocumentClient.delete t k st'
  = (fun rs => collections (snd rs)) <$> FakeDocumentClient.delete t k st.
Proof.
  intros st' e. split; [reflexivity|]. split; [reflexivity|].
  split; [reflexivity|].
  unfold FakeDocumentClient.delete, FakeDocumentClient.schema_of. subst st'. simpl.
  destruct (inherited t); [auto|]. simpl.
  destruct (keySchemas st !! t) as [schema|]; [|auto].
  destruct (FakeDocumentClient.slot_of schema k) as [slot|]; [|auto]. simpl.
  destruct (_ ≫= _); auto.
Qed.

Lemma omap_pointwise {A B : Type} (f g : A -> option B) (l : list A) :
  (forall x, f x = g x) -> omap f l = omap g l.
Proof.
  intros Hfg. induction l as [|x l IH]; [reflexivity|].
  change (omap f (x :: l)) with (match f x with Some y => y :: omap f l | None => omap f l end).
  change (omap g (x :: l)) with (match g x with Some y => y :: omap g l | None => omap g l end).
  rewrite Hfg, IH. reflexivity.
Qed.

Lemma batchGet_keys_spec (t : string) (schema : FakeSchema) (Keys : list obj) :
  inherited t = false ->
  Forall (fun k => is_Some (FakeDocumentClient.slot_of schema k)) Keys ->
  forall (items : list obj) st,
  keySchemas st !! t = Some schema ->
  exists st1,
    FakeDocumentClient.batchGet_keys parse t Keys items st
    = Some (Answered
              (items ++
               omap (fun k : obj =>
                       FakeDocumentClient.slot_of schema k ≫= fun slot =>
                       parse <$> own_item (collections st) t (fst slot) (snd slot))
                    Keys), st1) /\
    (forall t' h r,
       own_item (collections st1) t' h r = own_item (collections st) t' h r).
Proof.
  intros Ht. induction Keys as [|k Keys IH]; intros Hall items st Hschema.
  - exists st. simpl. rewrite app_nil_r. auto.
  - apply Forall_cons in Hall as ([[h r] Hslot] & Hall).
    destruct (slot_of_plain schema k h r Hslot) as (Hh & Hr & _ & _).
    destruct (ensureHashKey_plain t h st Ht Hh) as [st0 Hens].
    destruct (ensureHashKey_spec t h st st0 Hens) as (Hk0 & _ & _ & Hsame & _).
    assert (Hschema0 : keySchemas st0 !! t = Some schema) by (now rewrite Hk0).
    set (F := fun st' (k : obj) =>
                FakeDocumentClient.slot_of schema k ≫= fun slot =>
                parse <$> own_item (collections st') t (fst slot) (snd slot)).
    change (omap (fun k : obj =>
                    FakeDocumentClient.slot_of schema k ≫= fun slot =>
                    parse <$> own_item (collections st) t (fst slot) (snd slot))
                 (k :: Keys))
      with (match F st k with
            | Some y => y :: omap (F st) Keys
            | None => omap (F st) Keys
            end).
    assert (Hom : omap (F st0) Keys = omap (F st) Keys).
    { apply omap_pointwise. intros k'. unfold F.
      destruct (FakeDocumentClient.slot_of schema k'); [simpl|reflexivity].
      now rewrite Hsame. }
    assert (HF : F st k = parse <$> own_item (collections st) t h r).
    { unfold F. now rewrite Hslot. }
    rewrite HF. set (tl := omap (F st) Keys) in *.
    cbn [FakeDocumentClient.batchGet_keys].
    unfold FakeDocumentClient.schema_of. rewrite Ht, Hschema. simpl.
    rewrite Hslot. simpl. rewrite Hens. simpl.
    rewrite (stored_plain t h r st0 Ht Hh Hr). simpl. rewrite Hsame.
    destruct (own_item (collections st) t h r) as [item|] eqn:Es; simpl.
    + destruct (IH Hall (items ++ [parse item]) st0 Hschema0) as (st1 & Hres & Hsame1).
      exists st1. fold (F st0) in Hres. rewrite Hres, Hom, <- app_assoc.
      split; [reflexivity|].
      intros t' h' r'. now rewrite Hsame1.
    + destruct (IH Hall items st0 Hschema0) as (st1 & Hres & Hsame1).
      exists st1. fold (F st0) in Hres. rewrite Hres, Hom. split; [reflexivity|].
      intros t' h' r'. now rewrite Hsame1.
Qed.

(** X21. [batchGet] on the fake client, for a table and keys whose names
    are not inherited from [Object.prototype]: it answers the parsed
    items of the requested keys that have one, in the order of the request
    and once per request of the key, and leaves out the keys that have
    none; what is stored does not change. *)
Theorem X21_fake_batchGet_omits_missing (t : string) (schema : FakeSchema)
    (Keys : list obj) st :
  keySchemas st !! t = Some schema ->
  shouldFail st = false ->
  inherited t = false ->
  Forall (fun k => is_Some (FakeDocumentClient.slot_of schema k)) Keys ->
  let found := fun (k : obj) =>
    FakeDocumentClient.slot_of schema k ≫= fun slot =>
    parse <$> own_item (collections st) t (fst slot) (snd slot) in
  exists st1,
    FakeDocumentClient.batchGet parse t Keys st
    = Some (Answered (omap found Keys), st1) /\
    (forall t' h r,
       own_item (collections st1) t' h r = own_item (collections st) t' h r).
Proof.
  intros Hschema Hfail Ht Hall found.
  unfold FakeDocumentClient.batchGet, FakeDocumentClient.guardShouldFail.
  rewrite Hfail, Ht.
  exact (batchGet_keys_spec t schema Keys Ht Hall [] st Hschema).
Qed.
End Fake.

Lemma X18_witness :
  exists st1,
    FakeDocumentClient.put Sample.stringify_item "tableName"
      (Fixture.item "entityId" false) Sample.fake = Some (Answered tt, st1) /\
    fst <$> FakeDocumentClient.get Sample.parse_item "tableName" Fixture.entityKey st1
    = Some (Answered (Some [("id", VStr "entityId")])).
Proof.
  destruct (X18_fake_put_then_get Sample.stringify_item Sample.parse_item
              "tableName" {| fakeHashKey := "id"; fakeRangeKey := None |}
              (Fixture.item "entityId" false) Fixture.entityKey
              Fixture.entityKey ("entityId", "undefined") Sample.fake
              eq_refl eq_refl eq_refl eq_refl eq_refl)
    as (st1 & Hput & Hget & _).
  exists st1. split; [exact Hput|]. exact (Hget eq_refl).
Defined.

Lemma X19_witness :
  (exists st1 st2,
     FakeDocumentClient.put Sample.stringify_item "tableName"
       (Fixture.item "entityId" false) Sample.fake = Some (Answered tt, st1) /\
     FakeDocumentClient.delete "tableName" Fixture.entityKey st1
     = Some (Answered tt, st2) /\
     fst <$> FakeDocumentClient.get Sample.parse_item "tableName" Fixture.entityKey st2
     = Some (Answered None)) /\
  FakeDocumentClient.delete "tableName" Fixture.entityKey Sample.fake
  = Some (Threw TypeError, Sample.fake).
Proof.
  pose proof (X19_fake_delete Sample.stringify_item Sample.parse_item "tableName"
                {| fakeHashKey := "id"; fakeRangeKey := None |}
                (Fixture.item "entityId" false) Fixture.entityKey
                ("entityId", "undefined") Sample.fake eq_refl eq_refl eq_refl)
    as (Hdel & Hthrow).
  split.
  - exact (Hdel eq_refl eq_refl).
  - apply Hthrow. reflexivity.
Defined.

Lemma X21_witness :
  exists st1 st2,
    FakeDocumentClient.put Sample.stringify_item "tableName"
      (Fixture.item "entityId" false) Sample.fake = Some (Answered tt, st1) /\
    FakeDocumentClient.batchGet Sample.parse_item "tableName"
      [[("id", VStr "notExistentId")]; Fixture.entityKey] st1
    = Some (Answered [[("id", VStr "entityId")]], st2).
Proof.
  exists (snd (default (Answered tt, Sample.fake)
                 (FakeDocumentClient.put Sample.stringify_item "tableName"
                    (Fixture.item "entityId" false) Sample.fake))).
  destruct (X21_fake_batchGet_omits_missing Sample.parse_item "tableName"
              {| fakeHashKey := "id"; fakeRangeKey := None |}
              [[("id", VStr "notExistentId")]; Fixture.entityKey]
              (snd (default (Answered tt, Sample.fake)
                      (FakeDocumentClient.put Sample.stringify_item "tableName"
                         (Fixture.item "entityId" false) Sample.fake)))
              eq_refl eq_refl eq_refl)
    as (st2 & Hget & _).
  - repeat constructor; eexists; reflexivity.
  - exists st2. split; [reflexivity|exact Hget].
Defined.

(** ** Batch reads *)

(** X22. The request the cached [getList] sends to the store: its keys are
    requested keys that hold no promise in the cache, no key of it is
    [sameKey] to an earlier one, and every requested key that holds no
    promise has a key in it that it is [sameKey] to; a key that is cached
    is never sent. *)
Theorem X22_cached_getList_requests_only_uncached
    {Content : Type} (this : Repository Content) (keys : list keyobj)
    (w : World Content) :
  let notCached := CachedDynamoRepository.getList_notCached this keys w in
  let Keys := uniqueKeys (map snd notCached) in
  DynamoRepository.getList_request this notCached
    = dc_batchGet (tableName (config this)) Keys /\
  fresh_keys Keys /\
  (forall k, In k Keys ->
     CachedDynamoRepository.keyIsCached this k w = false /\
     exists key, In key keys /\ snd key = k) /\
  (forall key, In key keys ->
     CachedDynamoRepository.keyIsCached this (snd key) w = false ->
     existsb (fun k2 => sameKey (snd key) k2) Keys = true) /\
  (forall key, In key keys ->
     CachedDynamoRepository.keyIsCached this (snd key) w = true ->
     ~ In key notCached).
Proof.
  intros notCached Keys.
  assert (Hfilter : forall key, In key notCached <->
            CachedDynamoRepository.keyIsCached this (snd key) w = false /\ In key keys).
  { intros key. subst notCached. unfold CachedDynamoRepository.getList_notCached.
    rewrite <- !list_elem_of_In.
    exact (list_elem_of_filter
             (fun key => CachedDynamoRepository.keyIsCached this (snd key) w = false)
             keys key). }
  split; [reflexivity|]. split.
  { apply (uniqueKeys_from_fresh (map snd notCached) []).
    intros pre k post Heq. destruct pre; discriminate. }
  split.
  { intros k Hin.
    apply (uniqueKeys_from_sub (map snd notCached) []) in Hin as [[]|Hin].
    apply in_map_iff in Hin as (key & Hk & Hin).
    apply Hfilter in Hin as (Hc & Hin). subst k.
    split; [exact Hc|]. exists key. auto. }
  split.
  { intros key Hin Hc.
    apply (uniqueKeys_from_covers (map snd notCached) []). right.
    apply in_map. apply Hfilter. auto. }
  intros key Hin Hc Hnc. apply Hfilter in Hnc as (Hc' & _). congruence.
Qed.

(** X23. The loop of the base [getList] over the items the store returned,
    in a repository whose constructor did not throw: it never throws,
    creates one new entity object per item, in order, holding the
    unmarshalled item, touches no other entity, no promise of the cache
    and no tracked entry and calls the store no more. Every item is filed:
    the map has an entry under the first requested key object that is
    [sameKey] to the key derived from the item's entity, or under
    [undefined] when no requested key is; when no later item is filed
    under the same key object the entry is the item's own entity, and
    every entry of the map is the new entity of an item filed under its
    key that no later item replaced. *)
Theorem X23_getList_collects_new_entities
    {Content : Type} (this : Repository Content) (cfg : ITableConfig Content)
    (keys : list keyobj) (items : list obj) (w : World Content) :
  new_Repository cfg = Some this ->
  exists result w1,
    DynamoRepository.getList_collect this keys items [] w = (inr result, w1) /\
    next_entity w1 = next_entity w + length items /\
    calls w1 = calls w /\ tracked w1 = tracked w /\ cache w1 = cache w /\
    (forall e, e < next_entity w -> heap w1 e = heap w e) /\
    (forall i item, items !! i = Some item ->
       heap w1 (next_entity w + i) = unMarshal (config this) item) /\
    (forall i item, items !! i = Some item ->
       exists k,
         filed_under this keys item = Some k /\
         jm_has k result = true /\
         ((forall j item', i < j -> items !! j = Some item' ->
                           filed_under this keys item' <> Some k) ->
          jm_get k result = Some (next_entity w + i))) /\
    (forall k e, jm_get k result = Some e ->
       exists i item,
         items !! i = Some item /\ e = next_entity w + i /\
         filed_under this keys item = Some k /\
         forall j item', i < j -> items !! j = Some item' ->
                         filed_under this keys item' <> Some k) /\
    (forall item k, filed_under this keys item = Some k ->
       exists ek,
         getEntityKey (keySchema (config this))
           (marshal (config this) (unMarshal (config this) item)) = Some ek /\
         match k with
         | Some a =>
             exists pre key post,
               keys = pre ++ key :: post /\ fst key = a /\
               sameKey (snd key) ek = true /\
               forall key', In key' pre -> sameKey (snd key') ek = false
         | None => forall key, In key keys -> sameKey (snd key) ek = false
         end).
Proof.
  intros Hnew.
  assert (Hcfg : config this = cfg).
  { unfold new_Repository in Hnew.
    destruct (List.find _ _); inversion Hnew; reflexivity. }
  assert (Hok : forall item, filed_under this keys item <> None).
  { intros item. unfold filed_under. rewrite Hcfg.
    destruct (proj2 (getEntityKey_derives cfg this
                       (marshal cfg (unMarshal cfg item))) Hnew)
      as (key & Hkey & _).
    rewrite Hkey. discriminate. }
  destruct (getList_collect_files this keys items (fun it _ => Hok it) [] w)
    as (result & w1 & Hcol & Hnext & Hframe & Hold & Hheap & Hlast & _).
  exists result, w1. split; [exact Hcol|]. split; [exact Hnext|].
  destruct Hframe as (Hc & Ht & Hk & _).
  split; [exact Hc|]. split; [exact Ht|]. split; [exact Hk|].
  split; [exact Hold|]. split; [exact Hheap|]. split; [|split].
  - intros i item Hi.
    destruct (filed_under this keys item) as [k|] eqn:Hf;
      [|now destruct (Hok item)].
    exists k. split; [reflexivity|].
    destruct (Hlast i item k Hi Hf) as (j & item' & Hle & Hj & Hfj & Hget & Hafter).
    split; [unfold jm_has; now rewrite Hget|].
    intros Hnone.
    assert (j = i).
    { destruct (decide (j = i)) as [|Hne]; [assumption|].
      exfalso. apply (Hnone j item'); [lia|exact Hj|exact Hfj]. }
    now subst j.
  - intros k e Hget.
    exact (getList_collect_entries this keys items w w1 result
             (fun it _ => Hok it) Hcol k e Hget).
  - intros item k Hf. exact (filed_under_first this keys item k Hf).
Qed.

Lemma X23_witness :
  exists result w1,
    DynamoRepository.getList_collect Fixture.repository Sample.keys
      [Fixture.item "entityId" true; Fixture.item "other" true] []
      Fixture.world0 = (inr result, w1) /\
    next_entity w1 = 5 /\
    heap w1 3 = Fixture.item "entityId" true /\
    jm_get (Some 10) result = Some 3 /\
    jm_get None result = Some 4.
Proof.
  destruct (X23_getList_collects_new_entities Fixture.repository Fixture.cfg
              Sample.keys [Fixture.item "entityId" true; Fixture.item "other" true]
              Fixture.world0 eq_refl)
    as (result & w1 & Hcol & Hnext & _ & _ & _ & _ & Hnew & Hfiled & _).
  exists result, w1. split; [exact Hcol|]. split; [exact Hnext|].
  split; [exact (Hnew 0 _ eq_refl)|].
  split.
  - destruct (Hfiled 0 _ eq_refl) as (k & Hk & _ & Hget).
    injection Hk as <-. apply Hget.
    intros [|[|j]] item' Hlt Hj; try lia; try discriminate.
    injection Hj as <-. discriminate.
  - destruct (Hfiled 1 _ eq_refl) as (k & Hk & _ & Hget).
    injection Hk as <-. apply Hget.
    intros [|[|j]] item' Hlt Hj; try lia; discriminate.
Defined.
